(** * po-translator-llm: the catalog codec, the rate limiter and the
      translation orchestrator

    A shallow embedding of [src/parser.ts] (class [PoParser]),
    [src/rate-limiter.ts] (class [RateLimiter]) and [src/translator.ts]
    (class [Translator]), and the properties of the specification that
    these three classes decide.

    Conventions.
    - A JavaScript string is a [string]: a sequence of code units below 256.
      [trim] strips the white space of that range (9 to 13, 32 and 160).
    - An optional property ([msgid?: string]) is an [option].
    - A JavaScript object used as a map (the catalog header) is the list
      of its own properties in the order [Object.entries] enumerates them:
      the keys that are array indices in ascending order, then the others
      in insertion order.
    - Code that can throw returns a [result]; code that can also stay
      suspended at an [await] returns an optional [result]. *)

From Stdlib Require Import List String Ascii Bool Arith ZArith QArith Lia.
From Stdlib Require Import Qminmax Qpower Qround Lqa Sorted SpecFloat.
Import ListNotations.

Close Scope Q_scope.

(** ** JavaScript strings *)

Module JsString.

Local Open Scope string_scope.

Definition backslash : ascii := "092"%char.
Definition dquote : ascii := "034"%char.
Definition newline : ascii := "010"%char.
Definition tab : ascii := "009"%char.

(** Strings of one and of two code units. *)
Abbreviation str1 c := (String c EmptyString) (only parsing).
Abbreviation str2 c d := (String c (String d EmptyString)) (only parsing).

(** The white space [String.prototype.trim] removes, among the code
    units below 256. *)
Definition is_space (c : ascii) : bool :=
  let n := nat_of_ascii c in
  (((9 <=? n) && (n <=? 13)) || (n =? 32) || (n =? 160))%nat.

Fixpoint trimStart (s : string) : string :=
  match s with
  | EmptyString => EmptyString
  | String c r => if is_space c then trimStart r else s
  end.

Fixpoint trimEnd (s : string) : string :=
  match s with
  | EmptyString => EmptyString
  | String c r =>
      match trimEnd r with
      | EmptyString => if is_space c then EmptyString else str1 c
      | r' => String c r'
      end
  end.

Definition trim (s : string) : string := trimEnd (trimStart s).

(** [!s] for a string. *)
Definition is_empty (s : string) : bool :=
  match s with EmptyString => true | _ => false end.

Definition startsWith (p s : string) : bool := prefix p s.

Fixpoint rev_onto (s acc : string) : string :=
  match s with
  | EmptyString => acc
  | String c r => rev_onto r (String c acc)
  end.

Definition rev (s : string) : string := rev_onto s EmptyString.

Definition endsWith (p s : string) : bool := prefix (rev p) (rev s).

(** [s.substring(n)] for [n >= 0]. *)
Fixpoint drop (n : nat) (s : string) : string :=
  match n, s with
  | O, _ => s
  | S k, EmptyString => EmptyString
  | S k, String _ r => drop k r
  end.

Fixpoint remove_last (s : string) : string :=
  match s with
  | EmptyString => EmptyString
  | String c EmptyString => EmptyString
  | String c r => String c (remove_last r)
  end.

(** [s.slice(1, -1)]. *)
Definition slice_1_m1 (s : string) : string := remove_last (drop 1 s).

(** [s.includes(sub)]. *)
Fixpoint includes (sub s : string) : bool :=
  prefix sub s ||
  match s with
  | EmptyString => false
  | String _ r => includes sub r
  end.

(** [s.replace(/pat/g, rep)] for a literal, non-empty pattern: matches are
    found left to right and do not overlap.  [skip] counts the code units
    of a match still to be passed over. *)
Fixpoint replace_go (pat rep : string) (skip : nat) (s : string) : string :=
  match s with
  | EmptyString => EmptyString
  | String c r =>
      match skip with
      | S k => replace_go pat rep k r
      | O =>
          if prefix pat s
          then (rep ++ replace_go pat rep (String.length pat - 1) r)%string
          else String c (replace_go pat rep 0 r)
      end
  end.

Definition replaceAll (pat rep s : string) : string := replace_go pat rep 0 s.

Definition cons_head (c : ascii) (l : list string) : list string :=
  match l with
  | [] => [str1 c]
  | h :: t => String c h :: t
  end.

(** [s.split(sep)] for a non-empty separator. *)
Fixpoint split_go (sep : string) (skip : nat) (s : string) : list string :=
  match s with
  | EmptyString => [EmptyString]
  | String c r =>
      match skip with
      | S k => split_go sep k r
      | O =>
          if prefix sep s
          then EmptyString :: split_go sep (String.length sep - 1) r
          else cons_head c (split_go sep 0 r)
      end
  end.

Definition split (sep s : string) : list string := split_go sep 0 s.

(** [s.split(sep, n)]. *)
Definition split_limit (sep : string) (n : nat) (s : string) : list string :=
  firstn n (split sep s).

(** [s.toLowerCase()] on code units below 256. *)
Definition lower_char (c : ascii) : ascii :=
  let n := nat_of_ascii c in
  if (((65 <=? n) && (n <=? 90))
      || ((192 <=? n) && (n <=? 222) && negb (n =? 215)))%nat
  then ascii_of_nat (n + 32)
  else c.

Fixpoint toLowerCase (s : string) : string :=
  match s with
  | EmptyString => EmptyString
  | String c r => String (lower_char c) (toLowerCase r)
  end.

(** [l.join(sep)]. *)
Fixpoint join (sep : string) (l : list string) : string :=
  match l with
  | [] => EmptyString
  | [x] => x
  | x :: r => (x ++ sep ++ join sep r)%string
  end.

End JsString.

(** ** Results of code that can throw *)

Inductive result (E A : Type) : Type :=
| Ok (a : A)
| Throw (e : E).

Arguments Ok {E A} a.
Arguments Throw {E A} e.

(** ** The data model ([src/types.ts]) *)

Record TranslationEntry : Type := mkEntry {
  msgid : string;
  msgstr : string;
  comments : option (list string);
  line : option nat
}.

(** The header object, as the list of its own properties. *)
Definition Header : Type := list (string * string).

Record PoFile : Type := mkPoFile {
  header : Header;
  entries : list TranslationEntry
}.

(** The header object: its own string keys in the order [Object.entries]
    gives them, which is the keys that are array indices in ascending
    order, and then the others in insertion order. *)

Definition is_digit (c : ascii) : bool :=
  (48 <=? nat_of_ascii c)%nat && (nat_of_ascii c <=? 57)%nat.

Fixpoint decimal (s : string) (acc : N) : option N :=
  match s with
  | EmptyString => Some acc
  | String c r =>
      if is_digit c
      then decimal r (10 * acc + N.of_nat (nat_of_ascii c - 48))%N
      else None
  end.

(** The array index a key is, if it is one: a canonical decimal numeral
    of at most 2^32 - 2. *)
Definition array_index (key : string) : option N :=
  match key with
  | EmptyString => None
  | String c r =>
      if Ascii.eqb c "0"%char && negb (String.eqb r EmptyString) then None
      else match decimal key 0 with
           | Some n => if (n <=? 4294967294)%N then Some n else None
           | None => None
           end
  end.

Fixpoint has_key (o : Header) (key : string) : bool :=
  match o with
  | [] => false
  | (k, _) :: r => String.eqb k key || has_key r key
  end.

(** An existing key keeps its place. *)
Fixpoint obj_update (o : Header) (key value : string) : Header :=
  match o with
  | [] => []
  | (k, v) :: r =>
      if String.eqb k key then (k, value) :: r
      else (k, v) :: obj_update r key value
  end.

(** A new key that is the array index [n] goes before the first key that
    is a larger index or no index. *)
Fixpoint obj_insert (o : Header) (n : N) (key value : string) : Header :=
  match o with
  | [] => [(key, value)]
  | (k, v) :: r =>
      match array_index k with
      | Some m =>
          if (m <? n)%N then (k, v) :: obj_insert r n key value
          else (key, value) :: o
      | None => (key, value) :: o
      end
  end.

(** [obj[key] = value] for a string [value].  The key [__proto__] names
    the setter of [Object.prototype], which ignores a string, so that the
    object gets no property. *)
Definition obj_set (o : Header) (key value : string) : Header :=
  if String.eqb key "__proto__"%string then o
  else if has_key o key then obj_update o key value
  else match array_index key with
       | Some n => obj_insert o n key value
       | None => o ++ [(key, value)]
       end.

(** ** The catalog codec ([src/parser.ts]) *)

Module PoParser.

Import JsString.
Local Open Scope string_scope.

(** [Partial<TranslationEntry>], the entry under construction. *)
Record PartialEntry : Type := mkPartial {
  p_msgid : option string;
  p_msgstr : option string;
  p_line : option nat
}.

Definition empty_partial : PartialEntry := mkPartial None None None.

(** Truthiness of an optional string: [undefined] and the empty string are
    falsy. *)
Definition truthy (o : option string) : bool :=
  match o with
  | Some s => negb (is_empty s)
  | None => false
  end.

(** [o || d]. *)
Definition or_else (o : option string) (d : string) : string :=
  match o with
  | Some s => if is_empty s then d else s
  | None => d
  end.

(** [o === EmptyString]. *)
Definition is_empty_string (o : option string) : bool :=
  match o with
  | Some s => is_empty s
  | None => false
  end.

Definition quote : string := str1 dquote.

(** [parseString]: the four [replace] calls in the order of the source. *)
Definition unescape (s : string) : string :=
  replaceAll (str2 backslash backslash) (str1 backslash)
    (replaceAll (str2 backslash dquote) (str1 dquote)
       (replaceAll (str2 backslash "t"%char) (str1 tab)
          (replaceAll (str2 backslash "n"%char) (str1 newline) s))).

Definition parseString (str : string) : string :=
  if startsWith quote str && endsWith quote str
  then unescape (slice_1_m1 str)
  else str.

(** [escapeString]: the four [replace] calls in the order of the source. *)
Definition escapeString (str : string) : string :=
  replaceAll (str1 tab) (str2 backslash "t"%char)
    (replaceAll (str1 newline) (str2 backslash "n"%char)
       (replaceAll (str1 dquote) (str2 backslash dquote)
          (replaceAll (str1 backslash) (str2 backslash backslash) str))).

(** [parseHeader]: the string is split at the two code units backslash, n. *)
Definition header_line (h : Header) (l : string) : Header :=
  if includes ": " l
  then match split_limit ": " 2 l with
       | key :: value :: _ => obj_set h key value
       | _ => h
       end
  else h.

Definition parseHeader (headerStr : string) : Header :=
  fold_left header_line (split (str2 backslash "n"%char) headerStr) [].

(** [finishEntry]. *)
Definition finishEntry (cur : PartialEntry) (es : list TranslationEntry)
    (cs : list string) : list TranslationEntry :=
  match cur.(p_msgid) with
  | Some id =>
      if is_empty id then es
      else es ++ [mkEntry id (or_else cur.(p_msgstr) EmptyString)
                    (match cs with [] => None | _ => Some cs end)
                    cur.(p_line)]
  | None => es
  end.

(** The local variables of [parse]. *)
Record PState : Type := mkPState {
  st_entries : list TranslationEntry;
  st_current : PartialEntry;
  st_inMsgid : bool;
  st_inMsgstr : bool;
  st_header : Header;
  st_isHeader : bool;
  st_comments : list string
}.

Definition init_state : PState :=
  mkPState [] empty_partial false false [] true [].

(** The productions of the line grammar, tested in the order of the loop
    body. *)
Inductive LineKind : Type :=
| Blank | Comment | MsgidLine | MsgstrLine | Continuation | Unrecognized.

Definition classify (l : string) : LineKind :=
  if is_empty l then Blank
  else if startsWith "#" l then Comment
  else if startsWith "msgid " l then MsgidLine
  else if startsWith "msgstr " l then MsgstrLine
  else if startsWith quote l && endsWith quote l then Continuation
  else Unrecognized.

(** One iteration of the loop of [parse]: [i] is the index and [raw] is
    [lines[i]]. *)
Definition parse_line (i : nat) (raw : string) (st : PState) : PState :=
  let l := trim raw in
  let cur := st.(st_current) in
  match classify l with
  | Blank =>
      if truthy cur.(p_msgid) || truthy cur.(p_msgstr)
      then mkPState (finishEntry cur st.(st_entries) st.(st_comments))
             empty_partial false false st.(st_header) st.(st_isHeader) []
      else st
  | Comment =>
      mkPState st.(st_entries) cur st.(st_inMsgid) st.(st_inMsgstr)
        st.(st_header) st.(st_isHeader) (st.(st_comments) ++ [l])
  | MsgidLine =>
      let id := parseString (drop 6 l) in
      let cur' := mkPartial (Some id) cur.(p_msgstr) (Some (i + 1)) in
      if st.(st_isHeader) && is_empty id
      then mkPState st.(st_entries) cur' true false st.(st_header) true
             st.(st_comments)
      else mkPState st.(st_entries) cur' true false st.(st_header) false
             st.(st_comments)
  | MsgstrLine =>
      let str := parseString (drop 7 l) in
      let cur' := mkPartial cur.(p_msgid) (Some str) cur.(p_line) in
      if st.(st_isHeader) && is_empty_string cur.(p_msgid)
      then mkPState st.(st_entries) empty_partial false true
             (parseHeader str) false st.(st_comments)
      else mkPState st.(st_entries) cur' false true st.(st_header)
             st.(st_isHeader) st.(st_comments)
  | Continuation =>
      let text := parseString l in
      if st.(st_inMsgid)
      then mkPState st.(st_entries)
             (mkPartial (Some (or_else cur.(p_msgid) EmptyString ++ text))
                cur.(p_msgstr) cur.(p_line))
             st.(st_inMsgid) st.(st_inMsgstr) st.(st_header)
             st.(st_isHeader) st.(st_comments)
      else if st.(st_inMsgstr)
      then mkPState st.(st_entries)
             (mkPartial cur.(p_msgid)
                (Some (or_else cur.(p_msgstr) EmptyString ++ text))
                cur.(p_line))
             st.(st_inMsgid) st.(st_inMsgstr) st.(st_header)
             st.(st_isHeader) st.(st_comments)
      else st
  | Unrecognized => st
  end.

(** What [parse] can throw: [lines[i].trim()] on an index that holds no
    string. *)
Inductive ParseError : Type :=
| TypeError_undefined_trim (i : nat).

(** [for (let i = 0; i < lines.length; i++)]: [n] counts the iterations
    left, and [lines[i]] is read by index. *)
Fixpoint parse_loop (lines : list string) (n i : nat) (st : PState)
    : result ParseError PState :=
  match n with
  | O => Ok st
  | S n' =>
      match nth_error lines i with
      | None => Throw (TypeError_undefined_trim i)
      | Some raw => parse_loop lines n' (S i) (parse_line i raw st)
      end
  end.

(** The flush after the loop and the returned object. *)
Definition finish (st : PState) : PoFile :=
  let cur := st.(st_current) in
  mkPoFile st.(st_header)
    (if truthy cur.(p_msgid) || truthy cur.(p_msgstr)
     then finishEntry cur st.(st_entries) st.(st_comments)
     else st.(st_entries)).

Definition parse (content : string) : result ParseError PoFile :=
  let lines := split (str1 newline) content in
  match parse_loop lines (List.length lines) 0 init_state with
  | Ok st => Ok (finish st)
  | Throw e => Throw e
  end.

(** [serialize]. *)
Definition nl : string := str1 newline.

Definition serialize_header_field (kv : string * string) : string :=
  quote ++ fst kv ++ ": " ++ snd kv ++ str2 backslash "n"%char ++ quote ++ nl.

Definition serialize_comments (cs : option (list string)) : string :=
  match cs with
  | Some l => String.concat EmptyString (map (fun c => c ++ nl) l)
  | None => EmptyString
  end.

Definition serialize_entry (e : TranslationEntry) : string :=
  serialize_comments e.(comments)
  ++ "msgid " ++ quote ++ escapeString e.(msgid) ++ quote ++ nl
  ++ "msgstr " ++ quote ++ escapeString e.(msgstr) ++ quote ++ nl
  ++ nl.

Definition serialize (po : PoFile) : string :=
  "msgid " ++ quote ++ quote ++ nl
  ++ "msgstr " ++ quote ++ quote ++ nl
  ++ String.concat EmptyString (map serialize_header_field po.(header))
  ++ nl
  ++ String.concat EmptyString (map serialize_entry po.(entries)).

End PoParser.

(** ** JavaScript numbers and thrown values

    A [number] of the configuration is an integer or [NaN]; times are integer
    milliseconds; the adaptive delay, which the limiter multiplies by 0.95,
    is a rational.  Their arithmetic is exact: the rounding of doubles
    is modelled where the code divides, for the progress bar
    ([Doubles]). *)

Inductive number : Type :=
| NaN
| Num (z : Z).

(** [o || d] for an optional number: [undefined], [NaN] and 0 are falsy. *)
Definition num_or (o : option number) (d : Z) : Z :=
  match o with
  | Some (Num z) => if (z =? 0)%Z then d else z
  | _ => d
  end.

(** [o ?? d]: only [undefined] is replaced. *)
Definition nullish_or {A : Type} (o : option A) (d : A) : A :=
  match o with
  | Some a => a
  | None => d
  end.

(** A property of a thrown value that the limiter inspects. *)
Inductive jsval : Type :=
| VUndefined
| VNum (n : number)
| VStr (s : string).

Definition jsval_truthy (v : jsval) : bool :=
  match v with
  | VUndefined => false
  | VNum NaN => false
  | VNum (Num z) => negb (z =? 0)%Z
  | VStr s => negb (JsString.is_empty s)
  end.

(** A thrown value: an [Error] object, with the properties the orchestrator
    and the limiter read. *)
Record JsError : Type := mkError {
  message : option string;
  code : jsval;
  status : jsval;
  retryAfter : option number
}.

Module Config.

(** [TranslationConfig], without the credentials.  The three limits, read
    with [??], are integers when present. *)
Record t : Type := mk {
  provider : string;
  targetLanguage : string;
  batchSize : option number;
  delay : option number;
  maxRetries : option number;
  requestsPerMinute : option Z;
  requestsPerSecond : option Z;
  maxConcurrentRequests : option Z;
  adaptiveRateLimit : option bool
}.

End Config.

(** ** Doubles

    The numbers of the progress bar are doubles: [SpecFloat] is the
    standard library's binary64 arithmetic, round to nearest, ties to
    even. *)

Module Doubles.

Local Open Scope Z_scope.

Definition prec : Z := 53.
Definition emax : Z := 1024.

(** The double of an integer. *)
Definition of_Z (z : Z) : spec_float := binary_normalize prec emax z 0 false.

Definition div : spec_float -> spec_float -> spec_float := SFdiv prec emax.
Definition mul : spec_float -> spec_float -> spec_float := SFmul prec emax.
Definition sub : spec_float -> spec_float -> spec_float := SFsub prec emax.

Definition signed (s : bool) (m : positive) : Z :=
  if s then Z.neg m else Z.pos m.

(** [Math.floor].  The sign of a zero it gives is not kept: no use of it
    here tells the two zeros apart. *)
Definition floor (x : spec_float) : spec_float :=
  match x with
  | S754_finite s m e =>
      if 0 <=? e then x else of_Z (signed s m / 2 ^ (- e))
  | _ => x
  end.

(** [Math.round]: the integer nearest to [x], the larger one of two that
    are as near. *)
Definition round (x : spec_float) : spec_float :=
  match x with
  | S754_finite s m e =>
      if 0 <=? e then x
      else of_Z ((2 * signed s m + 2 ^ (- e)) / 2 ^ (- e + 1))
  | _ => x
  end.

(** The counts [String.prototype.repeat] throws a [RangeError] for: the
    count is made an integer by cutting its fraction, [NaN] counting as
    0, and must then be neither negative nor infinite. *)
Definition bad_count (x : spec_float) : bool :=
  match x with
  | S754_infinity _ => true
  | S754_finite true m e => if 0 <=? e then true else 2 ^ (- e) <=? Z.pos m
  | _ => false
  end.

End Doubles.

(** ** The rate limiter ([src/rate-limiter.ts]) *)

Module RateLimiter.

Import JsString.
Local Open Scope Z_scope.

Record RateLimitOptions : Type := mkOptions {
  o_requestsPerMinute : option Z;
  o_requestsPerSecond : option Z;
  o_maxConcurrentRequests : option Z
}.

Record t : Type := mk {
  requestTimes : list Z;
  activeRequests : Z;
  requestsPerMinute : Z;
  requestsPerSecond : Z;
  maxConcurrentRequests : Z;
  adaptiveMode : bool;
  baseDelay : Q;
  currentDelay : Q
}.

Definition getDefaultLimits (provider : string) : RateLimitOptions :=
  let p := toLowerCase provider in
  if String.eqb p "openai" then mkOptions (Some 3500) (Some 60) (Some 10)
  else if String.eqb p "anthropic" then mkOptions (Some 4000) (Some 50) (Some 5)
  else if String.eqb p "gemini" then mkOptions (Some 1500) (Some 15) (Some 5)
  else mkOptions (Some 1000) (Some 10) (Some 3).

(** [o || d] for an optional boolean: [undefined] and [false] are
    falsy. *)
Definition bool_or (o : option bool) (d : bool) : bool :=
  match o with
  | Some true => true
  | _ => d
  end.

(** The constructor. *)
Definition new (config : Config.t) : t :=
  let defaultLimits := getDefaultLimits (Config.provider config) in
  let base := inject_Z (num_or (Config.delay config) 1000) in
  mk []
     0
     (nullish_or (Config.requestsPerMinute config)
        (nullish_or (o_requestsPerMinute defaultLimits) 1000))
     (nullish_or (Config.requestsPerSecond config)
        (nullish_or (o_requestsPerSecond defaultLimits) 10))
     (nullish_or (Config.maxConcurrentRequests config)
        (nullish_or (o_maxConcurrentRequests defaultLimits) 3))
     (bool_or (Config.adaptiveRateLimit config) true)
     base
     base.

Definition releaseToken (l : t) : t :=
  mk (requestTimes l) (Z.max 0 (activeRequests l - 1))
     (requestsPerMinute l) (requestsPerSecond l) (maxConcurrentRequests l)
     (adaptiveMode l) (baseDelay l) (currentDelay l).

(** [error.code || error.status || 0]. *)
Definition errorCode (e : JsError) : jsval :=
  if jsval_truthy (code e) then code e
  else if jsval_truthy (status e) then status e
  else VNum (Num 0).

Definition is_429 (v : jsval) : bool :=
  match v with
  | VNum (Num z) => z =? 429
  | _ => false
  end.

Definition isRateLimitError (e : JsError) : bool :=
  let errorMessage :=
    match message e with
    | Some m => toLowerCase m
    | None => EmptyString
    end in
  is_429 (errorCode e)
  || includes "rate limit" errorMessage
  || includes "too many requests" errorMessage
  || includes "quota exceeded" errorMessage
  || includes "throttled" errorMessage.

(** [Math.floor(n * 0.8)] for an integer [n]. *)
Definition floor_times_08 (n : Z) : Z := (n * 8) / 10.

Definition tighten (l : t) : t :=
  mk (requestTimes l) (activeRequests l)
     (requestsPerMinute l) (requestsPerSecond l)
     (Z.max 1 (floor_times_08 (maxConcurrentRequests l)))
     (adaptiveMode l) (baseDelay l)
     (Qmin (currentDelay l * 2) 30000)%Q.

Definition handleRateLimit (e : JsError) (l : t) : t * bool :=
  let isRateLimit := isRateLimitError e in
  (if isRateLimit && adaptiveMode l then tighten l else l, isRateLimit).

Definition Qgtb (a b : Q) : bool := negb (Qle_bool a b).

(** The delays are rationals, and the product by 0.95 is exact: a double
    rounds it. *)
Definition handleSuccess (l : t) : t :=
  if adaptiveMode l && Qgtb (currentDelay l) (baseDelay l)
  then mk (requestTimes l) (activeRequests l)
         (requestsPerMinute l) (requestsPerSecond l)
         (maxConcurrentRequests l) (adaptiveMode l) (baseDelay l)
         (Qmax (baseDelay l) (currentDelay l * (95 # 100)))%Q
  else l.

(** [getStats] at time [now]. *)
Record Stats : Type := mkStats {
  s_currentDelay : Q;
  s_activeRequests : Z;
  s_maxConcurrentRequests : Z;
  s_requestsLastMinute : nat
}.

Definition within (now window : Z) (time : Z) : bool := now - time <? window.

Definition getStats (now : Z) (l : t) : Stats :=
  mkStats (currentDelay l) (activeRequests l) (maxConcurrentRequests l)
    (List.length (filter (within now 60000) (requestTimes l))).

(** *** [acquireToken] as a resumable computation

    [acquireToken] is an [async] function: it runs without interruption
    from one [await] to the next, and between two of them the other tasks
    of the event loop run.  [Pc] is the place where a call is suspended;
    [resume] runs it from there to its next [await] (or to its return) at
    clock reading [t], the value [Date.now()] gives meanwhile. *)

Inductive Pc : Type :=
| AtEntry
| SleepingForSlot (wake : Q)
| SleepingForMinute (now : Z) (wake : Q)
| SleepingForSecond (wake : Q)
| SleepingForDelay (wake : Q)
| Holding
| Released.

(** [window - (now - oldest)]; with no oldest request the difference is
    [NaN] and the timer fires without delay. *)
Definition wait_for (now window : Z) (oldest : option Z) : Z :=
  match oldest with
  | Some o => window - (now - o)
  | None => 0
  end.

Definition set_requestTimes (ts : list Z) (l : t) : t :=
  mk ts (activeRequests l) (requestsPerMinute l) (requestsPerSecond l)
     (maxConcurrentRequests l) (adaptiveMode l) (baseDelay l)
     (currentDelay l).

(** [this.activeRequests++; this.requestTimes.push(Date.now())]. *)
Definition commit (t0 : Z) (l : t) : t * Pc :=
  (mk (requestTimes l ++ [t0]) (activeRequests l + 1)
      (requestsPerMinute l) (requestsPerSecond l)
      (maxConcurrentRequests l) (adaptiveMode l) (baseDelay l)
      (currentDelay l),
   Holding).

Definition apply_delay (t0 : Z) (l : t) : t * Pc :=
  if Qgtb (currentDelay l) 0
  then (l, SleepingForDelay (inject_Z t0 + currentDelay l)%Q)
  else commit t0 l.

Definition check_second (now t0 : Z) (l : t) : t * Pc :=
  let recentRequests := filter (within now 1000) (requestTimes l) in
  if Z.of_nat (List.length recentRequests) >=? requestsPerSecond l
  then (l, SleepingForSecond
             (inject_Z (t0 + wait_for now 1000 (hd_error recentRequests))))
  else apply_delay t0 l.

Definition check_minute (t0 : Z) (l : t) : t * Pc :=
  let now := t0 in
  let l1 := set_requestTimes (filter (within now 60000) (requestTimes l)) l in
  if Z.of_nat (List.length (requestTimes l1)) >=? requestsPerMinute l1
  then (l1, SleepingForMinute now
              (inject_Z (t0 + wait_for now 60000 (hd_error (requestTimes l1)))))
  else check_second now t0 l1.

(** The [while] test, at the call and after each [sleep(100)]. *)
Definition enter (t0 : Z) (l : t) : t * Pc :=
  if activeRequests l >=? maxConcurrentRequests l
  then (l, SleepingForSlot (inject_Z (t0 + 100)))
  else check_minute t0 l.

Definition resume (t0 : Z) (pc : Pc) (l : t) : t * Pc :=
  match pc with
  | AtEntry | SleepingForSlot _ => enter t0 l
  | SleepingForMinute now _ => check_second now t0 l
  | SleepingForSecond _ => apply_delay t0 l
  | SleepingForDelay _ => commit t0 l
  | Holding | Released => (l, pc)
  end.

(** The clock reading when a call that sleeps runs again: a timer does
    not fire before the whole milliseconds of its delay have passed. *)
Definition not_before (pc : Pc) (t0 : Z) : Z :=
  match pc with
  | SleepingForSlot wake | SleepingForMinute _ wake
  | SleepingForSecond wake | SleepingForDelay wake =>
      Z.max t0 (Qfloor wake)
  | AtEntry | Holding | Released => t0
  end.

(** A timer does not fire before its delay has passed. *)
Definition ready (t0 : Z) (pc : Pc) : bool :=
  match pc with
  | AtEntry => true
  | SleepingForSlot wake | SleepingForMinute _ wake
  | SleepingForSecond wake | SleepingForDelay wake =>
      Qle_bool wake (inject_Z t0)
  | Holding | Released => false
  end.

(** The event loop: the clock, the limiter every task shares, and the
    calls of [acquireToken] in progress. *)
Record Loop : Type := mkLoop {
  clock : Z;
  limiter : t;
  tasks : list Pc
}.

Inductive Action : Type :=
| Tick (t' : Z)
| Run (i : nat)
| Release (i : nat).

Fixpoint set_nth {A : Type} (i : nat) (a : A) (l : list A) : list A :=
  match l, i with
  | [], _ => []
  | _ :: r, O => a :: r
  | x :: r, S k => x :: set_nth k a r
  end.

Definition act (a : Action) (w : Loop) : option Loop :=
  match a with
  | Tick t' =>
      if clock w <=? t' then Some (mkLoop t' (limiter w) (tasks w)) else None
  | Run i =>
      match nth_error (tasks w) i with
      | Some pc =>
          if ready (clock w) pc
          then let (l', pc') := resume (clock w) pc (limiter w) in
               Some (mkLoop (clock w) l' (set_nth i pc' (tasks w)))
          else None
      | None => None
      end
  | Release i =>
      match nth_error (tasks w) i with
      | Some Holding =>
          Some (mkLoop (clock w) (releaseToken (limiter w))
                  (set_nth i Released (tasks w)))
      | _ => None
      end
  end.

Fixpoint exec (acts : list Action) (w : Loop) : option Loop :=
  match acts with
  | [] => Some w
  | a :: r =>
      match act a w with
      | Some w' => exec r w'
      | None => None
      end
  end.

Definition is_holding (pc : Pc) : bool :=
  match pc with Holding => true | _ => false end.

(** The calls that have returned and not released their slot. *)
Definition holders (w : Loop) : Z :=
  Z.of_nat (List.length (filter is_holding (tasks w))).

End RateLimiter.

(** ** The orchestrator ([src/translator.ts]) *)

Module Translator.

Import JsString.
Local Open Scope Z_scope.

Record TranslationProgress : Type := mkProgress {
  total : Z;
  completed : Z;
  failed : Z;
  current : option string;
  rateLimitHits : option Z;
  averageDelay : option Z
}.

(** The fields of [Translator]: the object every task of a run shares. *)
Record t : Type := mk {
  config : Config.t;
  progress : TranslationProgress;
  rateLimiter : RateLimiter.t;
  poFile : PoFile;
  outputPath : string
}.

(** The constructor; [poFile] holds no catalog until [translateFile]
    assigns it. *)
Definition new (cfg : Config.t) : t :=
  mk cfg
     (mkProgress 0 0 0 None (Some 0) (Some (num_or (Config.delay cfg) 1000)))
     (RateLimiter.new cfg)
     (mkPoFile [] [])
     EmptyString.

(** The first statements of [translateFile]. *)
Definition load (po : PoFile) (path : string) (s : t) : t :=
  mk (config s) (progress s) (rateLimiter s) po path.

(** The filter of [translateFile]. *)
Definition needsTranslation (entry : TranslationEntry) : bool :=
  if is_empty (msgid entry) || is_empty (msgid entry) then false
  else if negb (is_empty (msgstr entry)) && negb (is_empty (msgstr entry))
          && negb (String.eqb (msgstr entry) (msgid entry))
       then false
       else true.

Definition entriesToTranslate (po : PoFile) : list TranslationEntry :=
  filter needsTranslation (entries po).

(** [this.config.batchSize || 10] and [this.config.maxRetries || 3]. *)
Definition batchSize_of (cfg : Config.t) : Z := num_or (Config.batchSize cfg) 10.
Definition maxRetries_of (cfg : Config.t) : Z := num_or (Config.maxRetries cfg) 3.

(** *** What a task does and what is done to it

    A task acts on the world outside the object through the capability
    calls, the waits of [this.sleep] and the writes of the output file:
    its [Event]s.  It is suspended at each [await], and the other tasks of
    the event loop run meanwhile. *)

Inductive Event : Type :=
| Translate (text targetLanguage context : string)
| Sleep (ms : Z)
| WriteFile (path content : string)
| WriteFailed (path : string).

(** The places where a task is suspended: inside [acquireToken], in its
    sleep number [turn]; at the [await] of the call of [acquireToken],
    when that has returned; and at the three other [await]s. *)
Inductive AwaitPoint : Type :=
| AwaitAcquire (turn : nat)
| AwaitAcquired
| AwaitTranslate
| AwaitWrite
| AwaitSleep.

(** The environment of one task.  In the attempt made after [n] failed
    ones: [outcome n] is what the capability answers; [now n i] is what
    [Date.now()] gives when [acquireToken] runs for the time number [i],
    at its call or after its sleep number [i]; [others n p] is what
    happens to the shared object while the task is suspended at [p].
    [write_error] is what [Bun.write] throws, if it does.  [patience] is
    the number of sleeps the task is followed through inside one call of
    [acquireToken]: a call that is asleep after that many is one that has
    not returned. *)
Record Env : Type := mkEnv {
  outcome : nat -> result JsError string;
  write_error : option JsError;
  now : nat -> nat -> Z;
  others : nat -> AwaitPoint -> t -> t;
  patience : nat
}.

(** The shared object and the events of the task so far, oldest first. *)
Record World : Type := mkWorld {
  self : t;
  events : list Event
}.

(** *** Computations that change the world, can throw and can stay
        suspended

    [None] is a computation that is still suspended: it has neither
    returned nor thrown. *)

Definition M (A : Type) : Type :=
  World -> World * option (result JsError A).

Definition ret {A : Type} (a : A) : M A := fun w => (w, Some (Ok a)).

Definition throw {A : Type} (e : JsError) : M A :=
  fun w => (w, Some (Throw e)).

Definition bind {A B : Type} (m : M A) (f : A -> M B) : M B :=
  fun w =>
    match m w with
    | (w', Some (Ok a)) => f a w'
    | (w', Some (Throw e)) => (w', Some (Throw e))
    | (w', None) => (w', None)
    end.

Definition get : M t := fun w => (w, Some (Ok (self w))).

Definition modify (f : t -> t) : M unit :=
  fun w => (mkWorld (f (self w)) (events w), Some (Ok tt)).

Definition emit (e : Event) : M unit :=
  fun w => (mkWorld (self w) (events w ++ [e]), Some (Ok tt)).

(** [try { m } catch (error) { h error }]. *)
Definition try_catch {A : Type} (m : M A) (h : JsError -> M A) : M A :=
  fun w =>
    match m w with
    | (w', Some (Ok a)) => (w', Some (Ok a))
    | (w', Some (Throw e)) => h e w'
    | (w', None) => (w', None)
    end.

(** [try { m } finally { f }]: [f] runs on every way out of [m]. *)
Definition try_finally {A : Type} (m : M A) (f : M unit) : M A :=
  fun w =>
    match m w with
    | (w', Some r) =>
        match f w' with
        | (w'', Some (Ok _)) => (w'', Some r)
        | (w'', Some (Throw e)) => (w'', Some (Throw e))
        | (w'', None) => (w'', None)
        end
    | (w', None) => (w', None)
    end.

Notation "x <- m ;; k" := (bind m (fun x => k))
  (at level 61, m at next level, right associativity).
Notation "m ;; k" := (bind m (fun _ => k))
  (at level 61, right associativity).

(** *** Updates of the fields *)

Definition with_progress (f : TranslationProgress -> TranslationProgress)
    (s : t) : t :=
  mk (config s) (f (progress s)) (rateLimiter s) (poFile s) (outputPath s).

Definition with_limiter (f : RateLimiter.t -> RateLimiter.t) (s : t) : t :=
  mk (config s) (progress s) (f (rateLimiter s)) (poFile s) (outputPath s).

Definition set_current (c : string) (p : TranslationProgress) :=
  mkProgress (total p) (completed p) (failed p) (Some c) (rateLimitHits p)
    (averageDelay p).

Definition incr_completed (p : TranslationProgress) :=
  mkProgress (total p) (completed p + 1) (failed p) (current p)
    (rateLimitHits p) (averageDelay p).

Definition incr_failed (p : TranslationProgress) :=
  mkProgress (total p) (completed p) (failed p + 1) (current p)
    (rateLimitHits p) (averageDelay p).

(** [(this.progress.rateLimitHits || 0) + 1]. *)
Definition incr_rateLimitHits (p : TranslationProgress) :=
  mkProgress (total p) (completed p) (failed p) (current p)
    (Some (match rateLimitHits p with
           | Some h => h + 1
           | None => 1
           end))
    (averageDelay p).

(** An entry is an object of [poFile.entries], shared with the filtered
    array: a task holds it by its index [k] there. *)
Definition no_entry : TranslationEntry :=
  mkEntry EmptyString EmptyString None None.

Definition entry_at (k : nat) (s : t) : TranslationEntry :=
  nth k (entries (poFile s)) no_entry.

Definition set_msgstr_entry (v : string) (e : TranslationEntry) :=
  mkEntry (msgid e) v (comments e) (line e).

Fixpoint update_nth {A : Type} (k : nat) (f : A -> A) (l : list A) : list A :=
  match l, k with
  | [], _ => []
  | x :: r, O => f x :: r
  | x :: r, S k' => x :: update_nth k' f r
  end.

(** [entry.msgstr = v]. *)
Definition set_msgstr (k : nat) (v : string) (s : t) : t :=
  mk (config s) (progress s) (rateLimiter s)
     (mkPoFile (header (poFile s))
        (update_nth k (set_msgstr_entry v) (entries (poFile s))))
     (outputPath s).

(** *** The operations [translateEntry] calls *)

(** [await]: the task is suspended and resumes in the object the others
    have left. *)
Definition await (env : Env) (n : nat) (p : AwaitPoint) : M unit :=
  modify (others env n p).

(** [Math.round((completed / total) * 100)]. *)
Definition percent (completed total : Z) : spec_float :=
  Doubles.round
    (Doubles.mul
       (Doubles.div (Doubles.of_Z completed) (Doubles.of_Z total))
       (Doubles.of_Z 100)).

(** The bar of [printProgress] cannot be drawn: one of its two [repeat]
    calls, of [Math.floor(percent / 5)] and of 20 less that, throws. *)
Definition cannot_draw (completed total : Z) : bool :=
  let filled :=
    Doubles.floor (Doubles.div (percent completed total) (Doubles.of_Z 5)) in
  Doubles.bad_count filled
  || Doubles.bad_count (Doubles.sub (Doubles.of_Z 20) filled).

Definition bar_fails (p : TranslationProgress) : bool :=
  cannot_draw (completed p) (total p).

(** The [RangeError] of [String.prototype.repeat], with the message of
    the engine of Bun. *)
Definition range_error : JsError :=
  mkError
    (Some "String.prototype.repeat argument must be greater than or equal to 0 and not be Infinity"%string)
    VUndefined VUndefined None.

(** [printProgress] writes to the terminal, when the bar can be drawn. *)
Definition printProgress : M unit :=
  s <- get ;;
  if bar_fails (progress s) then throw range_error else ret tt.

(** A call of [acquireToken] in attempt [n], from the place [pc] where
    it is, at its call or after its sleep number [turn]: it runs to its
    return or to its next sleep ([RateLimiter.resume]), and there the
    other tasks run. *)
Fixpoint acquire (env : Env) (n : nat) (fuel turn : nat) (pc : RateLimiter.Pc)
    : M unit :=
  fun w =>
    let t0 := RateLimiter.not_before pc (now env n turn) in
    let (l, pc') := RateLimiter.resume t0 pc (rateLimiter (self w)) in
    let w1 := mkWorld (with_limiter (fun _ => l) (self w)) (events w) in
    if RateLimiter.is_holding pc' then (w1, Some (Ok tt))
    else match fuel with
         | O => (w1, None)
         | S fuel' =>
             acquire env n fuel' (S turn) pc'
               (mkWorld (others env n (AwaitAcquire turn) (self w1))
                  (events w1))
         end.

(** [await this.rateLimiter.acquireToken()]. *)
Definition acquireToken (env : Env) (n : nat) : M unit :=
  acquire env n (patience env) 0 RateLimiter.AtEntry ;;
  await env n AwaitAcquired.

Definition releaseToken : M unit :=
  modify (with_limiter RateLimiter.releaseToken).

Definition handleSuccess : M unit :=
  modify (with_limiter RateLimiter.handleSuccess).

Definition handleRateLimit (error : JsError) : M bool :=
  s <- get ;;
  modify (with_limiter
            (fun _ => fst (RateLimiter.handleRateLimit error (rateLimiter s)))) ;;
  ret (snd (RateLimiter.handleRateLimit error (rateLimiter s))).

(** [await this.provider.translate(text, lang, context)]. *)
Definition provider_translate (env : Env) (n : nat)
    (text lang context : string) : M string :=
  emit (Translate text lang context) ;;
  await env n AwaitTranslate ;;
  fun w => (w, Some (outcome env n)).

(** [await this.sleep(ms)]. *)
Definition sleep (env : Env) (n : nat) (ms : Z) : M unit :=
  emit (Sleep ms) ;;
  await env n AwaitSleep.

(** [await Bun.write(path, content)]. *)
Definition bun_write (env : Env) (n : nat) (path content : string) : M unit :=
  match write_error env with
  | None => emit (WriteFile path content) ;; await env n AwaitWrite
  | Some e =>
      emit (WriteFailed path) ;; await env n AwaitWrite ;; throw e
  end.

(** The two [try { serialize; write } catch (e) { console.error }]
    blocks. *)
Definition save (env : Env) (n : nat) : M unit :=
  try_catch
    (s <- get ;;
     bun_write env n (outputPath s) (PoParser.serialize (poFile s)))
    (fun _ => ret tt).

(** [entry.comments?.join(" ") || EmptyString]. *)
Definition context_of (entry : TranslationEntry) : string :=
  match comments entry with
  | Some l => join " " l
  | None => EmptyString
  end.

(** The value of an optional number when it is truthy. *)
Definition number_truthy (n : option number) : option Z :=
  match n with
  | Some (Num z) => if z =? 0 then None else Some z
  | _ => None
  end.

(** [rateLimitError.retryAfter || 5000 * Math.pow(2, retries)]. *)
Definition waitTime (error : JsError) (retries : nat) : Z :=
  match number_truthy (retryAfter error) with
  | Some z => z
  | None => 5000 * 2 ^ Z.of_nat retries
  end.

(** How one iteration of the [while] loop ends. *)
Inductive Flow : Type :=
| Return
| Next (retries : nat).

(** The [try] block of the body of the [while] loop of
    [translateEntry]. *)
Definition try_block (env : Env) (k : nat) (retries : nat) : M Flow :=
  s <- get ;;
  modify (with_progress (set_current (msgid (entry_at k s)))) ;;
  printProgress ;;
  acquireToken env retries ;;
  try_finally
    (s <- get ;;
     translatedText <-
       provider_translate env retries (msgid (entry_at k s))
         (Config.targetLanguage (config s)) (context_of (entry_at k s)) ;;
     modify (set_msgstr k translatedText) ;;
     modify (with_progress incr_completed) ;;
     handleSuccess ;;
     printProgress ;;
     save env retries ;;
     ret Return)
    releaseToken.

(** Its [catch] block. *)
Definition catch_block (env : Env) (k : nat) (maxRetries : Z) (retries : nat)
    (error : JsError) : M Flow :=
  releaseToken ;;
  isRateLimit <- handleRateLimit error ;;
  if isRateLimit : bool
  then
    modify (with_progress incr_rateLimitHits) ;;
    sleep env retries (waitTime error retries) ;;
    ret (Next (S retries))
  else
    let retries' := S retries in
    if Z.of_nat retries' <? maxRetries
    then
      sleep env retries (2000 * Z.of_nat retries') ;;
      ret (Next retries')
    else
      s <- get ;;
      modify (set_msgstr k (msgid (entry_at k s))) ;;
      modify (with_progress incr_failed) ;;
      save env retries ;;
      ret Return.

(** The body of the [while] loop. *)
Definition attempt (env : Env) (k : nat) (maxRetries : Z) (retries : nat)
    : M Flow :=
  try_catch (try_block env k retries) (catch_block env k maxRetries retries).

(** How a promise stands. *)
Inductive Settled : Type :=
| Fulfilled
| Rejected (e : JsError)
| Pending.

(** [while (retries < maxRetries)]: [fuel] bounds the iterations run, and
    a loop cut short leaves the promise [Pending], as does an iteration
    that stays suspended. *)
Fixpoint loop (env : Env) (k : nat) (maxRetries : Z) (fuel retries : nat)
    (w : World) : World * Settled :=
  if Z.of_nat retries <? maxRetries
  then match fuel with
       | O => (w, Pending)
       | S fuel' =>
           match attempt env k maxRetries retries w with
           | (w', Some (Ok Return)) => (w', Fulfilled)
           | (w', Some (Ok (Next retries'))) =>
               loop env k maxRetries fuel' retries' w'
           | (w', Some (Throw e)) => (w', Rejected e)
           | (w', None) => (w', Pending)
           end
       end
  else (w, Fulfilled).

Definition translateEntry (env : Env) (k : nat) (w : World) : World * Settled :=
  let maxRetries := maxRetries_of (config (self w)) in
  loop env k maxRetries (Z.to_nat maxRetries) 0 w.

(** [Promise.allSettled]: fulfilled once no promise is pending, whatever
    the promises settled to. *)
Definition is_pending (r : Settled) : bool :=
  match r with Pending => true | _ => false end.

Definition allSettled (rs : list Settled) : Settled :=
  if existsb is_pending rs then Pending else Fulfilled.

(** The tasks [translateBatch] starts, one for each entry [k] with its
    environment [envs k], and what each promise settles to.  The tasks are
    laid out one after the other; what they do to each other while
    suspended is in their environments. *)
Fixpoint run_tasks (envs : nat -> Env) (ks : list nat) (w : World)
    : World * list Settled :=
  match ks with
  | [] => (w, [])
  | k :: r =>
      let (w1, r1) := translateEntry (envs k) k w in
      let (w2, rs) := run_tasks envs r w1 in
      (w2, r1 :: rs)
  end.

Definition translateBatch (envs : nat -> Env) (ks : list nat) (w : World)
    : World * Settled :=
  let (w', rs) := run_tasks envs ks w in
  (w', allSettled rs).

End Translator.

(** ** The command line ([src/translate.ts]) *)

Module Cli.

Import JsString.
Local Open Scope string_scope.

(** What [parseArgs] returns: a property is present when its flag was
    given. *)
Record Options : Type := mkOptions {
  provider : option string;
  language : option string;
  batchSize : option number;
  delay : option number;
  maxRetries : option number;
  requestsPerMinute : option Z;
  requestsPerSecond : option Z;
  maxConcurrentRequests : option Z;
  adaptiveRateLimit : option bool
}.

Module DEFAULT_CONFIG.
Definition provider : string := "openai".
Definition targetLanguage : string := "Portuguese (Brazil)".
Definition batchSize : Z := 10.
Definition delay : Z := 1000.
Definition maxRetries : Z := 3.
End DEFAULT_CONFIG.

(** [o || d] for an optional string. *)
Definition str_or (o : option string) (d : string) : string :=
  match o with
  | Some s => if is_empty s then d else s
  | None => d
  end.

(** The [config] object [main] assembles. *)
Definition config_of (options : Options) : Config.t :=
  Config.mk
    (str_or (provider options) DEFAULT_CONFIG.provider)
    (str_or (language options) DEFAULT_CONFIG.targetLanguage)
    (Some (Num (num_or (batchSize options) DEFAULT_CONFIG.batchSize)))
    (Some (Num (num_or (delay options) DEFAULT_CONFIG.delay)))
    (Some (Num (num_or (maxRetries options) DEFAULT_CONFIG.maxRetries)))
    (requestsPerMinute options)
    (requestsPerSecond options)
    (maxConcurrentRequests options)
    (Some (nullish_or (adaptiveRateLimit options) true)).

End Cli.

(** ** Sequences of limiter calls *)

Module Calls.

Inductive Call : Type :=
| HandleRateLimit (error : JsError)
| HandleSuccess.

Definition call (c : Call) (l : RateLimiter.t) : RateLimiter.t :=
  match c with
  | HandleRateLimit error => fst (RateLimiter.handleRateLimit error l)
  | HandleSuccess => RateLimiter.handleSuccess l
  end.

Definition run (cs : list Call) (l : RateLimiter.t) : RateLimiter.t :=
  fold_left (fun l c => call c l) cs l.

(** The invariant behind the adaptive bounds. *)
Definition bounded (l : RateLimiter.t) : Prop :=
  (0 < RateLimiter.baseDelay l)%Q
  /\ (RateLimiter.baseDelay l <= RateLimiter.currentDelay l)%Q
  /\ (RateLimiter.currentDelay l <= 30000)%Q
  /\ (1 <= RateLimiter.maxConcurrentRequests l)%Z.

End Calls.

(** ** The loop of [parse] as a fold over the lines *)

Module PoParserFold.

Import PoParser.

Fixpoint parse_lines (i : nat) (ls : list string) (st : PState) : PState :=
  match ls with
  | [] => st
  | raw :: r => parse_lines (S i) r (parse_line i raw st)
  end.

(** Every retained entry has a source id. *)
Definition retained_ok (es : list TranslationEntry) : Prop :=
  Forall (fun e => msgid e <> EmptyString) es.

End PoParserFold.

(** ** Runs of one task *)

Module Runs.

Import Translator.

(** A task that nothing interferes with while it is suspended. *)
Definition quiet (env : Env) : Prop :=
  forall (n : nat) (p : AwaitPoint) (s : t), others env n p s = s.

Definition is_write (ev : Event) : bool :=
  match ev with
  | WriteFile _ _ | WriteFailed _ => true
  | _ => false
  end.

(** The event of the write [save] attempts. *)
Definition written (env : Env) (s : t) : Event :=
  match write_error env with
  | None => WriteFile (outputPath s) (PoParser.serialize (poFile s))
  | Some _ => WriteFailed (outputPath s)
  end.

(** The catalog after [entry.msgstr = entry.msgid] on entry [k]. *)
Definition copied_through (k : nat) (s : t) : PoFile :=
  poFile (set_msgstr k (msgid (entry_at k s)) s).

End Runs.

(** ** Catalogs that a round trip keeps *)

Module WellFormed.

Import JsString.
Local Open Scope string_scope.

Fixpoint has_char (c : ascii) (s : string) : bool :=
  match s with
  | EmptyString => false
  | String d r => Ascii.eqb d c || has_char c r
  end.

(** The code unit at the head of [s], if any, is neither the letter n nor
    the letter t. *)
Definition next_ok (s : string) : bool :=
  match s with
  | String d _ => negb (Ascii.eqb d "n"%char || Ascii.eqb d "t"%char)
  | EmptyString => true
  end.

(** No backslash is followed by the letter n or the letter t. *)
Fixpoint plain_backslashes (s : string) : bool :=
  match s with
  | EmptyString => true
  | String c r =>
      (if Ascii.eqb c backslash then next_ok r else true)
      && plain_backslashes r
  end.

(** A comment as [parse] keeps it: one trimmed line that starts with the
    comment marker. *)
Definition comment_ok (c : string) : Prop :=
  startsWith "#" c = true /\ trim c = c /\ has_char newline c = false.

Definition comments_ok (cs : option (list string)) : Prop :=
  match cs with
  | None => True
  | Some l => l <> [] /\ Forall comment_ok l
  end.

Definition entry_ok (e : TranslationEntry) : Prop :=
  msgid e <> EmptyString
  /\ plain_backslashes (msgid e) = true
  /\ plain_backslashes (msgstr e) = true
  /\ comments_ok (comments e).

Definition header_ok (h : Header) : Prop :=
  Forall (fun kv => has_char newline (fst kv) = false
                    /\ has_char newline (snd kv) = false) h.

(** What the round trip is to keep of an entry: all but the line number. *)
Definition content (e : TranslationEntry)
    : string * string * option (list string) :=
  (msgid e, msgstr e, comments e).

End WellFormed.

(** ** The string codec, code unit by code unit *)

Module Escapes.

Import JsString.
Local Open Scope string_scope.

(** [flat f s]: the images of the code units of [s], in order. *)
Fixpoint flat (f : ascii -> string) (s : string) : string :=
  match s with
  | EmptyString => EmptyString
  | String c r => f c ++ flat f r
  end.

(** What [escapeString] writes for one code unit, and what is left of it
    after each [replace] of [parseString]. *)
Definition img0 (c : ascii) : string :=
  if Ascii.eqb c backslash then str2 backslash backslash
  else if Ascii.eqb c dquote then str2 backslash dquote
  else if Ascii.eqb c newline then str2 backslash "n"%char
  else if Ascii.eqb c tab then str2 backslash "t"%char
  else str1 c.

Definition img1 (c : ascii) : string :=
  if Ascii.eqb c backslash then str2 backslash backslash
  else if Ascii.eqb c dquote then str2 backslash dquote
  else if Ascii.eqb c tab then str2 backslash "t"%char
  else str1 c.

Definition img2 (c : ascii) : string :=
  if Ascii.eqb c backslash then str2 backslash backslash
  else if Ascii.eqb c dquote then str2 backslash dquote
  else str1 c.

Definition img3 (c : ascii) : string :=
  if Ascii.eqb c backslash then str2 backslash backslash
  else str1 c.

End Escapes.

(** ** The text of a catalog, line by line *)

Module Lines.

Import JsString PoParser.
Local Open Scope string_scope.

(** The text whose lines are [ls], each ended by a line feed. *)
Fixpoint unlines (ls : list string) : string :=
  match ls with
  | [] => EmptyString
  | l :: r => l ++ String newline (unlines r)
  end.

(** The lines [serialize] writes. *)
Definition header_line (kv : string * string) : string :=
  quote ++ fst kv ++ ": " ++ snd kv ++ str2 backslash "n"%char ++ quote.

Definition msgid_line (s : string) : string :=
  "msgid " ++ quote ++ escapeString s ++ quote.

Definition msgstr_line (s : string) : string :=
  "msgstr " ++ quote ++ escapeString s ++ quote.

Definition comment_lines (cs : option (list string)) : list string :=
  match cs with
  | Some l => l
  | None => []
  end.

Definition entry_lines (e : TranslationEntry) : list string :=
  comment_lines (comments e)
  ++ [msgid_line (msgid e); msgstr_line (msgstr e); EmptyString].

Definition file_lines (po : PoFile) : list string :=
  ["msgid " ++ quote ++ quote; "msgstr " ++ quote ++ quote]
  ++ map header_line (header po)
  ++ [EmptyString]
  ++ flat_map entry_lines (entries po).

(** The state of the parser between two entries, with [es] retained. *)
Definition between (es : list TranslationEntry) (st : PState) : Prop :=
  st_entries st = es
  /\ p_msgid (st_current st) = None
  /\ st_comments st = []
  /\ st_isHeader st = false
  /\ st_inMsgid st = false.

(** The parser while it collects the comments of an entry. *)
Definition collecting (es : list TranslationEntry) (cs : list string)
    (st : PState) : Prop :=
  st_entries st = es
  /\ p_msgid (st_current st) = None
  /\ st_comments st = cs
  /\ st_isHeader st = false.

End Lines.

(** ** The words of the specification *)

Module Spec.

Local Open Scope Z_scope.

(** Section 3: an entry is pending iff its translation is empty or
    identical to its source id; section 4.3: it is selected iff its source
    id is non-empty and it is pending. *)
Definition pending (e : TranslationEntry) : Prop :=
  msgstr e = EmptyString \/ msgstr e = msgid e.

Definition selected (e : TranslationEntry) : Prop :=
  msgid e <> EmptyString /\ pending e.

(** Section 4.1: a line that is none of blank, comment, source-text field,
    translation field and quoted continuation. *)
Definition matches_no_production (l : string) : Prop :=
  l <> EmptyString
  /\ JsString.startsWith "#" l = false
  /\ JsString.startsWith "msgid " l = false
  /\ JsString.startsWith "msgstr " l = false
  /\ (JsString.startsWith PoParser.quote l
      && JsString.endsWith PoParser.quote l) = false.

(** Section 8, adaptive bounds. *)
Definition within_bounds (l : RateLimiter.t) : Prop :=
  (RateLimiter.currentDelay l <= 30000)%Q
  /\ 1 <= RateLimiter.maxConcurrentRequests l
  /\ (RateLimiter.baseDelay l <= RateLimiter.currentDelay l)%Q.

(** Section 4.3, step 4: the two waits. *)
Definition throttle_wait (retry_after : option Z) (attempt : Z) : Z :=
  match retry_after with
  | Some r => r
  | None => 5000 * 2 ^ attempt
  end.

Definition generic_wait (attempt : Z) : Z := 2000 * attempt.

End Spec.

(** ** Concrete inputs *)

Module Inputs.

Import JsString.
Local Open Scope string_scope.
Local Open Scope Z_scope.

Definition catalog_with_header : PoFile :=
  mkPoFile [("Language", "pt")] [mkEntry "Hello" "Ola" None None].

Definition catalog_with_backslash : PoFile :=
  mkPoFile [] [mkEntry (String backslash "new") "x" None None].

Definition no_options : Cli.Options :=
  Cli.mkOptions None None None None None None None None None.

Definition options_no_adaptive : Cli.Options :=
  Cli.mkOptions None None None None None None None None (Some false).

Definition options_delay_60000 : Cli.Options :=
  Cli.mkOptions None None None (Some (Num 60000)) None None None None None.

Definition options_delay_negative : Cli.Options :=
  Cli.mkOptions None None None (Some (Num (-5))) None None None None None.

Definition options_max_concurrent_0 : Cli.Options :=
  Cli.mkOptions None None None None None None None (Some 0) None.

Definition options_max_concurrent_1 : Cli.Options :=
  Cli.mkOptions None None None None None None None (Some 1) None.

Definition options_zeros : Cli.Options :=
  Cli.mkOptions None None (Some (Num 0)) (Some (Num 0)) (Some (Num 0))
    None None None None.

Definition config_zeros : Config.t :=
  Config.mk "openai" "pt" (Some (Num 0)) (Some (Num 0)) (Some (Num 0))
    None None None None.

(** The errors the providers throw. *)
Definition too_many_requests : JsError :=
  mkError (Some "Rate limit exceeded: Too Many Requests")
    VUndefined VUndefined None.

Definition empty_response : JsError :=
  mkError (Some "Empty response from OpenAI") VUndefined VUndefined None.

Definition retry_after_0 : JsError :=
  mkError (Some "Rate limit exceeded: Too Many Requests")
    VUndefined VUndefined (Some (Num 0)).

Definition one_pending_entry : PoFile :=
  mkPoFile [] [mkEntry "Hello" EmptyString None None].

Definition start : Translator.World :=
  Translator.mkWorld
    (Translator.load one_pending_entry "out.po"
       (Translator.new (Cli.config_of no_options)))
    [].

(** A task that runs alone: nothing happens to the object while it is
    suspended. *)
Definition alone (outcome : nat -> result JsError string) : Translator.Env :=
  Translator.mkEnv outcome None (fun _ _ => 0) (fun _ _ s => s) 3.

Definition always_throttled : Translator.Env :=
  alone (fun _ => Throw too_many_requests).

Definition always_failing : Translator.Env :=
  alone (fun _ => Throw empty_response).

Definition throttled_retry_after_0 : Translator.Env :=
  alone (fun _ => Throw retry_after_0).

(** Two calls of [acquireToken] made in the same turn of the event loop, as
    [translateBatch] makes them for a batch of two entries. *)
Definition two_calls : RateLimiter.Loop :=
  RateLimiter.mkLoop 0
    (RateLimiter.new (Cli.config_of options_max_concurrent_1))
    [RateLimiter.AtEntry; RateLimiter.AtEntry].

Definition both_run : list RateLimiter.Action :=
  [RateLimiter.Run 0; RateLimiter.Run 1; RateLimiter.Tick 1000;
   RateLimiter.Run 0; RateLimiter.Run 1].

End Inputs.

(** ** What a task does to the shared object *)

Module Slots.

Import Translator.

(** The in-flight count of the limiter the tasks share, and its
    ceiling. *)
Definition active (w : World) : Z :=
  RateLimiter.activeRequests (rateLimiter (self w)).

Definition ceiling (w : World) : Z :=
  RateLimiter.maxConcurrentRequests (rateLimiter (self w)).

(** What a call of [acquireToken] that returns has done to the limiter,
    the recorded times apart. *)
Definition took_slot (l l' : RateLimiter.t) : Prop :=
  RateLimiter.activeRequests l' = (RateLimiter.activeRequests l + 1)%Z
  /\ RateLimiter.maxConcurrentRequests l' = RateLimiter.maxConcurrentRequests l
  /\ RateLimiter.adaptiveMode l' = RateLimiter.adaptiveMode l
  /\ RateLimiter.baseDelay l' = RateLimiter.baseDelay l
  /\ RateLimiter.currentDelay l' = RateLimiter.currentDelay l
  /\ RateLimiter.requestsPerMinute l' = RateLimiter.requestsPerMinute l
  /\ RateLimiter.requestsPerSecond l' = RateLimiter.requestsPerSecond l.

(** The world with the limiter [l]. *)
Definition with_the_limiter (l : RateLimiter.t) (w : World) : World :=
  mkWorld (with_limiter (fun _ => l) (self w)) (events w).

End Slots.

(** ** Where a run stands *)

Module Siblings.

Import Translator.

(** The capability fails in each of the first [j] attempts and answers
    [text] in the next one. *)
Definition answers_after (j : nat) (text : string) (env : Env) : Prop :=
  (forall n : nat, (n < j)%nat -> exists e, outcome env n = Throw e)
  /\ outcome env j = Ok text.

(** Entry [i] holds its answer. *)
Definition answered (answer : nat -> string) (s0 s : t) (i : nat) : Prop :=
  entry_at i s = set_msgstr_entry (answer i) (entry_at i s0).

(** Where the catalog of a run stands: against the object [s0] the run
    started in, an entry is as it was or holds its answer, and the
    entries of [done] hold theirs. *)
Definition progressed (ks : list nat) (answer : nat -> string) (s0 : t)
    (done : list nat) (s : t) : Prop :=
  config s = config s0
  /\ outputPath s = outputPath s0
  /\ header (poFile s) = header (poFile s0)
  /\ List.length (entries (poFile s)) = List.length (entries (poFile s0))
  /\ (forall i : nat,
         entry_at i s = entry_at i s0
         \/ (In i ks /\ answered answer s0 s i))
  /\ (forall i : nat, In i done -> answered answer s0 s i).

(** Where the counts and the limiter of a run of tasks that do not
    overlap stand when the tasks of [done] have run, each answered within
    the budget: the total is [n], each task has counted its entry, none
    has failed, and no request is in flight. *)
Definition on_course (n : nat) (s0 : t) (done : list nat) (s : t) : Prop :=
  total (progress s) = Z.of_nat n
  /\ completed (progress s)
     = (completed (progress s0) + Z.of_nat (List.length done))%Z
  /\ failed (progress s) = failed (progress s0)
  /\ (RateLimiter.activeRequests (rateLimiter s) <= 0)%Z
  /\ (1 <= RateLimiter.maxConcurrentRequests (rateLimiter s))%Z.

(** What is asked of the task of entry [k] in a run started in [s0]: the
    entry exists, the task runs alone and is followed through three
    sleeps of each call of [acquireToken], and the capability answers
    [answer k] after [tries k] failed attempts, within the budget. *)
Definition answered_alone (answer : nat -> string) (s0 : t)
    (envs : nat -> Env) (tries : nat -> nat) (k : nat) : Prop :=
  (k < List.length (entries (poFile s0)))%nat
  /\ Runs.quiet (envs k)
  /\ (3 <= patience (envs k))%nat
  /\ answers_after (tries k) (answer k) (envs k)
  /\ (Z.of_nat (tries k) < maxRetries_of (config s0))%Z.

(** The progress bar can be drawn for each count from [completed] to
    [n] more. *)
Definition drawable (completed : Z) (n : nat) : Prop :=
  forall j : nat,
    (j <= n)%nat ->
    cannot_draw (completed + Z.of_nat j) (Z.of_nat n) = false.

End Siblings.

(** ** The events of a run *)

Module Events.

Import Translator.

Definition is_call (ev : Event) : bool :=
  match ev with
  | Translate _ _ _ => true
  | _ => false
  end.

(** The number of calls of the capability among the events. *)
Definition calls (evs : list Event) : nat := List.length (filter is_call evs).

End Events.

(** ** [translateFile] ([src/translator.ts]) *)

Module Files.

Import Translator.
Local Open Scope Z_scope.

(** [l.slice(start, stop)] for integer arguments: a negative index counts
    from the end, and both are clamped to the array. *)
Definition slice {A : Type} (start stop : Z) (l : list A) : list A :=
  let len := Z.of_nat (List.length l) in
  let k := if start <? 0 then Z.max (len + start) 0 else Z.min start len in
  let final := if stop <? 0 then Z.max (len + stop) 0 else Z.min stop len in
  firstn (Z.to_nat (final - k)) (skipn (Z.to_nat k) l).

(** The entries the filter keeps, as places in [poFile.entries]: the
    filtered array holds the entry objects of the catalog themselves. *)
Definition indicesToTranslate (po : PoFile) : list nat :=
  filter (fun k => needsTranslation (nth k (entries po) no_entry))
    (seq 0 (List.length (entries po))).

Definition set_total (n : Z) (p : TranslationProgress) : TranslationProgress :=
  mkProgress n (completed p) (failed p) (current p) (rateLimitHits p)
    (averageDelay p).

(** [for (let i = 0; i < entriesToTranslate.length; i += batchSize)],
    without the awaits: the batches in the order they are made.  [fuel]
    bounds the iterations, and [None] is a loop cut short. *)
Fixpoint batches {A : Type} (batchSize : Z) (l : list A) (fuel : nat) (i : Z)
    : option (list (list A)) :=
  if i <? Z.of_nat (List.length l)
  then match fuel with
       | O => None
       | S fuel' =>
           match batches batchSize l fuel' (i + batchSize) with
           | Some bs => Some (slice i (i + batchSize) l :: bs)
           | None => None
           end
       end
  else Some [].

(** The same loop with [await this.translateBatch(batch)] in it. *)
Fixpoint batch_loop (envs : nat -> Env) (batchSize : Z) (ks : list nat)
    (fuel : nat) (i : Z) (w : World) : World * Settled :=
  if i <? Z.of_nat (List.length ks)
  then match fuel with
       | O => (w, Pending)
       | S fuel' =>
           match translateBatch envs (slice i (i + batchSize) ks) w with
           | (w', Fulfilled) =>
               batch_loop envs batchSize ks fuel' (i + batchSize) w'
           | (w', r) => (w', r)
           end
       end
  else (w, Fulfilled).

(** What [parse] would reject with.  [parse] returns for every text, so
    nothing depends on the message, which is the engine's. *)
Definition error_of_parse (e : PoParser.ParseError) : JsError :=
  mkError (Some "TypeError"%string) VUndefined VUndefined None.

(** [await Bun.write(this.outputPath, translatedContent)] at the end of
    [translateFile], outside any [try]. *)
Definition final_write (error : option JsError) (w : World) : World * Settled :=
  match error with
  | None =>
      (mkWorld (self w)
         (events w ++ [WriteFile (outputPath (self w))
                         (PoParser.serialize (poFile (self w)))]),
       Fulfilled)
  | Some e =>
      (mkWorld (self w) (events w ++ [WriteFailed (outputPath (self w))]),
       Rejected e)
  end.

(** [translateFile]: [read] is what [await file.text()] gives, [envs k]
    the environment of the task of entry [k], and [write_error] what the
    last write throws, if it does. *)
Definition translateFile (read : result JsError string) (envs : nat -> Env)
    (write_error : option JsError) (output : string) (fuel : nat)
    (w : World) : World * Settled :=
  match read with
  | Throw e => (w, Rejected e)
  | Ok content =>
      match PoParser.parse content with
      | Throw e => (w, Rejected (error_of_parse e))
      | Ok po =>
          let ks := indicesToTranslate po in
          let w1 :=
            mkWorld
              (with_progress (set_total (Z.of_nat (List.length ks)))
                 (load po output (self w)))
              (events w) in
          if (Z.of_nat (List.length ks) =? 0)
          then (w1, Fulfilled)
          else
            match batch_loop envs (batchSize_of (config (self w1))) ks fuel 0 w1
            with
            | (w2, Fulfilled) => final_write write_error w2
            | (w2, r) => (w2, r)
            end
      end
  end.

End Files.

(** ** Calls of [acquireToken] that wait for a slot *)

Module Waiting.

Import RateLimiter.

(** The call has not passed the test of the in-flight count. *)
Definition for_slot (pc : Pc) : bool :=
  match pc with
  | AtEntry | SleepingForSlot _ => true
  | _ => false
  end.

End Waiting.

(** ** The lines of a text, as [parse] reads them *)

Module Text.

Import JsString PoParser.

(** A line [parse] takes for blank. *)
Definition is_blank (raw : string) : bool := is_empty (trim raw).

Definition blank_lines (ls : list string) : nat :=
  List.length (filter is_blank ls).

(** The text starts with the letter n. *)
Definition starts_n (s : string) : bool :=
  match s with
  | String c _ => Ascii.eqb c "n"%char
  | EmptyString => false
  end.

(** The two code units at which [parseHeader] splits its argument. *)
Definition backslash_n : string := str2 backslash "n"%char.

(** [n] is the number, from 1, of a line of [ls] that holds a source
    id. *)
Definition msgid_line_at (ls : list string) (n : nat) : Prop :=
  (1 <= n <= List.length ls)%nat
  /\ classify (trim (nth (n - 1) ls EmptyString)) = MsgidLine.

(** Entry [a] was read above entry [b]. *)
Definition line_lt (a b : TranslationEntry) : Prop :=
  match line a, line b with
  | Some x, Some y => (x < y)%nat
  | _, _ => False
  end.

(** The entry carries the number of a source-id line among the first [i]
    lines. *)
Definition line_ok (all : list string) (i : nat) (l : option nat) : Prop :=
  exists n : nat, l = Some n /\ (n <= i)%nat /\ msgid_line_at all n.

(** What the loop of [parse] keeps about line numbers, [i] lines read. *)
Definition numbered (all : list string) (i : nat) (st : PState) : Prop :=
  Forall (fun e => line_ok all i (line e)) (st_entries st)
  /\ (p_msgid (st_current st) <> None ->
      line_ok all i (p_line (st_current st)))
  /\ (st_inMsgid st = true -> p_msgid (st_current st) <> None)
  /\ StronglySorted line_lt (st_entries st)
  /\ (forall n : nat,
        p_line (st_current st) = Some n ->
        Forall (fun e => exists m, line e = Some m /\ (m < n)%nat)
          (st_entries st)).

End Text.

(** ** [parseInt] *)

Module Numbers.

Import JsString.
Local Open Scope Z_scope.

(** The value of a digit in the given radix. *)
Definition digit_value (radix : Z) (c : ascii) : option Z :=
  let n := Z.of_nat (nat_of_ascii c) in
  let v := if (48 <=? n) && (n <=? 57) then Some (n - 48)
           else if (97 <=? n) && (n <=? 122) then Some (n - 87)
           else if (65 <=? n) && (n <=? 90) then Some (n - 55)
           else None in
  match v with
  | Some d => if d <? radix then Some d else None
  | None => None
  end.

(** The value of the longest run of digits at the head of [s]; [acc] is
    the value read so far, [None] when no digit was read. *)
Fixpoint digits (radix : Z) (s : string) (acc : option Z) : option Z :=
  match s with
  | EmptyString => acc
  | String c r =>
      match digit_value radix c with
      | Some d =>
          digits radix r
            (Some (match acc with
                   | Some a => a * radix + d
                   | None => d
                   end))
      | None => acc
      end
  end.

(** [parseInt(s)] with no radix given: leading white space, a sign, the
    prefix 0x or 0X for radix 16, and the digits up to the first code unit
    that is none.  The value is exact: it is the one of [parseInt] for the
    integers a double holds, those of [2 ^ 53] at most in absolute value;
    beyond, a double rounds. *)
Definition parseInt (s : string) : number :=
  let s0 := trimStart s in
  let (sign, s1) :=
    match s0 with
    | String "-" r => (-1, r)
    | String "+" r => (1, r)
    | _ => (1, s0)
    end in
  let (radix, s2) :=
    match s1 with
    | String "0" (String "x" r) => (16, r)
    | String "0" (String "X" r) => (16, r)
    | _ => (10, s1)
    end in
  match digits radix s2 None with
  | Some z => Num (sign * z)
  | None => NaN
  end.

(** [n * 1000]. *)
Definition times_1000 (n : number) : number :=
  match n with
  | Num z => Num (z * 1000)
  | NaN => NaN
  end.

End Numbers.

(** ** The capabilities ([src/providers.ts]) *)

Module Providers.

Import JsString Numbers.
Local Open Scope string_scope.

(** A value thrown by [fetch] or by [response.json()]: an [Error] with
    its message, or something else. *)
Inductive Thrown : Type :=
| AnError (message : string)
| NotAnError.

(** [error instanceof Error ? error.message : "Unknown error"]. *)
Definition message_of (e : Thrown) : string :=
  match e with
  | AnError m => m
  | NotAnError => "Unknown error"
  end.

(** What the request of the Anthropic and Gemini capabilities comes back
    with: [retry_after] is [response.headers.get("retry-after")], [body]
    what [response.json()] gives, read down to the text of the first
    candidate, which is missing or a string. *)
Record Response : Type := mkResponse {
  ok : bool;
  status : Z;
  statusText : string;
  retry_after : option string;
  body : result Thrown (option string)
}.

Inductive Fetched : Type :=
| Rejected (e : Thrown)
| Responded (r : Response).

(** The [Error] objects the capabilities throw: [isRateLimit] is set on a
    [RateLimitError] only. *)
Record ProviderError : Type := mkProviderError {
  pe_message : string;
  pe_isRateLimit : bool;
  pe_retryAfter : option number
}.

(** The [retryAfter] of a [RateLimitError]: set when the header is
    truthy. *)
Definition retryAfter_of (header : option string) : option number :=
  match header with
  | Some h => if is_empty h then None else Some (times_1000 (parseInt h))
  | None => None
  end.

(** What is thrown inside the [try] block. *)
Inductive Raised : Type :=
| RateLimited (e : ProviderError)
| Other (e : Thrown).

(** The [try] block of [translate], from the answer to the request on. *)
Definition try_translate (name : string) (f : Fetched) : result Raised string :=
  match f with
  | Rejected e => Throw (Other e)
  | Responded r =>
      if negb (ok r)
      then
        if (status r =? 429)%Z
        then Throw (RateLimited
                      (mkProviderError
                         ("Rate limit exceeded: " ++ statusText r) true
                         (retryAfter_of (retry_after r))))
        else Throw (Other (AnError (name ++ " API error: " ++ statusText r)))
      else
        match body r with
        | Throw e => Throw (Other e)
        | Ok text =>
            match text with
            | Some t =>
                if is_empty (trim t)
                then Throw (Other (AnError ("Empty response from " ++ name)))
                else Ok (trim t)
            | None => Throw (Other (AnError ("Empty response from " ++ name)))
            end
        end
  end.

(** The [catch] block: a [RateLimitError] is thrown on as it is, and
    anything else is wrapped. *)
Definition rethrow (e : Raised) : ProviderError :=
  match e with
  | RateLimited pe => pe
  | Other t =>
      mkProviderError ("Translation failed: " ++ message_of t) false None
  end.

(** [AnthropicProvider.translate] and [GeminiProvider.translate]. *)
Definition translate (name : string) (f : Fetched)
    : result ProviderError string :=
  match try_translate name f with
  | Ok text => Ok text
  | Throw e => Throw (rethrow e)
  end.

Definition anthropic : Fetched -> result ProviderError string :=
  translate "Anthropic".

Definition gemini : Fetched -> result ProviderError string :=
  translate "Gemini".

(** What the OpenAI client throws, with the properties [translate] reads:
    [se_headers] is [error.headers] when the value has such a property and
    the property is truthy, given by its [retry-after] entry. *)
Record SdkError : Type := mkSdkError {
  se_is_error : bool;
  se_message : option string;
  se_code : jsval;
  se_status : jsval;
  se_type : jsval;
  se_headers : option (option string)
}.

(** What the request of the OpenAI capability comes back with:
    [choices[0]?.message?.content], or a thrown value, [None] for a falsy
    one. *)
Inductive Completed : Type :=
| Failed (e : option SdkError)
| Chosen (content : option string).

(** [OpenAIProvider.isRateLimitError]. *)
Definition openai_isRateLimitError (error : option SdkError) : bool :=
  match error with
  | None => false
  | Some e =>
      let errorMessage :=
        match se_message e with
        | Some m => toLowerCase m
        | None => EmptyString
        end in
      let errorCode :=
        if jsval_truthy (se_code e) then se_code e
        else if jsval_truthy (se_status e) then se_status e
        else VNum (Num 0) in
      RateLimiter.is_429 errorCode
      || includes "rate limit" errorMessage
      || includes "too many requests" errorMessage
      || includes "quota exceeded" errorMessage
      || match se_type e with
         | VStr t => String.eqb t "rate_limit_exceeded"
         | _ => false
         end
  end.

(** [error instanceof Error ? error.message : "Unknown error"], as the
    template literal prints it. *)
Definition sdk_message (error : option SdkError) : string :=
  match error with
  | Some e =>
      if se_is_error e
      then match se_message e with
           | Some m => m
           | None => "undefined"
           end
      else "Unknown error"
  | None => "Unknown error"
  end.

(** The [retryAfter] the OpenAI capability sets. *)
Definition sdk_retryAfter (error : option SdkError) : option number :=
  match error with
  | Some e =>
      if se_is_error e
      then match se_headers e with
           | Some header => retryAfter_of header
           | None => None
           end
      else None
  | None => None
  end.

(** The [catch] block of [OpenAIProvider.translate]. *)
Definition openai_rethrow (error : option SdkError) : ProviderError :=
  if openai_isRateLimitError error
  then mkProviderError ("Rate limit exceeded: " ++ sdk_message error) true
         (sdk_retryAfter error)
  else mkProviderError ("Translation failed: " ++ sdk_message error) false
         None.

(** The [Error] thrown for an empty answer, as the [catch] block gets
    it. *)
Definition empty_response_error : option SdkError :=
  Some (mkSdkError true (Some "Empty response from OpenAI") VUndefined
          VUndefined VUndefined None).

(** [OpenAIProvider.translate]. *)
Definition openai (c : Completed) : result ProviderError string :=
  match c with
  | Failed e => Throw (openai_rethrow e)
  | Chosen content =>
      match content with
      | Some t =>
          if is_empty (trim t)
          then Throw (openai_rethrow empty_response_error)
          else Ok (trim t)
      | None => Throw (openai_rethrow empty_response_error)
      end
  end.

(** The thrown [Error] as the orchestrator and the limiter read it: it has
    a message and, on a [RateLimitError], a [retryAfter]; it has neither
    [code] nor [status]. *)
Definition to_JsError (e : ProviderError) : JsError :=
  mkError (Some (pe_message e)) VUndefined VUndefined (pe_retryAfter e).

(** What the orchestrator gets from a call of the capability. *)
Definition outcome_of (r : result ProviderError string)
    : result JsError string :=
  match r with
  | Ok text => Ok text
  | Throw e => Throw (to_JsError e)
  end.

End Providers.

(** ** Texts with comments above the header *)

Module Preamble.

Import JsString PoParser.
Local Open Scope string_scope.

(** The lines of a text: the comments [cs], the header entry with its
    fields [h], a blank line, and one entry. *)
Definition lines_with_preamble (cs : list string) (h : Header)
    (e : TranslationEntry) : list string :=
  cs
  ++ ["msgid " ++ quote ++ quote; "msgstr " ++ quote ++ quote]
  ++ map Lines.header_line h
  ++ [EmptyString]
  ++ Lines.entry_lines e.

(** The comments of an array of comment lines, as [finishEntry] stores
    them. *)
Definition stored (cs : list string) : option (list string) :=
  match cs with
  | [] => None
  | _ => Some cs
  end.

(** The parser below the header entry: nothing retained, no source id
    under construction, the comments [cs] pending, and a translation
    under construction that is truthy or not. *)
Definition below_header (cs : list string) (filled : bool) (st : PState)
    : Prop :=
  st_entries st = []
  /\ p_msgid (st_current st) = None
  /\ st_inMsgid st = false
  /\ st_inMsgstr st = true
  /\ st_header st = []
  /\ st_isHeader st = false
  /\ st_comments st = cs
  /\ truthy (p_msgstr (st_current st)) = filled.

End Preamble.

(** ** What the string codec gives back *)

Module Decoding.

Import JsString.
Local Open Scope string_scope.

(** [escapeString] and then [parseString], as one pass over the string:
    the letter n after a backslash comes back as a line feed, the letter t
    after a backslash as a tab, and every other code unit as itself.
    [after] tells that the code unit before was a backslash. *)
Fixpoint decoded (after : bool) (s : string) : string :=
  match s with
  | EmptyString => EmptyString
  | String c r =>
      if after && Ascii.eqb c "n"%char
      then String newline (decoded false r)
      else if after && Ascii.eqb c "t"%char
      then String tab (decoded false r)
      else String c (decoded (Ascii.eqb c backslash) r)
  end.

(** The escaped text between two passes of [parseString].  [dn], [dt] and
    [dq] tell which of the passes for n, t and the quote are done.  A
    backslash of the string is written as two; the second one is written
    with the code unit that follows, since that is where a pass can take
    it for the head of an escape. *)
Definition pending (after : bool) : string :=
  if after then str1 backslash else EmptyString.

Definition body (dn dt dq : bool) (c : ascii) : string :=
  if Ascii.eqb c backslash then str1 backslash
  else if Ascii.eqb c dquote
  then (if dq then str1 dquote else str2 backslash dquote)
  else if Ascii.eqb c newline
  then (if dn then str1 newline else str2 backslash "n"%char)
  else if Ascii.eqb c tab
  then (if dt then str1 tab else str2 backslash "t"%char)
  else str1 c.

Fixpoint layer (dn dt dq : bool) (after : bool) (s : string) : string :=
  match s with
  | EmptyString => pending after
  | String c r =>
      if after && dn && Ascii.eqb c "n"%char
      then String newline (layer dn dt dq false r)
      else if after && dt && Ascii.eqb c "t"%char
      then String tab (layer dn dt dq false r)
      else pending after ++ body dn dt dq c
           ++ layer dn dt dq (Ascii.eqb c backslash) r
  end.

End Decoding.

(** ** Calls of [acquireToken] that run one at a time *)

Module Solo.

Import RateLimiter.
Local Open Scope Z_scope.

(** A call that has started and has not returned. *)
Definition in_progress (pc : Pc) : bool :=
  match pc with
  | SleepingForSlot _ | SleepingForMinute _ _ | SleepingForSecond _
  | SleepingForDelay _ => true
  | AtEntry | Holding | Released => false
  end.

Definition idle (w : Loop) : bool :=
  forallb (fun pc => negb (in_progress pc)) (tasks w).

(** The action starts no call while another one is in progress. *)
Definition starts_alone (a : Action) (w : Loop) : bool :=
  match a with
  | Run i =>
      match nth_error (tasks w) i with
      | Some AtEntry => idle w
      | _ => true
      end
  | _ => true
  end.

(** A schedule in which the calls run one at a time, as the calls of
    batches of one entry do. *)
Fixpoint one_at_a_time (acts : list Action) (w : Loop) : bool :=
  match acts with
  | [] => true
  | a :: r =>
      starts_alone a w
      && match act a w with
         | Some w' => one_at_a_time r w'
         | None => true
         end
  end.

(** The clock reading at which the action lets a call return, if it
    does. *)
Definition granted (a : Action) (w : Loop) : list Z :=
  match a with
  | Run i =>
      match nth_error (tasks w) i with
      | Some pc =>
          if ready (clock w) pc
             && is_holding (snd (resume (clock w) pc (limiter w)))
          then [clock w]
          else []
      | None => []
      end
  | _ => []
  end.

(** The clock readings at which calls returned, in the order of the
    schedule. *)
Fixpoint grants (acts : list Action) (w : Loop) : list Z :=
  match acts with
  | [] => []
  | a :: r =>
      granted a w
      ++ match act a w with
         | Some w' => grants r w'
         | None => []
         end
  end.

(** Of any [n] + 1 grants in a row, the last is at least [window] after
    the first. *)
Definition spaced (n : nat) (window : Q) (h : list Z) : Prop :=
  forall (i : nat) (a b : Z),
    nth_error h i = Some a -> nth_error h (i + n) = Some b ->
    (inject_Z a + window <= inject_Z b)%Q.

(** A limit of [n] grants in a window; a limit of 0 or less is met by no
    schedule and binds nothing. *)
Definition limit_ok (n : Z) (window : Q) (h : list Z) : Prop :=
  1 <= n -> spaced (Z.to_nat n) window h.

(** The window of the last [n] grants but one has passed at [T]. *)
Definition clear (n : Z) (window : Q) (h : list Z) (T : Q) : Prop :=
  1 <= n ->
  forall a : Z,
    nth_error (rev h) (Z.to_nat n - 1) = Some a ->
    (inject_Z a + window <= T)%Q.

(** All the grants so far, with the ones the limiter still records at
    the end, and the others out of the minute window at [c]. *)
Definition recorded (c : Z) (l : t) (h : list Z) : Prop :=
  exists old : list Z,
    h = old ++ requestTimes l /\ Forall (fun x => x + 60000 <= c) old.

Definition kept (c : Z) (l : t) (h : list Z) : Prop :=
  StronglySorted Z.le h
  /\ Forall (fun x => x <= c) h
  /\ recorded c l h
  /\ limit_ok (requestsPerMinute l) 60000 h
  /\ limit_ok (requestsPerSecond l) 1000 h
  /\ limit_ok 1 (currentDelay l) h.

(** What a suspended call has established. *)
Definition phase_ok (c : Z) (l : t) (h : list Z) (pc : Pc) : Prop :=
  match pc with
  | SleepingForMinute now wake =>
      now <= c
      /\ Forall (fun x => x <= now) h
      /\ recorded now l h
      /\ clear (requestsPerMinute l) 60000 h wake
  | SleepingForSecond wake =>
      clear (requestsPerMinute l) 60000 h (inject_Z c)
      /\ clear (requestsPerSecond l) 1000 h wake
  | SleepingForDelay wake =>
      clear (requestsPerMinute l) 60000 h (inject_Z c)
      /\ clear (requestsPerSecond l) 1000 h (inject_Z c)
      /\ clear 1 (currentDelay l) h wake
  | _ => True
  end.

(** At most one call is in progress. *)
Definition solo (ts : list Pc) : Prop :=
  forall (i j : nat) (p q : Pc),
    nth_error ts i = Some p -> nth_error ts j = Some q ->
    in_progress p = true -> in_progress q = true -> i = j.

Definition same_limits (l l' : t) : Prop :=
  requestsPerMinute l' = requestsPerMinute l
  /\ requestsPerSecond l' = requestsPerSecond l
  /\ currentDelay l' = currentDelay l.

(** What a step of a call at clock reading [c] keeps, [h] being the
    grants before it. *)
Definition stepped (c : Z) (l : t) (h : list Z) (r : t * Pc) : Prop :=
  let h' := h ++ (if is_holding (snd r) then [c] else []) in
  kept c (fst r) h' /\ phase_ok c (fst r) h' (snd r) /\ same_limits l (fst r).

Definition loop_kept (w : Loop) (h : list Z) : Prop :=
  kept (clock w) (limiter w) h
  /\ Forall (phase_ok (clock w) (limiter w) h) (tasks w)
  /\ solo (tasks w).

End Solo.

(** ** More concrete inputs *)

Module Cases.

Import JsString.
Local Open Scope string_scope.
Local Open Scope Z_scope.

(** The capability fails twice, once throttled and once not, and then
    answers. *)
Definition third_time_lucky : Translator.Env :=
  Inputs.alone (fun n => match n with
                         | O => Throw Inputs.too_many_requests
                         | S O => Throw Inputs.empty_response
                         | _ => Ok "Ola"%string
                         end).

(** The object of [Inputs.start] with one slot taken by another task. *)
Definition one_slot_taken : Translator.World :=
  Translator.mkWorld
    (Translator.with_limiter (fun l => fst (RateLimiter.commit 0 l))
       (Translator.self Inputs.start))
    [].

Definition two_pending_entries : PoFile :=
  mkPoFile []
    [mkEntry "Hello" EmptyString None None;
     mkEntry "Bye" EmptyString None None].

Definition answers (k : nat) : string :=
  match k with
  | O => "Ola"
  | _ => "Tchau"
  end.

(** Each task is answered at once and runs undisturbed. *)
Definition answered_at_once (k : nat) : Translator.Env :=
  Inputs.alone (fun _ => Ok (answers k)).

Definition options_batch_size_minus_1 : Cli.Options :=
  Cli.mkOptions None None (Some (Num (-1))) None None None None None None.

(** A translator that has loaded nothing yet. *)
Definition fresh (options : Cli.Options) : Translator.World :=
  Translator.mkWorld (Translator.new (Cli.config_of options)) [].

(** Two entries with no blank line between them. *)
Definition two_entries_no_blank_line : string :=
  Lines.msgid_line "a" ++ PoParser.nl ++ Lines.msgstr_line "b" ++ PoParser.nl
  ++ Lines.msgid_line "c" ++ PoParser.nl ++ Lines.msgstr_line "d".

Definition too_many_requests_response : Providers.Response :=
  Providers.mkResponse false 429 "Too Many Requests" (Some "30"%string)
    (Ok None).

Definition padded_answer : Providers.Response :=
  Providers.mkResponse true 200 "OK" None (Ok (Some "  Ola "%string)).

(** A retry budget of -1. *)
Definition options_max_retries_minus_1 : Cli.Options :=
  Cli.mkOptions None None None None (Some (Num (-1))) None None None None.

(** A limit of one request a minute. *)
Definition options_one_a_minute : Cli.Options :=
  Cli.mkOptions None None None None None (Some 1) None None None.

(** Two calls of [acquireToken] that are yet to start. *)
Definition two_calls_to_come : RateLimiter.Loop :=
  RateLimiter.mkLoop 0
    (RateLimiter.new (Cli.config_of options_one_a_minute))
    [RateLimiter.AtEntry; RateLimiter.AtEntry].

(** The second call starts when the first has returned and released its
    slot. *)
Definition one_then_the_other : list RateLimiter.Action :=
  [RateLimiter.Run 0; RateLimiter.Tick 1000; RateLimiter.Run 0;
   RateLimiter.Release 0; RateLimiter.Run 1; RateLimiter.Tick 61000;
   RateLimiter.Run 1; RateLimiter.Tick 62000; RateLimiter.Run 1].

(** The object [translateFile] starts its batches in: the catalog is
    loaded and the total is the number of the selected entries. *)
Definition started (options : Cli.Options) (po : PoFile) : Translator.World :=
  Translator.mkWorld
    (Translator.with_progress
       (Files.set_total (Z.of_nat (List.length (Files.indicesToTranslate po))))
       (Translator.load po "out.po"
          (Translator.new (Cli.config_of options))))
    [].


End Cases.

(** * Properties *)

(** ** The catalog codec *)

Section Codec.

Import JsString PoParser PoParserFold.

Lemma is_empty_true (s : string) : is_empty s = true <-> s = EmptyString.
Proof. destruct s; simpl; split; congruence. Qed.

Lemma is_empty_false (s : string) : is_empty s = false <-> s <> EmptyString.
Proof. destruct s; simpl; split; congruence. Qed.

Lemma prefix_empty (s : string) : prefix EmptyString s = true.
Proof. destruct s; reflexivity. Qed.

(** The loop reads every index it visits: it is the fold over the
    lines. *)
Lemma parse_loop_lines (ls : list string) :
  forall (pre : list string) (st : PState),
    parse_loop (pre ++ ls) (List.length ls) (List.length pre) st
    = Ok (parse_lines (List.length pre) ls st).
Proof.
  induction ls as [| raw r IH]; intros pre st; simpl.
  - reflexivity.
  - rewrite nth_error_app2 by lia. rewrite Nat.sub_diag. simpl.
    specialize (IH (pre ++ [raw]) (parse_line (List.length pre) raw st)).
    rewrite <- app_assoc in IH. simpl in IH.
    rewrite length_app in IH. simpl in IH.
    rewrite Nat.add_1_r in IH. exact IH.
Qed.

Lemma parse_as_fold (content : string) :
  parse content
  = Ok (finish (parse_lines 0 (split (str1 newline) content) init_state)).
Proof.
  unfold parse.
  pose proof (parse_loop_lines (split (str1 newline) content) [] init_state)
    as H.
  simpl in H. rewrite H. reflexivity.
Qed.

Lemma unrecognized_classify (l : string) :
  Spec.matches_no_production l -> classify l = Unrecognized.
Proof.
  intros (Hne & Hc & Hid & Hstr & Hq). unfold classify.
  apply is_empty_false in Hne. rewrite Hne, Hc, Hid, Hstr, Hq. reflexivity.
Qed.

(** Once the header flag is down, no line raises it or touches the
    header. *)
Lemma header_settled_line (i : nat) (raw : string) (st : PState) :
  st_isHeader st = false ->
  st_isHeader (parse_line i raw st) = false
  /\ st_header (parse_line i raw st) = st_header st.
Proof.
  intros H. unfold parse_line.
  destruct (classify (trim raw)); rewrite ?H; simpl;
    repeat match goal with
           | |- context [if ?b then _ else _] => destruct b
           end; simpl; auto.
Qed.

Lemma header_settled_lines (ls : list string) :
  forall (i : nat) (st : PState),
    st_isHeader st = false ->
    st_header (parse_lines i ls st) = st_header st.
Proof.
  induction ls as [| raw r IH]; intros i st H; simpl.
  - reflexivity.
  - destruct (header_settled_line i raw st H) as [H1 H2].
    rewrite (IH (S i) _ H1). exact H2.
Qed.

(** The first two lines [serialize] writes. *)
Lemma serialize_lines (po : PoFile) :
  exists rest : list string,
    split (str1 newline) (serialize po)
    = ("msgid " ++ quote ++ quote)%string
        :: ("msgstr " ++ quote ++ quote)%string :: rest.
Proof.
  unfold serialize.
  eexists. cbn. rewrite prefix_empty. cbn. reflexivity.
Qed.

(** C1 (round trip), where the code departs from it.  [parse] reads the
    header off the [msgstr] line of the first entry, and [serialize] writes
    the header fields on the continuation lines below that line: whatever
    the catalog, the header that comes back is empty.  And a backslash
    followed by the letter n comes back as a backslash followed by a line
    feed, since [parseString] replaces the escapes one kind after the
    other. *)
Theorem roundtrip_loses_header :
  (forall c : PoFile,
      exists po : PoFile, parse (serialize c) = Ok po /\ header po = [])
  /\ header Inputs.catalog_with_header <> []
  /\ parse (serialize Inputs.catalog_with_backslash)
     = Ok (mkPoFile []
             [mkEntry (String backslash (String newline "ew")) "x" None
                (Some 4)]).
Proof.
  split; [| split; [discriminate | vm_compute; reflexivity]].
  intros c. rewrite parse_as_fold.
  destruct (serialize_lines c) as [rest Hrest]. rewrite Hrest.
  eexists. split; [reflexivity |].
  unfold finish. simpl header.
  cbn [parse_lines].
  rewrite header_settled_lines; reflexivity.
Qed.

Lemma needsTranslation_spec (e : TranslationEntry) :
  Translator.needsTranslation e = true <-> Spec.selected e.
Proof.
  unfold Translator.needsTranslation, Spec.selected, Spec.pending.
  destruct (is_empty (msgid e)) eqn:Hid; simpl.
  - apply is_empty_true in Hid.
    split; [discriminate | intros [H _]; contradiction].
  - apply is_empty_false in Hid.
    destruct (is_empty (msgstr e)) eqn:Hstr; simpl.
    + apply is_empty_true in Hstr. tauto.
    + apply is_empty_false in Hstr.
      destruct (String.eqb_spec (msgstr e) (msgid e)) as [Heq | Hne]; simpl.
      * tauto.
      * split; [discriminate | intros [_ [H | H]]; contradiction].
Qed.

(** C6 (selection): the entries the filter of [translateFile] keeps are the
    entries of the catalog whose source id is non-empty and whose
    translation is empty or equal to the source id. *)
Theorem selection_iff (po : PoFile) (e : TranslationEntry) :
  In e (Translator.entriesToTranslate po)
  <-> In e (entries po) /\ Spec.selected e.
Proof.
  unfold Translator.entriesToTranslate.
  rewrite filter_In, needsTranslation_spec. reflexivity.
Qed.

(** C7 (leniency): [parse] returns a catalog for every text, without
    throwing, and a line that matches no production leaves the state of the
    parser as it was. *)
Theorem parse_total_and_lenient :
  (forall content : string, exists po : PoFile, parse content = Ok po)
  /\ (forall (i : nat) (raw : string) (st : PState),
        Spec.matches_no_production (trim raw) -> parse_line i raw st = st).
Proof.
  split.
  - intros content. rewrite parse_as_fold. eauto.
  - intros i raw st H. unfold parse_line.
    rewrite (unrecognized_classify _ H). reflexivity.
Qed.

Lemma parse_total_and_lenient_witness :
  parse_line 3 "  msgctxt menu  " init_state = init_state.
Proof.
  apply (proj2 parse_total_and_lenient 3 "  msgctxt menu  "%string init_state).
  vm_compute. repeat split; discriminate.
Defined.

Lemma finishEntry_retained (cur : PartialEntry) (es : list TranslationEntry)
    (cs : list string) :
  retained_ok es -> retained_ok (finishEntry cur es cs).
Proof.
  intros H. unfold finishEntry.
  destruct (p_msgid cur) as [id |]; [| exact H].
  destruct (is_empty id) eqn:Hid; [exact H |].
  apply Forall_app. split; [exact H |].
  constructor; [| constructor]. simpl. now apply is_empty_false.
Qed.

Lemma parse_line_retained (i : nat) (raw : string) (st : PState) :
  retained_ok (st_entries st) -> retained_ok (st_entries (parse_line i raw st)).
Proof.
  intros H. unfold parse_line.
  destruct (classify (trim raw)); simpl;
    repeat match goal with
           | |- context [if ?b then _ else _] => destruct b
           end; simpl; auto using finishEntry_retained.
Qed.

Lemma parse_lines_retained (ls : list string) :
  forall (i : nat) (st : PState),
    retained_ok (st_entries st) ->
    retained_ok (st_entries (parse_lines i ls st)).
Proof.
  induction ls as [| raw r IH]; intros i st H; simpl.
  - exact H.
  - apply IH, parse_line_retained, H.
Qed.

(** Section 3 of the specification: the source id of a retained entry is
    never empty. *)
Theorem retained_entries_have_source_id (content : string) (po : PoFile)
    (e : TranslationEntry) :
  parse content = Ok po -> In e (entries po) -> msgid e <> EmptyString.
Proof.
  rewrite parse_as_fold. intros Hpo Hin. inversion Hpo; subst po. clear Hpo.
  assert (H : retained_ok
                (st_entries
                   (parse_lines 0 (split (str1 newline) content) init_state)))
    by (apply parse_lines_retained; constructor).
  unfold finish in Hin. simpl in Hin.
  destruct (_ || _) in Hin.
  - eapply finishEntry_retained in H.
    unfold retained_ok in H. rewrite Forall_forall in H. apply H, Hin.
  - unfold retained_ok in H. rewrite Forall_forall in H. now apply H.
Qed.

Lemma retained_entries_have_source_id_witness :
  msgid (mkEntry "Hello" EmptyString None (Some 4)) <> EmptyString.
Proof.
  apply (retained_entries_have_source_id
           (serialize Inputs.one_pending_entry)
           (mkPoFile [] [mkEntry "Hello" EmptyString None (Some 4)])).
  - vm_compute. reflexivity.
  - simpl. left. reflexivity.
Defined.

End Codec.

(** ** The round trip of the entries *)

Section Strings.
Import JsString WellFormed.
Local Open Scope string_scope.

Lemma app_assoc_s (a b c : string) : (a ++ b) ++ c = a ++ (b ++ c).
Proof. induction a as [| x a IH]; simpl; [reflexivity | now rewrite IH]. Qed.

Lemma app_empty_r (a : string) : a ++ EmptyString = a.
Proof. induction a as [| x a IH]; simpl; [reflexivity | now rewrite IH]. Qed.

Lemma has_char_app (c : ascii) (a b : string) :
  has_char c (a ++ b) = has_char c a || has_char c b.
Proof.
  induction a as [| x a IH]; simpl; [reflexivity |].
  now rewrite IH, orb_assoc.
Qed.

Lemma prefix_char (a b : ascii) (s : string) :
  prefix (String a EmptyString) (String b s) = Ascii.eqb a b.
Proof.
  cbn [prefix].
  destruct (ascii_dec a b) as [-> | Hne].
  - now rewrite prefix_empty, Ascii.eqb_refl.
  - symmetry. now apply Ascii.eqb_neq.
Qed.

Lemma prefix_char2 (a1 a2 b1 b2 : ascii) (s : string) :
  prefix (String a1 (String a2 EmptyString)) (String b1 (String b2 s))
  = Ascii.eqb a1 b1 && Ascii.eqb a2 b2.
Proof.
  cbn [prefix].
  destruct (ascii_dec a1 b1) as [-> | Hne].
  - rewrite Ascii.eqb_refl. simpl.
    destruct (ascii_dec a2 b2) as [-> | Hne].
    + now rewrite prefix_empty, Ascii.eqb_refl.
    + symmetry. now apply Ascii.eqb_neq.
  - apply Ascii.eqb_neq in Hne. now rewrite Hne.
Qed.

Lemma prefix_char2_short (a1 a2 b : ascii) :
  prefix (String a1 (String a2 EmptyString)) (String b EmptyString) = false.
Proof.
  cbn [prefix]. destruct (ascii_dec a1 b); reflexivity.
Qed.

Lemma prefix_cons_neq (a b : ascii) (p s : string) :
  Ascii.eqb a b = false -> prefix (String a p) (String b s) = false.
Proof.
  intros H. cbn [prefix]. destruct (ascii_dec a b) as [-> | _]; [| reflexivity].
  now rewrite Ascii.eqb_refl in H.
Qed.

(** A line and the rest of the text. *)
Lemma split_line (l rest : string) :
  has_char newline l = false ->
  split (str1 newline) (l ++ String newline rest)
  = l :: split (str1 newline) rest.
Proof.
  unfold split. induction l as [| c l IH]; intros H.
  - cbn [append split_go]. rewrite prefix_char, Ascii.eqb_refl. reflexivity.
  - cbn [has_char] in H. apply orb_false_iff in H. destruct H as [Hc Hl].
    cbn [append split_go]. rewrite prefix_char.
    rewrite Ascii.eqb_sym, Hc. rewrite (IH Hl). reflexivity.
Qed.

End Strings.

Section EscapeLemmas.
Import JsString WellFormed Escapes PoParser.
Local Open Scope string_scope.

Lemma replace_go_here (pat rep : string) (c : ascii) (r : string) :
  replace_go pat rep 0 (String c r)
  = if prefix pat (String c r)
    then rep ++ replace_go pat rep (String.length pat - 1) r
    else String c (replace_go pat rep 0 r).
Proof. reflexivity. Qed.

(** Replacing one code unit works code unit by code unit. *)
Lemma replace1_cons (c x : ascii) (rep r : string) :
  replaceAll (str1 c) rep (String x r)
  = (if Ascii.eqb c x then rep else str1 x) ++ replaceAll (str1 c) rep r.
Proof.
  unfold replaceAll. rewrite replace_go_here, prefix_char.
  destruct (Ascii.eqb c x); reflexivity.
Qed.

Lemma replace1_app (c : ascii) (rep a b : string) :
  replaceAll (str1 c) rep (a ++ b)
  = replaceAll (str1 c) rep a ++ replaceAll (str1 c) rep b.
Proof.
  induction a as [| x a IH]; [reflexivity |].
  cbn [append]. rewrite !replace1_cons, IH, app_assoc_s. reflexivity.
Qed.

Lemma replace1_other (c x : ascii) (rep : string) :
  Ascii.eqb c x = false -> replaceAll (str1 c) rep (str1 x) = str1 x.
Proof.
  intros H. rewrite replace1_cons, H. reflexivity.
Qed.

Lemma escape_char (c : ascii) :
  escapeString (str1 c) = img0 c.
Proof.
  unfold escapeString, img0.
  repeat match goal with
         | |- context [if Ascii.eqb ?c ?k then _ else _] =>
             let E := fresh "E" in
             destruct (Ascii.eqb_spec c k) as [E | E];
             [ subst c; reflexivity | apply Ascii.eqb_neq in E ]
         end.
  rewrite !replace1_other; trivial; now rewrite Ascii.eqb_sym.
Qed.

Lemma escape_app (a b : string) :
  escapeString (a ++ b) = escapeString a ++ escapeString b.
Proof. unfold escapeString. now rewrite !replace1_app. Qed.

Lemma escape_flat (s : string) : escapeString s = flat img0 s.
Proof.
  induction s as [| c s IH]; [reflexivity |].
  change (String c s) with (str1 c ++ s).
  rewrite escape_app, escape_char, IH. reflexivity.
Qed.
End EscapeLemmas.

Section UnescapeLemmas.
Import JsString WellFormed Escapes PoParser.
Local Open Scope string_scope.

(** The cases of an image: which of the escaped code units [c] is. *)
Ltac img_cases :=
  repeat match goal with
         | |- context [if Ascii.eqb ?c ?k then _ else _] =>
             let E := fresh "E" in
             destruct (Ascii.eqb_spec c k) as [E | E];
             [ first [ discriminate E | subst c | idtac ]
             | first [ now (exfalso; apply E) | apply Ascii.eqb_neq in E ] ]
         end.

Lemma plain_cons (c : ascii) (s : string) :
  plain_backslashes (String c s) = true ->
  (c = backslash -> next_ok s = true) /\ plain_backslashes s = true.
Proof.
  cbn [plain_backslashes]. intros H.
  apply andb_true_iff in H. destruct H as [H1 H2]. split; [| exact H2].
  intros ->. rewrite Ascii.eqb_refl in H1. exact H1.
Qed.

Lemma no_n_after (s : string) :
  next_ok s = true ->
  prefix (str2 backslash "n"%char) (String backslash (flat img0 s)) = false.
Proof.
  destruct s as [| d s]; intros H; cbn [flat].
  - apply prefix_char2_short.
  - cbn [next_ok] in H. apply negb_true_iff, orb_false_iff in H.
    destruct H as [Hn' _].
    unfold img0 at 1. img_cases; cbn [append]; rewrite prefix_char2;
      try reflexivity.
    now rewrite Ascii.eqb_refl, Ascii.eqb_sym.
Qed.

Lemma no_t_after (s : string) :
  next_ok s = true ->
  prefix (str2 backslash "t"%char) (String backslash (flat img1 s)) = false.
Proof.
  destruct s as [| d s]; intros H; cbn [flat].
  - apply prefix_char2_short.
  - cbn [next_ok] in H. apply negb_true_iff, orb_false_iff in H.
    destruct H as [_ Ht'].
    unfold img1 at 1. img_cases; cbn [append]; rewrite prefix_char2;
      try reflexivity.
    now rewrite Ascii.eqb_refl, Ascii.eqb_sym.
Qed.

Lemma no_quote_after (s : string) :
  prefix (str2 backslash dquote) (String backslash (flat img2 s)) = false.
Proof.
  destruct s as [| d s]; cbn [flat].
  - apply prefix_char2_short.
  - unfold img2 at 1. img_cases; cbn [append]; rewrite prefix_char2;
      try reflexivity.
    now rewrite Ascii.eqb_refl, Ascii.eqb_sym.
Qed.

(** A code unit that is not a backslash starts no escape. *)
Lemma replace2_pass (x c : ascii) (rep r : string) :
  Ascii.eqb backslash c = false ->
  replace_go (str2 backslash x) rep 0 (String c r)
  = String c (replace_go (str2 backslash x) rep 0 r).
Proof.
  intros H. rewrite replace_go_here. now rewrite prefix_cons_neq.
Qed.

(** An escape of the pass is replaced. *)
Lemma replace2_hit (x : ascii) (rep r : string) :
  replace_go (str2 backslash x) rep 0 (String backslash (String x r))
  = rep ++ replace_go (str2 backslash x) rep 0 r.
Proof.
  rewrite replace_go_here, prefix_char2, !Ascii.eqb_refl. reflexivity.
Qed.

(** A backslash that starts no escape of the pass is passed over. *)
Lemma replace2_miss (x : ascii) (rep r : string) :
  prefix (str2 backslash x) (String backslash r) = false ->
  replace_go (str2 backslash x) rep 0 (String backslash r)
  = String backslash (replace_go (str2 backslash x) rep 0 r).
Proof. intros H. now rewrite replace_go_here, H. Qed.

Ltac pass_step :=
  first
    [ rewrite replace2_hit
    | rewrite replace2_pass
        by first [ reflexivity | assumption
                 | rewrite Ascii.eqb_sym; assumption ]
    | rewrite replace2_miss
        by first [ rewrite prefix_char2; reflexivity
                 | solve [auto using no_n_after, no_t_after, no_quote_after] ] ].

Lemma unescape_pass1 (s : string) :
  plain_backslashes s = true ->
  replaceAll (str2 backslash "n"%char) (str1 newline) (flat img0 s)
  = flat img1 s.
Proof.
  unfold replaceAll. induction s as [| c s IH]; intros H; [reflexivity |].
  apply plain_cons in H. destruct H as [Hnext Hs]. specialize (IH Hs).
  cbn [flat]. unfold img0 at 1, img1 at 1.
  img_cases; cbn [append]; repeat pass_step; rewrite IH; reflexivity.
Qed.

Lemma unescape_pass2 (s : string) :
  plain_backslashes s = true ->
  replaceAll (str2 backslash "t"%char) (str1 tab) (flat img1 s)
  = flat img2 s.
Proof.
  unfold replaceAll. induction s as [| c s IH]; intros H; [reflexivity |].
  apply plain_cons in H. destruct H as [Hnext Hs]. specialize (IH Hs).
  cbn [flat]. unfold img1 at 1, img2 at 1.
  img_cases; cbn [append]; repeat pass_step; rewrite IH; reflexivity.
Qed.

Lemma unescape_pass3 (s : string) :
  replaceAll (str2 backslash dquote) (str1 dquote) (flat img2 s)
  = flat img3 s.
Proof.
  unfold replaceAll. induction s as [| c s IH]; [reflexivity |].
  cbn [flat]. unfold img2 at 1, img3 at 1.
  img_cases; cbn [append]; repeat pass_step; rewrite IH; reflexivity.
Qed.

Lemma unescape_pass4 (s : string) :
  replaceAll (str2 backslash backslash) (str1 backslash) (flat img3 s) = s.
Proof.
  unfold replaceAll. induction s as [| c s IH]; [reflexivity |].
  cbn [flat]. unfold img3 at 1.
  img_cases; cbn [append]; repeat pass_step; rewrite IH; reflexivity.
Qed.

(** The four passes, one after the other. *)
Lemma unescape_passes (s : string) :
  plain_backslashes s = true -> unescape (flat img0 s) = s.
Proof.
  intros H. unfold unescape.
  rewrite unescape_pass1, unescape_pass2, unescape_pass3 by exact H.
  apply unescape_pass4.
Qed.

(** The string codec gives back a string in which no backslash is followed
    by the letter n or the letter t. *)
Theorem parseString_escapeString (s : string) :
  plain_backslashes s = true -> unescape (escapeString s) = s.
Proof.
  intros H. rewrite escape_flat. now apply unescape_passes.
Qed.

Lemma parseString_escapeString_witness :
  unescape (escapeString (String backslash (String dquote (String tab "x"))))
  = String backslash (String dquote (String tab "x")).
Proof.
  apply (parseString_escapeString
           (String backslash (String dquote (String tab "x")))).
  reflexivity.
Defined.

End UnescapeLemmas.

Section LineLemmas.
Import JsString WellFormed Escapes PoParser.
Local Open Scope string_scope.

Lemma app_char_not_empty (a : string) (c : ascii) :
  a ++ str1 c <> EmptyString.
Proof. destruct a; discriminate. Qed.

Lemma trimEnd_app_char (a : string) (c : ascii) :
  is_space c = false -> trimEnd (a ++ str1 c) = a ++ str1 c.
Proof.
  intros Hc. induction a as [| x a IH]; cbn [append trimEnd].
  - now rewrite Hc.
  - rewrite IH.
    destruct (a ++ str1 c) eqn:E; [| reflexivity].
    now apply app_char_not_empty in E.
Qed.

(** A line between two code units that are no white space is trimmed. *)
Lemma trim_framed (c d : ascii) (a : string) :
  is_space c = false -> is_space d = false ->
  trim (String c (a ++ str1 d)) = String c (a ++ str1 d).
Proof.
  intros Hc Hd. unfold trim. cbn [trimStart]. rewrite Hc.
  change (String c (a ++ str1 d)) with (String c a ++ str1 d).
  now apply trimEnd_app_char.
Qed.

Lemma rev_onto_app (a b acc : string) :
  rev_onto (a ++ b) acc = rev_onto b (rev_onto a acc).
Proof.
  revert acc. induction a as [| x a IH]; intros acc; cbn [append rev_onto];
    [reflexivity | apply IH].
Qed.

Lemma endsWith_char (a : string) (c : ascii) :
  endsWith (str1 c) (a ++ str1 c) = true.
Proof.
  unfold endsWith, rev. rewrite rev_onto_app. cbn [rev_onto].
  now rewrite prefix_char, Ascii.eqb_refl.
Qed.

Lemma remove_last_app_char (a : string) (c : ascii) :
  remove_last (a ++ str1 c) = a.
Proof.
  induction a as [| x a IH]; cbn [append remove_last]; [reflexivity |].
  destruct (a ++ str1 c) eqn:E; [now apply app_char_not_empty in E |].
  now rewrite IH.
Qed.

(** A quoted string is decoded to what is between the quotes. *)
Lemma parseString_quoted (x : string) :
  parseString (quote ++ x ++ quote) = unescape x.
Proof.
  unfold parseString, quote, startsWith, slice_1_m1.
  cbn [append drop]. rewrite prefix_char, Ascii.eqb_refl.
  change (String dquote (x ++ str1 dquote))
    with (String dquote x ++ str1 dquote) at 1.
  rewrite endsWith_char. cbn [andb].
  now rewrite remove_last_app_char.
Qed.

Lemma has_char_flat_img0 (s : string) :
  has_char newline (flat img0 s) = false.
Proof.
  induction s as [| c s IH]; [reflexivity |].
  cbn [flat]. rewrite has_char_app, IH, orb_false_r.
  unfold img0.
  repeat match goal with
         | |- context [if Ascii.eqb ?c ?k then _ else _] =>
             let E := fresh "E" in
             destruct (Ascii.eqb_spec c k) as [E | E];
             [ reflexivity | apply Ascii.eqb_neq in E ]
         end.
  cbn [has_char]. now rewrite E1.
Qed.

Lemma escapeString_one_line (s : string) :
  has_char newline (escapeString s) = false.
Proof. rewrite escape_flat. apply has_char_flat_img0. Qed.
End LineLemmas.

Section SerializedLines.
Import JsString WellFormed Escapes PoParser PoParserFold Lines.
Local Open Scope string_scope.

Lemma unlines_app (a b : list string) :
  unlines (a ++ b)%list = unlines a ++ unlines b.
Proof.
  induction a as [| l a IH]; [reflexivity |].
  cbn [List.app unlines]. rewrite IH, app_assoc_s. reflexivity.
Qed.

Lemma split_unlines (ls : list string) :
  Forall (fun l => has_char newline l = false) ls ->
  split (str1 newline) (unlines ls) = (ls ++ [EmptyString])%list.
Proof.
  induction 1 as [| l ls Hl _ IH]; [reflexivity |].
  cbn [unlines List.app]. now rewrite split_line, IH.
Qed.

Lemma concat_empty_cons (x : string) (xs : list string) :
  String.concat EmptyString (x :: xs) = x ++ String.concat EmptyString xs.
Proof.
  destruct xs as [| y ys]; cbn [String.concat]; [now rewrite app_empty_r |].
  reflexivity.
Qed.

Lemma serialize_comments_unlines (cs : option (list string)) :
  serialize_comments cs = unlines (comment_lines cs).
Proof.
  destruct cs as [l |]; [| reflexivity]. cbn [serialize_comments comment_lines].
  induction l as [| c l IH]; [reflexivity |].
  cbn [map]. rewrite concat_empty_cons, IH, app_assoc_s. reflexivity.
Qed.

Lemma serialize_entry_unlines (e : TranslationEntry) :
  serialize_entry e = unlines (entry_lines e).
Proof.
  unfold serialize_entry, entry_lines, msgid_line, msgstr_line, nl.
  rewrite unlines_app, serialize_comments_unlines. f_equal.
  cbn [unlines]. rewrite ?app_assoc_s. cbn [append]. reflexivity.
Qed.

Lemma serialize_entries_unlines (es : list TranslationEntry) :
  String.concat EmptyString (map serialize_entry es)
  = unlines (flat_map entry_lines es).
Proof.
  induction es as [| e es IH]; [reflexivity |].
  cbn [map flat_map].
  now rewrite concat_empty_cons, IH, unlines_app, serialize_entry_unlines.
Qed.

Lemma serialize_header_unlines (h : Header) :
  String.concat EmptyString (map serialize_header_field h)
  = unlines (map header_line h).
Proof.
  induction h as [| kv h IH]; [reflexivity |].
  cbn [map]. rewrite concat_empty_cons, IH. cbn [unlines].
  unfold serialize_header_field, header_line, nl.
  rewrite !app_assoc_s. cbn [append]. rewrite ?app_assoc_s. reflexivity.
Qed.

Lemma serialize_unlines (po : PoFile) :
  serialize po = unlines (file_lines po).
Proof.
  unfold serialize, file_lines, nl.
  rewrite serialize_header_unlines, serialize_entries_unlines.
  cbn [List.app unlines]. rewrite !unlines_app. cbn [unlines].
  rewrite ?app_assoc_s. cbn [append]. reflexivity.
Qed.
End SerializedLines.

Section ParseLines.
Import JsString WellFormed Escapes PoParser PoParserFold Lines.
Local Open Scope string_scope.

Lemma parse_lines_app (a b : list string) :
  forall (i : nat) (st : PState),
    parse_lines i (a ++ b)%list st
    = parse_lines (i + List.length a) b (parse_lines i a st).
Proof.
  induction a as [| l a IH]; intros i st; cbn [List.app parse_lines List.length].
  - now rewrite Nat.add_0_r.
  - rewrite IH. f_equal. lia.
Qed.

Lemma trim_empty : trim EmptyString = EmptyString.
Proof. reflexivity. Qed.

(** A blank line between two entries changes nothing that counts. *)
Lemma blank_between (i : nat) (es : list TranslationEntry) (st : PState) :
  between es st -> between es (parse_line i EmptyString st).
Proof.
  intros (He & Hid & Hc & Hh & Hin). unfold parse_line.
  rewrite trim_empty. cbn [classify is_empty].
  destruct (truthy (p_msgid (st_current st)) || truthy (p_msgstr (st_current st))).
  - unfold between, finishEntry. cbn. rewrite Hid. auto.
  - unfold between. auto.
Qed.

Lemma trim_quoted (r : string) :
  exists r', trim (String dquote r) = String dquote r'.
Proof.
  assert (Hq : is_space dquote = false) by reflexivity.
  unfold trim. cbn [trimStart]. rewrite Hq.
  cbn [trimEnd]. destruct (trimEnd r); rewrite ?Hq; eauto.
Qed.

Lemma classify_quoted (r : string) :
  classify (String dquote r) = Continuation
  \/ classify (String dquote r) = Unrecognized.
Proof.
  unfold classify, startsWith. cbn [is_empty].
  rewrite !prefix_cons_neq by reflexivity.
  destruct (prefix quote (String dquote r) && endsWith quote (String dquote r));
    auto.
Qed.

(** A line that starts with a quote, as the header fields do, adds no
    entry. *)
Lemma quoted_between (i : nat) (r : string) (es : list TranslationEntry)
    (st : PState) :
  between es st -> between es (parse_line i (String dquote r) st).
Proof.
  intros (He & Hid & Hc & Hh & Hin). unfold parse_line.
  destruct (trim_quoted r) as [r' ->].
  destruct (classify_quoted r') as [-> | ->]; [| unfold between; auto].
  rewrite Hin. destruct (st_inMsgstr st); unfold between; cbn; auto.
Qed.

Lemma header_lines_between (h : Header) :
  forall (i : nat) (es : list TranslationEntry) (st : PState),
    between es st -> between es (parse_lines i (map header_line h) st).
Proof.
  induction h as [| kv h IH]; intros i es st H; cbn [map parse_lines];
    [exact H |].
  apply IH. unfold header_line, quote. cbn [append].
  now apply quoted_between.
Qed.

Lemma classify_comment (c : string) :
  startsWith "#" c = true -> classify c = Comment.
Proof.
  intros H. unfold classify. rewrite H.
  destruct c; [discriminate | reflexivity].
Qed.

Lemma comments_collected (l : list string) :
  forall (i : nat) (es : list TranslationEntry) (cs : list string)
         (st : PState),
    Forall comment_ok l ->
    collecting es cs st ->
    collecting es (cs ++ l)%list (parse_lines i l st).
Proof.
  induction l as [| c l IH]; intros i es cs st Hl Hst; cbn [parse_lines].
  - now rewrite app_nil_r.
  - inversion Hl as [| ? ? (Hstart & Htrim & _) Hl']; subst.
    replace (cs ++ c :: l)%list with ((cs ++ [c]) ++ l)%list
      by (now rewrite <- app_assoc).
    apply IH; [exact Hl' |].
    destruct Hst as (He & Hid & Hc & Hh).
    unfold parse_line. rewrite Htrim, (classify_comment _ Hstart).
    unfold collecting. cbn. rewrite Hc. auto.
Qed.

Lemma trim_msgid_line (s : string) : trim (msgid_line s) = msgid_line s.
Proof.
  exact (trim_framed "m" dquote
           ("sgid " ++ String dquote (escapeString s)) eq_refl eq_refl).
Qed.

Lemma trim_msgstr_line (s : string) : trim (msgstr_line s) = msgstr_line s.
Proof.
  exact (trim_framed "m" dquote
           ("sgstr " ++ String dquote (escapeString s)) eq_refl eq_refl).
Qed.

Lemma classify_msgid_line (s : string) : classify (msgid_line s) = MsgidLine.
Proof.
  unfold classify, msgid_line, startsWith, quote. cbn [append is_empty].
  rewrite prefix_cons_neq by reflexivity.
  cbn [prefix]. repeat (destruct (ascii_dec _ _); [| congruence]).
  reflexivity.
Qed.

Lemma classify_msgstr_line (s : string) :
  classify (msgstr_line s) = MsgstrLine.
Proof.
  unfold classify, msgstr_line, startsWith, quote. cbn [append is_empty].
  rewrite prefix_cons_neq by reflexivity.
  assert (H1 : prefix "msgid "
                 (String "m" (String "s" (String "g" (String "s"
                    (String "t" (String "r" (String " "
                       (String dquote
                          (escapeString s ++ String dquote EmptyString)))))))))
               = false).
  { cbn [prefix]. repeat (destruct (ascii_dec _ _); try congruence). }
  rewrite H1.
  cbn [prefix]. repeat (destruct (ascii_dec _ _); [| congruence]).
  reflexivity.
Qed.

Lemma parseString_msgid_line (s : string) :
  plain_backslashes s = true ->
  parseString (drop 6 (msgid_line s)) = s.
Proof.
  intros H. unfold msgid_line. cbn [append drop].
  rewrite parseString_quoted, escape_flat. now apply unescape_passes.
Qed.

Lemma parseString_msgstr_line (s : string) :
  plain_backslashes s = true ->
  parseString (drop 7 (msgstr_line s)) = s.
Proof.
  intros H. unfold msgstr_line. cbn [append drop].
  rewrite parseString_quoted, escape_flat. now apply unescape_passes.
Qed.

(** The two fields and the blank line of an entry. *)
Lemma entry_fields_parsed (i : nat) (e : TranslationEntry)
    (es : list TranslationEntry) (cs : list string) (st : PState) :
  msgid e <> EmptyString ->
  plain_backslashes (msgid e) = true ->
  plain_backslashes (msgstr e) = true ->
  collecting es cs st ->
  between
    (es ++ [mkEntry (msgid e) (msgstr e)
              (match cs with [] => None | _ => Some cs end) (Some (i + 1))])
    (parse_lines i [msgid_line (msgid e); msgstr_line (msgstr e); EmptyString]
       st).
Proof.
  intros Hne Hid Hstr (He & Hcur & Hc & Hh). cbn [parse_lines].
  unfold parse_line at 3.
  rewrite trim_msgid_line, classify_msgid_line, parseString_msgid_line, Hh
    by exact Hid.
  cbn [andb].
  unfold parse_line at 2.
  rewrite trim_msgstr_line, classify_msgstr_line, parseString_msgstr_line
    by exact Hstr.
  cbn [st_isHeader st_current p_msgid andb].
  unfold parse_line. rewrite trim_empty. cbn [classify is_empty].
  cbn [st_current p_msgid p_msgstr truthy].
  apply is_empty_false in Hne. rewrite Hne. cbn [negb orb].
  unfold between, finishEntry. cbn.
  rewrite Hne, He, Hc.
  destruct (is_empty (msgstr e)) eqn:Hs.
  - apply is_empty_true in Hs. rewrite Hs. auto.
  - auto.
Qed.

Lemma between_collecting (es : list TranslationEntry) (st : PState) :
  between es st -> collecting es [] st.
Proof. intros (He & Hid & Hc & Hh & _). unfold collecting. auto. Qed.

Lemma comments_back (cs : option (list string)) :
  comments_ok cs ->
  Forall comment_ok (comment_lines cs)
  /\ match comment_lines cs with [] => None | _ => Some (comment_lines cs) end
     = cs.
Proof.
  destruct cs as [l |]; cbn [comments_ok comment_lines].
  - intros [Hne Hl]. split; [exact Hl |]. destruct l; [contradiction | reflexivity].
  - auto.
Qed.

(** The lines of one entry give the entry back, with a line number. *)
Lemma entry_parsed (i : nat) (e : TranslationEntry)
    (es : list TranslationEntry) (st : PState) :
  entry_ok e ->
  between es st ->
  exists e', content e' = content e
             /\ between (es ++ [e'])%list (parse_lines i (entry_lines e) st).
Proof.
  intros (Hne & Hid & Hstr & Hcs) Hst.
  destruct (comments_back _ Hcs) as [Hl Hback].
  unfold entry_lines. rewrite parse_lines_app.
  pose proof (comments_collected (comment_lines (comments e)) i es [] st Hl
                (between_collecting _ _ Hst)) as Hcol.
  cbn [List.app] in Hcol.
  eexists. split; [| apply entry_fields_parsed; eassumption].
  unfold content. cbn. now rewrite Hback.
Qed.

Lemma entries_parsed (es' : list TranslationEntry) :
  forall (i : nat) (es : list TranslationEntry) (st : PState),
    Forall entry_ok es' ->
    between es st ->
    exists es'',
      map content es'' = map content es'
      /\ between (es ++ es'')%list
           (parse_lines i (flat_map entry_lines es') st).
Proof.
  induction es' as [| e es' IH]; intros i es st Hok Hst.
  - exists []. rewrite app_nil_r. auto.
  - inversion Hok as [| ? ? He Hes']; subst.
    cbn [flat_map]. rewrite parse_lines_app.
    destruct (entry_parsed i e es st He Hst) as (e' & Hc & Hb).
    destruct (IH (i + List.length (entry_lines e)) _ _ Hes' Hb)
      as (es'' & Hcs & Hbs).
    exists (e' :: es''). cbn [map]. rewrite Hc, Hcs.
    split; [reflexivity |]. now rewrite <- app_assoc in Hbs.
Qed.

End ParseLines.

Section RoundTrip.
Import JsString WellFormed Escapes PoParser PoParserFold Lines.
Local Open Scope string_scope.

Lemma file_lines_one_line (c : PoFile) :
  header_ok (header c) ->
  Forall entry_ok (entries c) ->
  Forall (fun l => has_char newline l = false) (file_lines c).
Proof.
  intros Hh He. unfold file_lines.
  apply Forall_app. split; [repeat constructor |].
  apply Forall_app. split; [| apply Forall_app; split].
  - apply Forall_map. unfold header_ok in Hh.
    eapply Forall_impl; [| exact Hh]. intros [k v] [Hk Hv].
    unfold header_line, quote. cbn [fst snd] in *.
    rewrite !has_char_app, Hk, Hv. reflexivity.
  - repeat constructor.
  - apply Forall_flat_map.
    eapply Forall_impl; [| exact He]. intros e (_ & _ & _ & Hcs).
    unfold entry_lines. apply Forall_app. split.
    + destruct (comments_back _ Hcs) as [Hl _].
      eapply Forall_impl; [| exact Hl]. now intros l (_ & _ & Hnl).
    + unfold msgid_line, msgstr_line, quote.
      repeat constructor;
        rewrite !has_char_app, escapeString_one_line; reflexivity.
Qed.

(** The lines below the first two: the header fields, a blank line, the
    entries, and the empty last line. *)
Lemma body_parsed (c : PoFile) (i : nat) (st : PState) :
  Forall entry_ok (entries c) ->
  between [] st ->
  exists es'',
    map content es'' = map content (entries c)
    /\ between es''
         (parse_lines i
            (map header_line (header c)
             ++ [EmptyString]
             ++ flat_map entry_lines (entries c)
             ++ [EmptyString])%list
            st).
Proof.
  intros He Hst.
  rewrite !parse_lines_app. cbn [parse_lines].
  pose proof (header_lines_between (header c) i [] st Hst) as H1.
  set (st3 := parse_lines i (map header_line (header c)) st) in *.
  set (i3 := (i + List.length (map header_line (header c)))%nat).
  pose proof (blank_between i3 [] st3 H1) as H2.
  set (st4 := parse_line i3 EmptyString st3) in *.
  destruct (entries_parsed (entries c) (i3 + List.length [EmptyString]) []
              st4 He H2)
    as (es'' & Hcontent & H3).
  exists es''. split; [exact Hcontent |].
  now apply blank_between.
Qed.

(** The first two lines set the header and leave the parser between two
    entries; the lines below give the entries. *)
Lemma roundtrip_content (c : PoFile) :
  header_ok (header c) ->
  Forall entry_ok (entries c) ->
  exists po : PoFile,
    parse (serialize c) = Ok po
    /\ map content (entries po) = map content (entries c)
    /\ header po = [].
Proof.
  intros Hh He.
  rewrite parse_as_fold, serialize_unlines,
    (split_unlines _ (file_lines_one_line c Hh He)).
  eexists. split; [reflexivity |].
  unfold file_lines. rewrite <- !app_assoc. cbn [List.app parse_lines].
  assert (Hst : between []
                  (parse_line 1 ("msgstr " ++ quote ++ quote)
                     (parse_line 0 ("msgid " ++ quote ++ quote) init_state))
                /\ st_header
                     (parse_line 1 ("msgstr " ++ quote ++ quote)
                        (parse_line 0 ("msgid " ++ quote ++ quote)
                           init_state)) = [])
    by (vm_compute; auto 10).
  set (st2 := parse_line 1 _ _) in *. destruct Hst as [Hst Hhd2].
  destruct (body_parsed c 2 st2 He Hst) as (es'' & Hcontent & Hfinal).
  assert (Hheader :
            st_header
              (parse_lines 2
                 (map header_line (header c)
                  ++ [EmptyString]
                  ++ flat_map entry_lines (entries c)
                  ++ [EmptyString])%list
                 st2) = []).
  { rewrite header_settled_lines; [exact Hhd2 | apply Hst]. }
  set (final := parse_lines 2 _ st2) in *.
  destruct Hfinal as (Hes & Hid & _).
  unfold finish. cbn [entries header]. rewrite Hheader.
  split; [| reflexivity].
  destruct (_ || _); [| now rewrite Hes].
  unfold finishEntry. now rewrite Hid, Hes.
Qed.

(** The entries of a well-formed catalog come back from a round trip in
    order, each with its source id, its translation and its comments; the
    header does not. *)
Theorem roundtrip_entries (c : PoFile) :
  header_ok (header c) ->
  Forall entry_ok (entries c) ->
  exists po : PoFile,
    parse (serialize c) = Ok po
    /\ map content (entries po) = map content (entries c)
    /\ header po = [].
Proof. exact (roundtrip_content c). Qed.

Lemma roundtrip_entries_witness :
  exists po : PoFile,
    parse (serialize Inputs.catalog_with_header) = Ok po
    /\ map content (entries po)
       = map content (entries Inputs.catalog_with_header)
    /\ header po = [].
Proof.
  apply (roundtrip_entries Inputs.catalog_with_header).
  - repeat constructor.
  - repeat constructor. discriminate.
Defined.

End RoundTrip.

(** ** The rate limiter *)

Section Limiter.

Import RateLimiter Calls Inputs.
Local Open Scope Z_scope.

(** The constructor never turns adaptive mode off. *)
Lemma constructor_ignores_toggle (cfg : Config.t) :
  adaptiveMode (new cfg) = true.
Proof.
  unfold new, bool_or. simpl.
  destruct (Config.adaptiveRateLimit cfg) as [[|] |]; reflexivity.
Qed.

(** [floor_times_08 n] is the floor of eight tenths of [n]. *)
Lemma floor_times_08_floor (n : Z) :
  (inject_Z (floor_times_08 n) <= inject_Z n * (8 # 10))%Q
  /\ (inject_Z n * (8 # 10) < inject_Z (floor_times_08 n) + 1)%Q.
Proof.
  unfold floor_times_08, Qle, Qlt. simpl.
  pose proof (Z.div_mod (n * 8) 10 ltac:(lia)).
  pose proof (Z.mod_pos_bound (n * 8) 10 ltac:(lia)).
  split; lia.
Qed.

(** C3 (adaptive toggle), where the code departs from it.  With
    [--no-adaptive-rate-limit] the configuration carries
    [adaptiveRateLimit = false], and the limiter built from it is adaptive
    all the same: a throttling-shaped error doubles its delay from 1000 to
    2000 and lowers its ceiling from 10 to 8.  No configuration builds a
    limiter whose adaptive mode is off. *)
Theorem toggle_off_still_adapts :
  Config.adaptiveRateLimit (Cli.config_of options_no_adaptive) = Some false
  /\ adaptiveMode (new (Cli.config_of options_no_adaptive)) = true
  /\ currentDelay (new (Cli.config_of options_no_adaptive)) = 1000%Q
  /\ maxConcurrentRequests (new (Cli.config_of options_no_adaptive)) = 10
  /\ handleRateLimit too_many_requests
       (new (Cli.config_of options_no_adaptive))
     = (tighten (new (Cli.config_of options_no_adaptive)), true)
  /\ currentDelay (tighten (new (Cli.config_of options_no_adaptive)))
     = 2000%Q
  /\ maxConcurrentRequests (tighten (new (Cli.config_of options_no_adaptive)))
     = 8
  /\ (forall cfg : Config.t, adaptiveMode (new cfg) = true).
Proof.
  repeat split; try (vm_compute; reflexivity).
  apply constructor_ignores_toggle.
Qed.

Lemma tighten_bounded (l : RateLimiter.t) :
  bounded l -> bounded (tighten l).
Proof.
  unfold bounded, tighten. simpl. intros (Hb & Hlo & Hhi & Hc).
  repeat split; trivial.
  - apply Q.min_glb; lra.
  - apply Q.le_min_r.
  - apply Z.le_max_l.
Qed.

Lemma handleSuccess_bounded (l : RateLimiter.t) :
  bounded l -> bounded (handleSuccess l).
Proof.
  unfold bounded, handleSuccess. intros (Hb & Hlo & Hhi & Hc).
  destruct (adaptiveMode l && Qgtb (currentDelay l) (baseDelay l)); simpl.
  - repeat split; trivial.
    + apply Q.le_max_l.
    + apply Q.max_lub; lra.
  - repeat split; trivial.
Qed.

Lemma call_bounded (c : Call) (l : RateLimiter.t) :
  bounded l -> bounded (call c l).
Proof.
  intros H. destruct c as [e |]; simpl.
  - unfold handleRateLimit. simpl.
    destruct (isRateLimitError e && adaptiveMode l);
      [apply tighten_bounded |]; exact H.
  - apply handleSuccess_bounded, H.
Qed.

Lemma run_bounded (cs : list Call) :
  forall l : RateLimiter.t, bounded l -> bounded (run cs l).
Proof.
  induction cs as [| c cs IH]; intros l H; simpl.
  - exact H.
  - apply IH, call_bounded, H.
Qed.

(** C4 (adaptive bounds), as the code has them.  For a limiter built from a
    configuration whose base delay is positive and at most 30000 ms and
    whose concurrency ceiling is at least 1, after every sequence of
    [handleRateLimit] and [handleSuccess] calls the delay is at most
    30000 ms, the ceiling is at least 1 and the delay is at least the base
    delay. *)
Theorem adaptive_bounds (cfg : Config.t) (cs : list Call) :
  (0 < baseDelay (new cfg))%Q ->
  (baseDelay (new cfg) <= 30000)%Q ->
  1 <= maxConcurrentRequests (new cfg) ->
  Spec.within_bounds (run cs (new cfg)).
Proof.
  intros Hpos Hmax Hc.
  assert (Hinit : bounded (new cfg)).
  { unfold bounded. repeat split; trivial. simpl. apply Qle_refl. }
  destruct (run_bounded cs _ Hinit) as (_ & Hlo & Hhi & Hceil).
  unfold Spec.within_bounds. auto.
Qed.

Lemma adaptive_bounds_witness :
  Spec.within_bounds
    (run [HandleRateLimit too_many_requests; HandleSuccess;
          HandleRateLimit too_many_requests]
       (new (Cli.config_of no_options))).
Proof.
  apply (adaptive_bounds (Cli.config_of no_options));
    vm_compute; congruence.
Defined.

(** C4, as the specification states it, fails.  With a base delay of
    60000 ms the delay starts above 30000 ms, and one throttling-shaped
    error brings it to 30000 ms, below the base delay; with a configured
    ceiling of 0 the ceiling starts below 1; with a negative base delay
    the doubled delay falls below the base delay. *)
Lemma bounds_fail_outside_the_range :
  (30000 < currentDelay (run [] (new (Cli.config_of options_delay_60000))))%Q
  /\ (currentDelay
        (run [HandleRateLimit too_many_requests]
           (new (Cli.config_of options_delay_60000)))
      < baseDelay
          (run [HandleRateLimit too_many_requests]
             (new (Cli.config_of options_delay_60000))))%Q
  /\ maxConcurrentRequests
       (run [] (new (Cli.config_of options_max_concurrent_0))) < 1
  /\ (currentDelay
        (run [HandleRateLimit too_many_requests]
           (new (Cli.config_of options_delay_negative)))
      < baseDelay
          (run [HandleRateLimit too_many_requests]
             (new (Cli.config_of options_delay_negative))))%Q.
Proof. vm_compute. repeat split. Qed.

(** The step that returns takes one slot and records one time. *)
Lemma resume_takes_one_slot (t0 : Z) (pc : Pc) (l l' : RateLimiter.t) :
  pc <> Holding ->
  resume t0 pc l = (l', Holding) ->
  activeRequests l' = activeRequests l + 1
  /\ exists ts, requestTimes l' = ts ++ [t0] /\ incl ts (requestTimes l).
Proof.
  intros Hpc H.
  assert (Hcommit : forall l0, incl (requestTimes l0) (requestTimes l) ->
            activeRequests l0 = activeRequests l ->
            commit t0 l0 = (l', Holding) ->
            activeRequests l' = activeRequests l + 1
            /\ exists ts, requestTimes l' = ts ++ [t0]
                          /\ incl ts (requestTimes l)).
  { intros l0 Hincl Hact Hc. unfold commit in Hc. inversion Hc; subst; simpl.
    split; [lia | eauto]. }
  assert (Hdelay : forall l0, incl (requestTimes l0) (requestTimes l) ->
            activeRequests l0 = activeRequests l ->
            apply_delay t0 l0 = (l', Holding) ->
            activeRequests l' = activeRequests l + 1
            /\ exists ts, requestTimes l' = ts ++ [t0]
                          /\ incl ts (requestTimes l)).
  { intros l0 Hincl Hact Hd. unfold apply_delay in Hd.
    destruct (Qgtb (currentDelay l0) 0); [discriminate | eauto]. }
  assert (Hsecond : forall now0 l0, incl (requestTimes l0) (requestTimes l) ->
            activeRequests l0 = activeRequests l ->
            check_second now0 t0 l0 = (l', Holding) ->
            activeRequests l' = activeRequests l + 1
            /\ exists ts, requestTimes l' = ts ++ [t0]
                          /\ incl ts (requestTimes l)).
  { intros now0 l0 Hincl Hact Hs. unfold check_second in Hs.
    destruct (_ >=? _); [discriminate | eauto]. }
  assert (Henter : enter t0 l = (l', Holding) ->
            activeRequests l' = activeRequests l + 1
            /\ exists ts, requestTimes l' = ts ++ [t0]
                          /\ incl ts (requestTimes l)).
  { unfold enter, check_minute. intros He.
    destruct (activeRequests l >=? maxConcurrentRequests l); [discriminate |].
    destruct (_ >=? _); [discriminate |].
    apply Hsecond in He; trivial.
    simpl. apply incl_filter. }
  destruct pc; simpl in H;
    [ apply Henter; exact H
    | apply Henter; exact H
    | eapply Hsecond; eauto using incl_refl
    | eapply Hdelay; eauto using incl_refl
    | eapply Hcommit; eauto using incl_refl
    | contradiction
    | discriminate ].
Qed.

Lemma resume_takes_one_slot_witness :
  activeRequests
    (fst (resume 1000 (SleepingForDelay 1000)
            (new (Cli.config_of no_options))))
  = activeRequests (new (Cli.config_of no_options)) + 1
  /\ exists ts,
       requestTimes
         (fst (resume 1000 (SleepingForDelay 1000)
                 (new (Cli.config_of no_options))))
       = ts ++ [1000]
       /\ incl ts (requestTimes (new (Cli.config_of no_options))).
Proof.
  apply (resume_takes_one_slot 1000 (SleepingForDelay 1000)
           (new (Cli.config_of no_options))).
  - discriminate.
  - reflexivity.
Defined.

(** C5 (gating), where the code departs from it.  The in-flight count is
    tested before the waits and the slot is taken after them, with no test
    in between.  Under a ceiling of 1, two calls made in the same turn both
    pass the test, both wait the delay of 1000 ms, and both return: two
    calls hold a slot, and the in-flight count is 2. *)
Theorem two_calls_overshoot_the_ceiling :
  exists w : Loop,
    exec both_run two_calls = Some w
    /\ maxConcurrentRequests (limiter w) = 1
    /\ tasks w = [Holding; Holding]
    /\ holders w = 2
    /\ activeRequests (limiter w) = 2
    /\ requestTimes (limiter w) = [1000; 1000].
Proof. eexists. vm_compute. repeat split. Qed.

(** C10 (falsy defaults): a batch size, a base delay or a retry count of 0
    reads as 10, 1000 ms and 3, in the orchestrator, in the limiter and on
    the command line, and none of the three is ever 0. *)
Theorem zero_reads_as_default (cfg : Config.t) (options : Cli.Options) :
  (Config.batchSize cfg = Some (Num 0) -> Translator.batchSize_of cfg = 10)
  /\ (Config.maxRetries cfg = Some (Num 0) -> Translator.maxRetries_of cfg = 3)
  /\ (Config.delay cfg = Some (Num 0) ->
      baseDelay (new cfg) = 1000%Q /\ currentDelay (new cfg) = 1000%Q
      /\ Translator.averageDelay (Translator.progress (Translator.new cfg))
         = Some 1000)
  /\ (Cli.batchSize options = Some (Num 0) ->
      Config.batchSize (Cli.config_of options) = Some (Num 10))
  /\ (Cli.maxRetries options = Some (Num 0) ->
      Config.maxRetries (Cli.config_of options) = Some (Num 3))
  /\ (Cli.delay options = Some (Num 0) ->
      Config.delay (Cli.config_of options) = Some (Num 1000))
  /\ Translator.batchSize_of cfg <> 0
  /\ Translator.maxRetries_of cfg <> 0
  /\ baseDelay (new cfg) <> 0%Q.
Proof.
  unfold Translator.batchSize_of, Translator.maxRetries_of, new,
    Translator.new, Cli.config_of, num_or. simpl.
  repeat split.
  - intros H; rewrite H; reflexivity.
  - intros H; rewrite H; reflexivity.
  - rewrite H; reflexivity.
  - rewrite H; reflexivity.
  - rewrite H; reflexivity.
  - intros H; rewrite H; reflexivity.
  - intros H; rewrite H; reflexivity.
  - intros H; rewrite H; reflexivity.
  - destruct (Config.batchSize cfg) as [[| z] |]; try discriminate.
    destruct (Z.eqb_spec z 0); [discriminate | assumption].
  - destruct (Config.maxRetries cfg) as [[| z] |]; try discriminate.
    destruct (Z.eqb_spec z 0); [discriminate | assumption].
  - destruct (Config.delay cfg) as [[| z] |]; try discriminate.
    destruct (Z.eqb_spec z 0); [discriminate |].
    unfold inject_Z. congruence.
Qed.

Lemma zero_reads_as_default_witness :
  Translator.batchSize_of config_zeros = 10
  /\ Translator.maxRetries_of config_zeros = 3
  /\ baseDelay (new config_zeros) = 1000%Q
  /\ Config.batchSize (Cli.config_of options_zeros) = Some (Num 10).
Proof.
  pose proof (zero_reads_as_default config_zeros options_zeros)
    as (Hb & Hr & Hd & Hcb & _).
  split; [apply Hb; reflexivity |].
  split; [apply Hr; reflexivity |].
  split; [apply Hd; reflexivity | apply Hcb; reflexivity].
Defined.

End Limiter.

(** ** The orchestrator *)

Section Orchestrator.

Import Translator Runs Inputs Slots Cases.
Local Open Scope Z_scope.
Local Arguments Z.of_nat : simpl never.
Local Arguments Z.mul : simpl never.
Local Arguments Z.pow : simpl never.
Local Arguments bar_fails : simpl never.

Ltac run_attempt :=
  repeat progress
    unfold attempt, try_block, catch_block, try_catch, try_finally, bind, get,
      ret, throw, modify, emit, await, printProgress, acquireToken,
      releaseToken, handleSuccess, handleRateLimit, provider_translate,
      sleep, save, bun_write;
  simpl.

Lemma acquire_step (env : Env) (n : nat) (fuel turn : nat)
    (pc : RateLimiter.Pc) (w : World) :
  acquire env n fuel turn pc w
  = let w1 :=
      with_the_limiter
        (fst (RateLimiter.resume (RateLimiter.not_before pc (now env n turn))
                pc (rateLimiter (self w)))) w in
    let pc' :=
      snd (RateLimiter.resume (RateLimiter.not_before pc (now env n turn))
             pc (rateLimiter (self w))) in
    if RateLimiter.is_holding pc' then (w1, Some (Ok tt))
    else match fuel with
         | O => (w1, None)
         | S fuel' =>
             acquire env n fuel' (S turn) pc'
               (mkWorld (others env n (AwaitAcquire turn) (self w1))
                  (events w1))
         end.
Proof.
  destruct fuel; cbn [acquire];
    destruct (RateLimiter.resume _ pc (rateLimiter (self w)));
    reflexivity.
Qed.

Local Arguments acquire : simpl never.

(** A call of [acquireToken] returns or stays asleep: it throws
    nothing, and it adds no event. *)
Lemma acquire_never_throws (env : Env) (n : nat) :
  forall (fuel turn : nat) (pc : RateLimiter.Pc) (w : World),
    (snd (acquire env n fuel turn pc w) = None
     \/ snd (acquire env n fuel turn pc w) = Some (Ok tt))
    /\ events (fst (acquire env n fuel turn pc w)) = events w.
Proof.
  induction fuel as [| fuel IH]; intros turn pc w; rewrite acquire_step;
    cbv zeta;
    destruct (RateLimiter.is_holding _); cbn [fst snd events]; auto.
  destruct (IH (S turn)
              (snd (RateLimiter.resume
                      (RateLimiter.not_before pc (now env n turn)) pc
                      (rateLimiter (self w))))
              (mkWorld
                 (others env n (AwaitAcquire turn)
                    (self (with_the_limiter
                             (fst (RateLimiter.resume
                                     (RateLimiter.not_before pc (now env n turn))
                                     pc (rateLimiter (self w)))) w)))
                 (events w))) as [H1 H2].
  split; [exact H1 | exact H2].
Qed.








Lemma allSettled_settles (rs : list Settled) :
  allSettled rs = Fulfilled \/ allSettled rs = Pending.
Proof. unfold allSettled. destruct (existsb is_pending rs); auto. Qed.

(** *** A task that runs alone *)

Lemma took_slot_commit (t0 : Z) (l : RateLimiter.t) :
  took_slot l (fst (RateLimiter.commit t0 l)).
Proof. repeat split. Qed.

Lemma acquire_from_delay (env : Env) (n : nat) (fuel turn : nat) (wake : Q)
    (w : World) :
  exists l' : RateLimiter.t,
    acquire env n fuel turn (RateLimiter.SleepingForDelay wake) w
    = (with_the_limiter l' w, Some (Ok tt))
    /\ took_slot (rateLimiter (self w)) l'.
Proof.
  rewrite acquire_step. cbn [RateLimiter.resume].
  eexists. split; [reflexivity | apply took_slot_commit].
Qed.

Lemma acquire_apply_delay (env : Env) (n : nat) (fuel turn : nat)
    (t0 : Z) (l : RateLimiter.t) (w : World) :
  quiet env ->
  exists l' : RateLimiter.t,
    (if RateLimiter.is_holding (snd (RateLimiter.apply_delay t0 l))
     then (with_the_limiter (fst (RateLimiter.apply_delay t0 l)) w,
           Some (Ok tt))
     else acquire env n fuel (S turn) (snd (RateLimiter.apply_delay t0 l))
            (mkWorld
               (others env n (AwaitAcquire turn)
                  (self (with_the_limiter
                           (fst (RateLimiter.apply_delay t0 l)) w)))
               (events w)))
    = (with_the_limiter l' w, Some (Ok tt))
    /\ took_slot l l'.
Proof.
  intros Hq. unfold RateLimiter.apply_delay.
  destruct (RateLimiter.Qgtb (RateLimiter.currentDelay l) 0);
    cbn [fst snd RateLimiter.is_holding RateLimiter.commit].
  - rewrite Hq.
    destruct (acquire_from_delay env n fuel (S turn)
                (inject_Z t0 + RateLimiter.currentDelay l)%Q
                (with_the_limiter l w)) as (l' & H & Ht).
    exists l'. split; [exact H | exact Ht].
  - eexists. split; [reflexivity | apply took_slot_commit].
Qed.

Lemma acquire_from_second (env : Env) (n : nat) (fuel turn : nat) (wake : Q)
    (w : World) :
  quiet env ->
  (1 <= fuel)%nat ->
  exists l' : RateLimiter.t,
    acquire env n fuel turn (RateLimiter.SleepingForSecond wake) w
    = (with_the_limiter l' w, Some (Ok tt))
    /\ took_slot (rateLimiter (self w)) l'.
Proof.
  intros Hq Hfuel. destruct fuel as [| fuel]; [lia |].
  rewrite acquire_step. cbn [RateLimiter.resume]. cbv zeta.
  apply (acquire_apply_delay env n fuel turn _ _ w Hq).
Qed.

Lemma acquire_check_second (env : Env) (n : nat) (fuel turn : nat)
    (now0 t0 : Z) (l : RateLimiter.t) (w : World) :
  quiet env ->
  (1 <= fuel)%nat ->
  exists l' : RateLimiter.t,
    (if RateLimiter.is_holding (snd (RateLimiter.check_second now0 t0 l))
     then (with_the_limiter (fst (RateLimiter.check_second now0 t0 l)) w,
           Some (Ok tt))
     else acquire env n fuel (S turn)
            (snd (RateLimiter.check_second now0 t0 l))
            (mkWorld
               (others env n (AwaitAcquire turn)
                  (self (with_the_limiter
                           (fst (RateLimiter.check_second now0 t0 l)) w)))
               (events w)))
    = (with_the_limiter l' w, Some (Ok tt))
    /\ took_slot l l'.
Proof.
  intros Hq Hfuel. unfold RateLimiter.check_second.
  destruct (_ >=? RateLimiter.requestsPerSecond l);
    cbn [fst snd RateLimiter.is_holding].
  - rewrite Hq.
    destruct (acquire_from_second env n fuel (S turn)
                (inject_Z
                   (t0 + RateLimiter.wait_for now0 1000
                           (hd_error
                              (filter (RateLimiter.within now0 1000)
                                 (RateLimiter.requestTimes l)))))
                (with_the_limiter l w) Hq Hfuel) as (l' & H & Ht).
    exists l'. split; [exact H | exact Ht].
  - destruct fuel as [| fuel]; [lia |].
    destruct (acquire_apply_delay env n (S fuel) turn t0 l w Hq)
      as (l' & H & Ht).
    exists l'. split; [exact H | exact Ht].
Qed.

Lemma acquire_from_minute (env : Env) (n : nat) (fuel turn : nat)
    (now0 : Z) (wake : Q) (w : World) :
  quiet env ->
  (2 <= fuel)%nat ->
  exists l' : RateLimiter.t,
    acquire env n fuel turn (RateLimiter.SleepingForMinute now0 wake) w
    = (with_the_limiter l' w, Some (Ok tt))
    /\ took_slot (rateLimiter (self w)) l'.
Proof.
  intros Hq Hfuel. destruct fuel as [| fuel]; [lia |].
  rewrite acquire_step. cbn [RateLimiter.resume]. cbv zeta.
  apply (acquire_check_second env n fuel turn _ _ _ w Hq). lia.
Qed.

(** With a slot free, a call that nothing interferes with returns after
    three sleeps at most, and has taken one slot. *)
Lemma acquire_open (env : Env) (n : nat) (fuel : nat) (w : World) :
  quiet env ->
  (3 <= fuel)%nat ->
  active w < ceiling w ->
  exists l' : RateLimiter.t,
    acquire env n fuel 0 RateLimiter.AtEntry w
    = (with_the_limiter l' w, Some (Ok tt))
    /\ took_slot (rateLimiter (self w)) l'.
Proof.
  intros Hq Hfuel Hfree. unfold active, ceiling in Hfree.
  destruct fuel as [| fuel]; [lia |].
  rewrite acquire_step. cbn [RateLimiter.resume RateLimiter.not_before].
  cbv zeta. unfold RateLimiter.enter.
  destruct (Z.geb_spec (RateLimiter.activeRequests (rateLimiter (self w)))
              (RateLimiter.maxConcurrentRequests (rateLimiter (self w))))
    as [Hge | Hlt]; [lia |].
  unfold RateLimiter.check_minute. cbv zeta.
  set (l1 := RateLimiter.set_requestTimes _ (rateLimiter (self w))).
  destruct (_ >=? RateLimiter.requestsPerMinute l1);
    cbn [fst snd RateLimiter.is_holding].
  - rewrite Hq.
    destruct (acquire_from_minute env n fuel 1 (now env n 0)
                (inject_Z
                   (now env n 0
                    + RateLimiter.wait_for (now env n 0) 60000
                        (hd_error (RateLimiter.requestTimes l1))))
                (with_the_limiter l1 w) Hq ltac:(lia)) as (l' & H & Ht).
    exists l'. split; [exact H | exact Ht].
  - destruct (acquire_check_second env n fuel 0 (now env n 0)
                (now env n 0) l1 w Hq ltac:(lia)) as (l' & H & Ht).
    exists l'. split; [exact H | exact Ht].
Qed.


Ltac take_slot Hq Hfuel Hfree :=
  match goal with
  | |- context [acquire ?env ?n ?f 0 RateLimiter.AtEntry ?w0] =>
      let l' := fresh "l'" in
      let Hacq := fresh "Hacq" in
      let Ht := fresh "Htook" in
      destruct (acquire_open env n f w0 Hq Hfuel Hfree) as (l' & Hacq & Ht);
      rewrite Hacq; simpl
  end.

Ltac bar_is b H :=
  match goal with
  | |- context [bar_fails ?p] =>
      replace (bar_fails p) with b by (symmetry; exact H); simpl
  end.

(** The attempt ends at its first [printProgress] when the bar cannot be
    drawn: nothing is asked of the limiter or of the capability. *)
Lemma try_block_no_bar (env : Env) (k retries : nat) (w : World) :
  bar_fails (progress (self w)) = true ->
  exists w1 : World,
    try_block env k retries w = (w1, Some (Throw range_error))
    /\ config (self w1) = config (self w)
    /\ poFile (self w1) = poFile (self w)
    /\ outputPath (self w1) = outputPath (self w)
    /\ rateLimiter (self w1) = rateLimiter (self w)
    /\ total (progress (self w1)) = total (progress (self w))
    /\ completed (progress (self w1)) = completed (progress (self w))
    /\ failed (progress (self w1)) = failed (progress (self w))
    /\ events w1 = events w.
Proof.
  intros Hbar. run_attempt. bar_is true Hbar.
  eexists. repeat split.
Qed.


(** The attempt throws what the capability throws, with the slot taken
    and released. *)
Lemma try_block_throws (env : Env) (k retries : nat) (w : World)
    (error : JsError) :
  quiet env ->
  (3 <= patience env)%nat ->
  bar_fails (progress (self w)) = false ->
  active w < ceiling w ->
  outcome env retries = Throw error ->
  exists w1 : World,
    try_block env k retries w = (w1, Some (Throw error))
    /\ config (self w1) = config (self w)
    /\ poFile (self w1) = poFile (self w)
    /\ outputPath (self w1) = outputPath (self w)
    /\ total (progress (self w1)) = total (progress (self w))
    /\ completed (progress (self w1)) = completed (progress (self w))
    /\ failed (progress (self w1)) = failed (progress (self w))
    /\ active w1 = Z.max 0 (active w)
    /\ ceiling w1 = ceiling w
    /\ events w1
       = events w
         ++ [Translate (msgid (entry_at k (self w)))
               (Config.targetLanguage (config (self w)))
               (context_of (entry_at k (self w)))].
Proof.
  intros Hq Hfuel Hbar Hfree Hout. run_attempt. bar_is false Hbar.
  take_slot Hq Hfuel Hfree. rewrite !Hq. simpl. rewrite Hout. simpl.
  destruct Htook as (Ha & Hc & _). simpl in Ha, Hc.
  eexists. split; [reflexivity |]. unfold active, ceiling. simpl.
  repeat split; trivial. rewrite Ha. f_equal. lia.
Qed.

(** The attempt that is answered: the answer is stored, the entry
    counted and the catalog written, when the bar can be drawn with the
    new count. *)
Lemma try_block_answers (env : Env) (k retries : nat) (w : World)
    (text : string) :
  quiet env ->
  (3 <= patience env)%nat ->
  bar_fails (progress (self w)) = false ->
  bar_fails (incr_completed (progress (self w))) = false ->
  active w < ceiling w ->
  outcome env retries = Ok text ->
  exists w1 : World,
    try_block env k retries w = (w1, Some (Ok Return))
    /\ config (self w1) = config (self w)
    /\ poFile (self w1) = poFile (set_msgstr k text (self w))
    /\ outputPath (self w1) = outputPath (self w)
    /\ total (progress (self w1)) = total (progress (self w))
    /\ completed (progress (self w1)) = completed (progress (self w)) + 1
    /\ failed (progress (self w1)) = failed (progress (self w))
    /\ active w1 = Z.max 0 (active w)
    /\ ceiling w1 = ceiling w
    /\ events w1
       = events w
         ++ [Translate (msgid (entry_at k (self w)))
               (Config.targetLanguage (config (self w)))
               (context_of (entry_at k (self w)));
             written env (self w1)].
Proof.
  intros Hq Hfuel Hbar Hbar' Hfree Hout. run_attempt. bar_is false Hbar.
  take_slot Hq Hfuel Hfree. rewrite !Hq. simpl. rewrite Hout. simpl.
  bar_is false Hbar'.
  destruct Htook as (Ha & Hc & _). simpl in Ha, Hc.
  assert (Hs : forall l,
             RateLimiter.activeRequests (RateLimiter.handleSuccess l)
             = RateLimiter.activeRequests l
             /\ RateLimiter.maxConcurrentRequests (RateLimiter.handleSuccess l)
                = RateLimiter.maxConcurrentRequests l).
  { intros l. unfold RateLimiter.handleSuccess.
    destruct (_ && _); split; reflexivity. }
  destruct (Hs l') as [Hs1 Hs2].
  unfold written, active, ceiling.
  destruct (write_error env); simpl; rewrite ?Hq; simpl;
    (eexists; split; [reflexivity |]); simpl;
    rewrite Hs1, Hs2, Ha, Hc, <- app_assoc;
    repeat split; trivial; f_equal; lia.
Qed.

(** The attempt that is answered when the bar cannot be drawn with the
    new count: the answer is stored and the entry counted, and then
    [printProgress] throws, so that nothing is written and the [catch]
    block takes the attempt for a failed one. *)
Lemma try_block_answer_lost (env : Env) (k retries : nat) (w : World)
    (text : string) :
  quiet env ->
  (3 <= patience env)%nat ->
  bar_fails (progress (self w)) = false ->
  bar_fails (incr_completed (progress (self w))) = true ->
  active w < ceiling w ->
  outcome env retries = Ok text ->
  exists w1 : World,
    try_block env k retries w = (w1, Some (Throw range_error))
    /\ config (self w1) = config (self w)
    /\ poFile (self w1) = poFile (set_msgstr k text (self w))
    /\ outputPath (self w1) = outputPath (self w)
    /\ total (progress (self w1)) = total (progress (self w))
    /\ completed (progress (self w1)) = completed (progress (self w)) + 1
    /\ failed (progress (self w1)) = failed (progress (self w))
    /\ active w1 = Z.max 0 (active w)
    /\ ceiling w1 = ceiling w
    /\ events w1
       = events w
         ++ [Translate (msgid (entry_at k (self w)))
               (Config.targetLanguage (config (self w)))
               (context_of (entry_at k (self w)))].
Proof.
  intros Hq Hfuel Hbar Hbar' Hfree Hout. run_attempt. bar_is false Hbar.
  take_slot Hq Hfuel Hfree. rewrite !Hq. simpl. rewrite Hout. simpl.
  bar_is true Hbar'.
  destruct Htook as (Ha & Hc & _). simpl in Ha, Hc.
  assert (Hs : forall l,
             RateLimiter.activeRequests (RateLimiter.handleSuccess l)
             = RateLimiter.activeRequests l
             /\ RateLimiter.maxConcurrentRequests (RateLimiter.handleSuccess l)
                = RateLimiter.maxConcurrentRequests l).
  { intros l. unfold RateLimiter.handleSuccess.
    destruct (_ && _); split; reflexivity. }
  destruct (Hs l') as [Hs1 Hs2].
  unfold active, ceiling.
  eexists. split; [reflexivity |]. simpl.
  rewrite Hs1, Hs2, Ha, Hc. repeat split; trivial. f_equal. lia.
Qed.

(** The [catch] block after a throttling-shaped error. *)
Lemma catch_block_throttled (env : Env) (k : nat) (maxRetries : Z)
    (retries : nat) (error : JsError) (w : World) :
  quiet env ->
  RateLimiter.isRateLimitError error = true ->
  exists w' : World,
    catch_block env k maxRetries retries error w
    = (w', Some (Ok (Next (S retries))))
    /\ config (self w') = config (self w)
    /\ poFile (self w') = poFile (self w)
    /\ outputPath (self w') = outputPath (self w)
    /\ total (progress (self w')) = total (progress (self w))
    /\ completed (progress (self w')) = completed (progress (self w))
    /\ failed (progress (self w')) = failed (progress (self w))
    /\ active w' = Z.max 0 (active w - 1)
    /\ (1 <= ceiling w -> 1 <= ceiling w')
    /\ events w' = events w ++ [Sleep (waitTime error retries)].
Proof.
  intros Hq Hrl. run_attempt. rewrite Hrl. simpl. rewrite !Hq. simpl.
  eexists. split; [reflexivity |]. unfold active, ceiling. simpl.
  repeat split; trivial;
    destruct (RateLimiter.adaptiveMode (rateLimiter (self w))); simpl;
    trivial; lia.
Qed.

(** The [catch] block after another error, when attempts remain. *)
Lemma catch_block_generic (env : Env) (k : nat) (maxRetries : Z)
    (retries : nat) (error : JsError) (w : World) :
  quiet env ->
  RateLimiter.isRateLimitError error = false ->
  Z.of_nat retries + 1 < maxRetries ->
  exists w' : World,
    catch_block env k maxRetries retries error w
    = (w', Some (Ok (Next (S retries))))
    /\ config (self w') = config (self w)
    /\ poFile (self w') = poFile (self w)
    /\ outputPath (self w') = outputPath (self w)
    /\ total (progress (self w')) = total (progress (self w))
    /\ completed (progress (self w')) = completed (progress (self w))
    /\ failed (progress (self w')) = failed (progress (self w))
    /\ active w' = Z.max 0 (active w - 1)
    /\ ceiling w' = ceiling w
    /\ events w' = events w ++ [Sleep (2000 * (Z.of_nat retries + 1))].
Proof.
  intros Hq Hrl Hmore. run_attempt. rewrite Hrl. simpl.
  replace (Z.of_nat (S retries)) with (Z.of_nat retries + 1) by lia.
  destruct (Z.ltb_spec (Z.of_nat retries + 1) maxRetries); [| lia].
  simpl. rewrite !Hq. simpl.
  eexists. split; [reflexivity |]. repeat split.
Qed.

(** The [catch] block after another error in the last attempt of the
    budget: the source id is copied through, the entry counted as failed
    and the catalog written. *)
Lemma catch_block_last (env : Env) (k : nat) (maxRetries : Z)
    (retries : nat) (error : JsError) (w : World) :
  quiet env ->
  RateLimiter.isRateLimitError error = false ->
  maxRetries <= Z.of_nat retries + 1 ->
  exists w' : World,
    catch_block env k maxRetries retries error w = (w', Some (Ok Return))
    /\ config (self w') = config (self w)
    /\ poFile (self w') = copied_through k (self w)
    /\ outputPath (self w') = outputPath (self w)
    /\ total (progress (self w')) = total (progress (self w))
    /\ completed (progress (self w')) = completed (progress (self w))
    /\ failed (progress (self w')) = failed (progress (self w)) + 1
    /\ active w' = Z.max 0 (active w - 1)
    /\ ceiling w' = ceiling w
    /\ events w' = events w ++ [written env (self w')].
Proof.
  intros Hq Hrl Hlast. run_attempt. rewrite Hrl. simpl.
  replace (Z.of_nat (S retries)) with (Z.of_nat retries + 1) by lia.
  destruct (Z.ltb_spec (Z.of_nat retries + 1) maxRetries); [lia |].
  unfold written, copied_through.
  destruct (write_error env); simpl; rewrite ?Hq; simpl;
    eexists; (split; [reflexivity |]); repeat split.
Qed.

Lemma range_error_is_generic :
  RateLimiter.isRateLimitError range_error = false.
Proof. reflexivity. Qed.

Lemma catch_block_alone (env : Env) (k : nat) (maxRetries : Z)
    (retries : nat) (error : JsError) (w : World) :
  quiet env ->
  exists (w' : World) (f : Flow),
    catch_block env k maxRetries retries error w = (w', Some (Ok f))
    /\ (f = Return \/ f = Next (S retries))
    /\ active w' = Z.max 0 (active w - 1)
    /\ (1 <= ceiling w -> 1 <= ceiling w').
Proof.
  intros Hq. destruct (RateLimiter.isRateLimitError error) eqn:Hrl.
  - destruct (catch_block_throttled env k maxRetries retries error w Hq Hrl)
      as (w' & H & _ & _ & _ & _ & _ & _ & Ha & Hc & _).
    exists w', (Next (S retries)). auto.
  - destruct (Z.lt_ge_cases (Z.of_nat retries + 1) maxRetries) as [Hm | Hl].
    + destruct (catch_block_generic env k maxRetries retries error w Hq Hrl Hm)
        as (w' & H & _ & _ & _ & _ & _ & _ & Ha & Hc & _).
      exists w', (Next (S retries)). rewrite Hc. auto.
    + destruct (catch_block_last env k maxRetries retries error w Hq Hrl Hl)
        as (w' & H & _ & _ & _ & _ & _ & _ & Ha & Hc & _).
      exists w', Return. rewrite Hc. auto.
Qed.





(** C2 (retry budget), where the code departs from it.  The branch for a
    throttling-shaped failure counts the attempt and goes back to the test
    of the loop; it has no fallback of its own.  When the capability is
    throttled in each of the three attempts, the loop ends with the entry
    as it was: the translation is still empty, no entry is counted as
    failed and no file is written.  The branch for a generic failure does
    all three. *)
Theorem throttled_exhaustion_skips_fallback :
  snd (translateEntry always_throttled 0 start) = Fulfilled
  /\ poFile (self (fst (translateEntry always_throttled 0 start)))
     = one_pending_entry
  /\ failed (progress (self (fst (translateEntry always_throttled 0 start))))
     = 0
  /\ events (fst (translateEntry always_throttled 0 start))
     = [Translate "Hello" "Portuguese (Brazil)" EmptyString; Sleep 5000;
        Translate "Hello" "Portuguese (Brazil)" EmptyString; Sleep 10000;
        Translate "Hello" "Portuguese (Brazil)" EmptyString; Sleep 20000]
  /\ msgstr (entry_at 0 (self (fst (translateEntry always_failing 0 start))))
     = "Hello"%string
  /\ failed (progress (self (fst (translateEntry always_failing 0 start))))
     = 1
  /\ events (fst (translateEntry always_failing 0 start))
     = [Translate "Hello" "Portuguese (Brazil)" EmptyString; Sleep 2000;
        Translate "Hello" "Portuguese (Brazil)" EmptyString; Sleep 4000;
        Translate "Hello" "Portuguese (Brazil)" EmptyString;
        WriteFile "out.po"
          (PoParser.serialize
             (mkPoFile [] [mkEntry "Hello" "Hello" None None]))].
Proof. vm_compute. repeat split. Qed.

(** C8 (backoff), as the specification states it, fails.  The two formulas
    share one attempt number, and the code does not: with the counter at
    0, in the first attempt, a generic failure waits 2000 ms and a
    throttling-shaped one 5000 ms, so that the linear formula holds for
    attempt number 1 and the exponential one for attempt number 0.  The
    last generic failure of the budget waits not at all, and a retry-after
    of 0 is passed over for the exponential wait. *)
Lemma backoff_numbering_differs :
  events (fst (attempt always_failing 0 3 0 start))
  = [Translate "Hello" "Portuguese (Brazil)" EmptyString; Sleep 2000]
  /\ events (fst (attempt always_throttled 0 3 0 start))
     = [Translate "Hello" "Portuguese (Brazil)" EmptyString; Sleep 5000]
  /\ Spec.generic_wait 0 <> 2000
  /\ Spec.throttle_wait None 1 <> 5000
  /\ Spec.generic_wait 1 = 2000
  /\ Spec.throttle_wait None 0 = 5000
  /\ events (fst (attempt always_failing 0 3 2 start))
     = [Translate "Hello" "Portuguese (Brazil)" EmptyString;
        WriteFile "out.po"
          (PoParser.serialize
             (mkPoFile [] [mkEntry "Hello" "Hello" None None]))]
  /\ events (fst (attempt throttled_retry_after_0 0 3 0 start))
     = [Translate "Hello" "Portuguese (Brazil)" EmptyString; Sleep 5000]
  /\ Spec.throttle_wait (Some 0) 0 <> 5000.
Proof. vm_compute. repeat split; discriminate. Qed.

(** What the [try] block throws is what the capability threw in this
    attempt or the [RangeError] of [printProgress]: [acquireToken] throws
    nothing, and what the file write throws is caught where it is
    thrown. *)
Lemma try_block_thrown (env : Env) (k retries : nat) (w w1 : World)
    (error : JsError) :
  try_block env k retries w = (w1, Some (Throw error)) ->
  error = range_error \/ outcome env retries = Throw error.
Proof.
  run_attempt.
  destruct (bar_fails _); simpl; [intros H; left; congruence |].
  match goal with
  | |- context [acquire env retries ?f 0 ?pc ?w0] =>
      destruct (acquire_never_throws env retries f 0 pc w0) as [[Hr | Hr] _];
      destruct (acquire env retries f 0 pc w0) as [w2 r]
  end; simpl in Hr; subst r; simpl; [discriminate |].
  destruct (outcome env retries) as [text | e]; simpl.
  - destruct (bar_fails _); simpl; [intros H; left; congruence |].
    destruct (write_error env); simpl; discriminate.
  - intros H. right. congruence.
Qed.

(** C8 (backoff), as the code has it.  Let [retries] be the shared counter
    when the [try] block of an attempt throws [error], which is what the
    capability threw or the [RangeError] of [printProgress].  A
    throttling-shaped error waits the retry-after of the error when that
    is a number other than 0, and 5000 * 2 ^ retries ms otherwise, and
    then counts the attempt.  Another error counts the attempt first; when
    attempts remain it waits 2000 * (retries + 1) ms, and otherwise it
    waits not at all and the iteration returns.  Either way the counter
    goes up by one.  This is for a counter of 1011 at most: beyond,
    5000 * 2 ^ retries is no finite double. *)
Theorem backoff_waits (env : Env) (k : nat) (maxRetries : Z) (retries : nat)
    (w w1 : World) (error : JsError) :
  try_block env k retries w = (w1, Some (Throw error)) ->
  (retries <= 1011)%nat ->
  (error = range_error \/ outcome env retries = Throw error)
  /\ (RateLimiter.isRateLimitError error = true ->
      events (fst (attempt env k maxRetries retries w))
      = events w1 ++ [Sleep (waitTime error retries)]
      /\ snd (attempt env k maxRetries retries w)
         = Some (Ok (Next (S retries))))
  /\ (RateLimiter.isRateLimitError error = false ->
      Z.of_nat retries + 1 < maxRetries ->
      events (fst (attempt env k maxRetries retries w))
      = events w1 ++ [Sleep (2000 * (Z.of_nat retries + 1))]
      /\ snd (attempt env k maxRetries retries w)
         = Some (Ok (Next (S retries))))
  /\ (RateLimiter.isRateLimitError error = false ->
      maxRetries <= Z.of_nat retries + 1 ->
      (exists written,
          events (fst (attempt env k maxRetries retries w))
          = events w1 ++ [written]
          /\ forall ms, written <> Sleep ms)
      /\ snd (attempt env k maxRetries retries w) = Some (Ok Return))
  /\ (forall z, retryAfter error = Some (Num z) -> z <> 0 ->
      waitTime error retries = z)
  /\ (retryAfter error = None \/ retryAfter error = Some NaN
      \/ retryAfter error = Some (Num 0) ->
      waitTime error retries = 5000 * 2 ^ Z.of_nat retries).
Proof.
  intros Htry _. split; [exact (try_block_thrown _ _ _ _ _ _ Htry) |].
  unfold attempt, try_catch. rewrite Htry. run_attempt.
  replace (Z.of_nat (S retries)) with (Z.of_nat retries + 1) by lia.
  split; [| split; [| split; [| split]]].
  - intros H. rewrite H. simpl. split; reflexivity.
  - intros H Hlt. rewrite H. simpl.
    destruct (Z.ltb_spec (Z.of_nat retries + 1) maxRetries); [| lia].
    simpl. split; reflexivity.
  - intros H Hge. rewrite H. simpl.
    destruct (Z.ltb_spec (Z.of_nat retries + 1) maxRetries); [lia |].
    destruct (write_error env); simpl;
      (split; [eexists; split; [reflexivity | discriminate]
              | reflexivity]).
  - intros z Hz Hnz. unfold waitTime, number_truthy. rewrite Hz.
    destruct (Z.eqb_spec z 0); [contradiction | reflexivity].
  - intros [H | [H | H]]; unfold waitTime, number_truthy; rewrite H;
      reflexivity.
Qed.

Lemma backoff_waits_witness :
  events (fst (attempt always_failing 0 3 0 start))
  = events (fst (try_block always_failing 0 0 start))
    ++ [Sleep (2000 * (Z.of_nat 0 + 1))]
  /\ snd (attempt always_failing 0 3 0 start) = Some (Ok (Next 1%nat)).
Proof.
  destruct (backoff_waits always_failing 0 3 0 start
              (fst (try_block always_failing 0 0 start)) empty_response)
    as (_ & _ & Hgeneric & _); [vm_compute; reflexivity | lia |].
  apply Hgeneric; reflexivity.
Defined.

Lemma bar_fails_counts (p p' : TranslationProgress) :
  total p' = total p -> completed p' = completed p ->
  bar_fails p' = bar_fails p.
Proof. unfold bar_fails. intros -> ->. reflexivity. Qed.

Lemma copied_through_poFile (k : nat) (s s' : t) :
  poFile s' = poFile s -> copied_through k s' = copied_through k s.
Proof.
  unfold copied_through, set_msgstr, entry_at. simpl. intros ->. reflexivity.
Qed.

Lemma forallb_no_write_app (a b : list Event) :
  forallb (fun ev => negb (is_write ev)) a = true ->
  forallb (fun ev => negb (is_write ev)) b = true ->
  forallb (fun ev => negb (is_write ev)) (a ++ b) = true.
Proof. intros Ha Hb. rewrite forallb_app, Ha, Hb. reflexivity. Qed.

(** A failed attempt of a task that runs alone, when it is not the last
    generic failure of the budget: the capability was called once, the
    catalog and the counts are as they were, and no file is written. *)
Lemma attempt_retries (env : Env) (k : nat) (maxRetries : Z) (retries : nat)
    (w : World) (error : JsError) :
  quiet env ->
  (3 <= patience env)%nat ->
  bar_fails (progress (self w)) = false ->
  active w <= 0 -> 1 <= ceiling w ->
  outcome env retries = Throw error ->
  RateLimiter.isRateLimitError error = true
  \/ Z.of_nat retries + 1 < maxRetries ->
  exists w' : World,
    attempt env k maxRetries retries w = (w', Some (Ok (Next (S retries))))
    /\ config (self w') = config (self w)
    /\ poFile (self w') = poFile (self w)
    /\ outputPath (self w') = outputPath (self w)
    /\ total (progress (self w')) = total (progress (self w))
    /\ completed (progress (self w')) = completed (progress (self w))
    /\ failed (progress (self w')) = failed (progress (self w))
    /\ active w' <= 0 /\ 1 <= ceiling w'
    /\ exists call wait,
         events w' = events w ++ [call; wait]
         /\ Events.is_call call = true /\ is_write call = false
         /\ Events.is_call wait = false /\ is_write wait = false.
Proof.
  intros Hq Hfuel Hbar Ha Hc Hout Hcase. unfold attempt, try_catch.
  destruct (try_block_throws env k retries w error Hq Hfuel Hbar
              ltac:(lia) Hout)
    as (w1 & -> & T1 & T2 & T3 & T4 & T5 & T6 & T7 & T8 & T9).
  destruct (RateLimiter.isRateLimitError error) eqn:Hrl.
  - destruct (catch_block_throttled env k maxRetries retries error w1 Hq Hrl)
      as (w' & -> & K1 & K2 & K3 & K4 & K5 & K6 & K7 & K8 & K9).
    exists w'. split; [reflexivity |].
    repeat split; try congruence; try lia.
    do 2 eexists. rewrite K9, T9, <- app_assoc.
    split; [reflexivity | repeat split].
  - destruct Hcase as [Habs | Hmore]; [discriminate |].
    destruct (catch_block_generic env k maxRetries retries error w1 Hq Hrl
                Hmore)
      as (w' & -> & K1 & K2 & K3 & K4 & K5 & K6 & K7 & K8 & K9).
    exists w'. split; [reflexivity |].
    repeat split; try congruence; try lia.
    do 2 eexists. rewrite K9, T9, <- app_assoc.
    split; [reflexivity | repeat split].
Qed.

(** The last attempt of the budget, failing generically, copies the source
    id through, counts the entry as failed and writes the catalog. *)
Lemma attempt_falls_back (env : Env) (k : nat) (maxRetries : Z)
    (retries : nat) (w : World) (error : JsError) :
  quiet env ->
  (3 <= patience env)%nat ->
  bar_fails (progress (self w)) = false ->
  active w <= 0 -> 1 <= ceiling w ->
  outcome env retries = Throw error ->
  RateLimiter.isRateLimitError error = false ->
  maxRetries <= Z.of_nat retries + 1 ->
  exists w' : World,
    attempt env k maxRetries retries w = (w', Some (Ok Return))
    /\ config (self w') = config (self w)
    /\ poFile (self w') = copied_through k (self w)
    /\ outputPath (self w') = outputPath (self w)
    /\ total (progress (self w')) = total (progress (self w))
    /\ completed (progress (self w')) = completed (progress (self w))
    /\ failed (progress (self w')) = failed (progress (self w)) + 1
    /\ active w' <= 0 /\ 1 <= ceiling w'
    /\ exists call,
         events w' = events w ++ [call; written env (self w')]
         /\ Events.is_call call = true /\ is_write call = false.
Proof.
  intros Hq Hfuel Hbar Ha Hc Hout Hrl Hlast. unfold attempt, try_catch.
  destruct (try_block_throws env k retries w error Hq Hfuel Hbar
              ltac:(lia) Hout)
    as (w1 & -> & T1 & T2 & T3 & T4 & T5 & T6 & T7 & T8 & T9).
  destruct (catch_block_last env k maxRetries retries error w1 Hq Hrl Hlast)
    as (w' & -> & K1 & K2 & K3 & K4 & K5 & K6 & K7 & K8 & K9).
  exists w'. split; [reflexivity |].
  repeat split; try congruence; try lia.
  - rewrite K2. now apply copied_through_poFile.
  - eexists. rewrite K9, T9, <- app_assoc. split; [reflexivity | repeat split].
Qed.

Lemma loop_exhausted (env : Env) (k : nat) (maxRetries : Z)
    (last : JsError) :
  quiet env ->
  (3 <= patience env)%nat ->
  (forall n : nat, Z.of_nat n < maxRetries -> exists e, outcome env n = Throw e) ->
  outcome env (Z.to_nat (maxRetries - 1)) = Throw last ->
  forall (fuel retries : nat) (w : World),
    maxRetries - Z.of_nat retries <= Z.of_nat fuel ->
    Z.of_nat retries < maxRetries ->
    bar_fails (progress (self w)) = false ->
    active w <= 0 -> 1 <= ceiling w ->
    exists w' : World,
      loop env k maxRetries fuel retries w = (w', Fulfilled)
      /\ (RateLimiter.isRateLimitError last = true ->
          poFile (self w') = poFile (self w)
          /\ failed (progress (self w')) = failed (progress (self w))
          /\ exists evs, events w' = events w ++ evs
                         /\ forallb (fun ev => negb (is_write ev)) evs = true)
      /\ (RateLimiter.isRateLimitError last = false ->
          poFile (self w') = copied_through k (self w)
          /\ failed (progress (self w')) = failed (progress (self w)) + 1
          /\ exists evs, events w' = events w ++ evs ++ [written env (self w')]
                         /\ forallb (fun ev => negb (is_write ev)) evs = true).
Proof.
  intros Hq Hpat Hall Hlast.
  induction fuel as [| fuel IH]; intros retries w Hfuel Hlt Hbar Ha Hc;
    [lia |].
  simpl. destruct (Z.ltb_spec (Z.of_nat retries) maxRetries); [| lia].
  destruct (Hall retries Hlt) as [e He].
  destruct (Z.lt_ge_cases (Z.of_nat retries + 1) maxRetries) as [Hmore | Hfinal].
  - (* attempts remain *)
    destruct (attempt_retries env k maxRetries retries w e Hq Hpat Hbar Ha Hc
                He (or_intror Hmore))
      as (w1 & -> & A1 & A2 & A3 & A4 & A5 & A6 & A7 & A8
          & call & wait & Hev & _ & Hw1 & _ & Hw2).
    assert (Hbar1 : bar_fails (progress (self w1)) = false)
      by (rewrite <- Hbar; now apply bar_fails_counts).
    destruct (IH (S retries) w1 ltac:(lia) ltac:(lia) Hbar1 A7 A8)
      as (w' & Hloop & Hthr & Hgen).
    exists w'. split; [exact Hloop |]. split.
    + intros Hrl. destruct (Hthr Hrl) as (H1 & H2 & evs & H3 & H4).
      repeat split; [congruence | congruence |].
      exists ([call; wait] ++ evs). rewrite H3, Hev, <- app_assoc.
      split; [reflexivity |]. apply forallb_no_write_app; trivial.
      simpl. now rewrite Hw1, Hw2.
    + intros Hrl. destruct (Hgen Hrl) as (H1 & H2 & evs & H3 & H4).
      repeat split.
      * rewrite H1. now apply copied_through_poFile.
      * congruence.
      * exists ([call; wait] ++ evs). rewrite H3, Hev, <- !app_assoc.
        split; [reflexivity |]. apply forallb_no_write_app; trivial.
        simpl. now rewrite Hw1, Hw2.
  - (* the last attempt of the budget *)
    assert (Hidx : Z.to_nat (maxRetries - 1) = retries) by lia.
    rewrite Hidx, He in Hlast. injection Hlast as ->.
    destruct (RateLimiter.isRateLimitError last) eqn:Hrl.
    + destruct (attempt_retries env k maxRetries retries w last Hq Hpat Hbar
                  Ha Hc He (or_introl Hrl))
        as (w1 & -> & A1 & A2 & A3 & A4 & A5 & A6 & A7 & A8
            & call & wait & Hev & _ & Hw1 & _ & Hw2).
      assert (Hend : loop env k maxRetries fuel (S retries) w1 = (w1, Fulfilled)).
      { destruct fuel; simpl;
          destruct (Z.ltb_spec (Z.of_nat (S retries)) maxRetries); trivial; lia. }
      rewrite Hend. exists w1. split; [reflexivity |]. split.
      * intros _. repeat split; trivial.
        exists [call; wait]. split; [exact Hev |]. simpl. now rewrite Hw1, Hw2.
      * discriminate.
    + destruct (attempt_falls_back env k maxRetries retries w last Hq Hpat
                  Hbar Ha Hc He Hrl Hfinal)
        as (w1 & -> & A1 & A2 & A3 & A4 & A5 & A6 & A7 & A8
            & call & Hev & _ & Hcall).
      exists w1. split; [reflexivity |]. split.
      * discriminate.
      * intros _. repeat split; trivial.
        exists [call]. split; [exact Hev |]. simpl. now rewrite Hcall.
Qed.

(** When every attempt of the budget fails, what the entry ends as goes by
    the kind of the last failure: after a generic one the source id is
    copied through, the entry is counted as failed and the catalog is
    written; after a throttling-shaped one the catalog and the failed count
    are as before and no file is written.  This is for a task that runs
    alone, with no request in flight and a ceiling of 1 at least, so that
    each call of [acquireToken] returns, and with counts for which the
    progress bar can be drawn, so that each failure is one of the
    capability. *)
Theorem exhaustion_by_last_failure (env : Env) (k : nat) (w : World)
    (last : JsError) :
  0 < maxRetries_of (config (self w)) ->
  quiet env ->
  (3 <= patience env)%nat ->
  bar_fails (progress (self w)) = false ->
  active w <= 0 ->
  1 <= ceiling w ->
  (forall n : nat, Z.of_nat n < maxRetries_of (config (self w)) ->
                   exists e, outcome env n = Throw e) ->
  outcome env (Z.to_nat (maxRetries_of (config (self w)) - 1)) = Throw last ->
  exists w' : World,
    translateEntry env k w = (w', Fulfilled)
    /\ (RateLimiter.isRateLimitError last = true ->
        poFile (self w') = poFile (self w)
        /\ failed (progress (self w')) = failed (progress (self w))
        /\ exists evs, events w' = events w ++ evs
                       /\ forallb (fun ev => negb (is_write ev)) evs = true)
    /\ (RateLimiter.isRateLimitError last = false ->
        poFile (self w') = copied_through k (self w)
        /\ failed (progress (self w')) = failed (progress (self w)) + 1
        /\ exists evs, events w' = events w ++ evs ++ [written env (self w')]
                       /\ forallb (fun ev => negb (is_write ev)) evs = true).
Proof.
  intros Hpos Hq Hpat Hbar Ha Hc Hall Hlast. unfold translateEntry.
  apply (loop_exhausted env k _ last Hq Hpat Hall Hlast); trivial; lia.
Qed.

Lemma exhaustion_by_last_failure_witness :
  exists w' : World,
    translateEntry always_throttled 0 (started no_options one_pending_entry)
    = (w', Fulfilled)
    /\ (RateLimiter.isRateLimitError too_many_requests = true ->
        poFile (self w')
        = poFile (self (started no_options one_pending_entry))
        /\ failed (progress (self w'))
           = failed (progress (self (started no_options one_pending_entry)))
        /\ exists evs,
             events w' = events (started no_options one_pending_entry) ++ evs
             /\ forallb (fun ev => negb (is_write ev)) evs = true)
    /\ (RateLimiter.isRateLimitError too_many_requests = false ->
        poFile (self w')
        = copied_through 0 (self (started no_options one_pending_entry))
        /\ failed (progress (self w'))
           = failed (progress (self (started no_options one_pending_entry)))
             + 1
        /\ exists evs,
             events w'
             = events (started no_options one_pending_entry) ++ evs
               ++ [written always_throttled (self w')]
             /\ forallb (fun ev => negb (is_write ev)) evs = true).
Proof.
  apply (exhaustion_by_last_failure always_throttled 0
           (started no_options one_pending_entry) too_many_requests).
  - reflexivity.
  - intros n p s. reflexivity.
  - vm_compute. lia.
  - vm_compute. reflexivity.
  - vm_compute. discriminate.
  - vm_compute. discriminate.
  - intros n _. exists too_many_requests. reflexivity.
  - reflexivity.
Defined.

End Orchestrator.

(** * More properties *)

(** ** The catalog codec: entries and their lines *)

Section CodecLines.

Import JsString PoParser PoParserFold Text.

Lemma finishEntry_length (cur : PartialEntry) (es : list TranslationEntry)
    (cs : list string) :
  (List.length (finishEntry cur es cs) <= List.length es + 1)%nat.
Proof.
  unfold finishEntry. destruct (p_msgid cur) as [id |]; [| lia].
  destruct (is_empty id); [lia |]. rewrite length_app. simpl. lia.
Qed.

Lemma parse_line_length (i : nat) (raw : string) (st : PState) :
  (List.length (st_entries (parse_line i raw st))
   <= List.length (st_entries st) + (if is_blank raw then 1 else 0))%nat.
Proof.
  unfold parse_line, is_blank, classify.
  destruct (is_empty (trim raw)).
  - destruct (_ || _); simpl; [apply finishEntry_length | lia].
  - repeat match goal with
           | |- context [if ?b then _ else _] => destruct b; simpl
           end; lia.
Qed.

Lemma parse_lines_length (ls : list string) :
  forall (i : nat) (st : PState),
    (List.length (st_entries (parse_lines i ls st))
     <= List.length (st_entries st) + blank_lines ls)%nat.
Proof.
  unfold blank_lines.
  induction ls as [| raw ls IH]; intros i st; simpl; [lia |].
  specialize (IH (S i) (parse_line i raw st)).
  pose proof (parse_line_length i raw st).
  destruct (is_blank raw); simpl; lia.
Qed.

(** Entries are told apart by blank lines only: a catalog read from a
    text has at most one entry more than the text has blank lines.  Two
    entries with no blank line between them are read as one. *)
Theorem entries_need_blank_lines (content : string) (po : PoFile) :
  parse content = Ok po ->
  (List.length (entries po)
   <= blank_lines (split (str1 newline) content) + 1)%nat.
Proof.
  rewrite parse_as_fold. intros H. inversion H; subst po. clear H.
  unfold finish. simpl.
  pose proof (parse_lines_length (split (str1 newline) content) 0 init_state)
    as Hlen.
  simpl in Hlen.
  destruct (_ || _); [| lia].
  pose proof (finishEntry_length
                (st_current (parse_lines 0 (split (str1 newline) content)
                               init_state))
                (st_entries (parse_lines 0 (split (str1 newline) content)
                               init_state))
                (st_comments (parse_lines 0 (split (str1 newline) content)
                                init_state))).
  lia.
Qed.

Lemma line_ok_next (all : list string) (i : nat) (l : option nat) :
  line_ok all i l -> line_ok all (S i) l.
Proof.
  intros (n & H1 & H2 & H3). exists n.
  split; [exact H1 | split; [lia | exact H3]].
Qed.

Lemma sorted_snoc (es : list TranslationEntry) (e : TranslationEntry) :
  StronglySorted line_lt es ->
  Forall (fun x => line_lt x e) es ->
  StronglySorted line_lt (es ++ [e]).
Proof.
  induction 1 as [| x es Hs IH Hx]; intros Hall; simpl.
  - repeat constructor.
  - inversion Hall; subst. constructor; [now apply IH |].
    apply Forall_app. split; [exact Hx | now repeat constructor].
Qed.

Lemma finishEntry_numbered (all : list string) (i : nat) (st : PState) :
  numbered all i st ->
  Forall (fun e => line_ok all i (line e))
    (finishEntry (st_current st) (st_entries st) (st_comments st))
  /\ StronglySorted line_lt
       (finishEntry (st_current st) (st_entries st) (st_comments st)).
Proof.
  intros (H1 & H2 & H3 & H4 & H5). unfold finishEntry.
  destruct (p_msgid (st_current st)) as [id |] eqn:Hid; [| auto].
  destruct (is_empty id); [auto |].
  destruct (H2 ltac:(discriminate)) as (n & Hn & Hle & Hat).
  split.
  - apply Forall_app. split; [exact H1 |].
    repeat constructor. simpl. exists n. auto.
  - apply sorted_snoc; [exact H4 |].
    eapply Forall_impl; [| exact (H5 n Hn)].
    intros e (m & Hm & Hlt). unfold line_lt. simpl. now rewrite Hm, Hn.
Qed.

Lemma parse_line_numbered (all : list string) (i : nat) (raw : string)
    (st : PState) :
  nth_error all i = Some raw ->
  numbered all i st ->
  numbered all (S i) (parse_line i raw st).
Proof.
  intros Hraw Hinv.
  pose proof (finishEntry_numbered all i st Hinv) as [Hf1 Hf2].
  destruct Hinv as (H1 & H2 & H3 & H4 & H5).
  assert (H1' : Forall (fun e => line_ok all (S i) (line e)) (st_entries st)).
  { eapply Forall_impl; [| exact H1]. intros e. apply line_ok_next. }
  assert (Hbelow : Forall (fun e => exists m, line e = Some m /\ m < i + 1)
                     (st_entries st)).
  { eapply Forall_impl; [| exact H1].
    intros e (n & Hn & Hle & _). exists n. split; [exact Hn | lia]. }
  assert (Hf1' : Forall (fun e => line_ok all (S i) (line e))
                    (finishEntry (st_current st) (st_entries st)
                       (st_comments st))).
  { eapply Forall_impl; [| exact Hf1]. intros e. apply line_ok_next. }
  assert (Hhere : classify (trim raw) = MsgidLine ->
                  line_ok all (S i) (Some (i + 1))).
  { intros Hclass. exists (i + 1). split; [reflexivity |]. split; [lia |].
    unfold msgid_line_at.
    assert (i < List.length all) by (apply nth_error_Some; congruence).
    split; [lia |].
    replace (i + 1 - 1) with i by lia.
    rewrite (nth_error_nth all i EmptyString Hraw). exact Hclass. }
  unfold parse_line.
  destruct (classify (trim raw)) eqn:Hclass;
    repeat match goal with
           | |- context [if ?b then _ else _] =>
               let E := fresh "E" in destruct b eqn:E
           end;
    unfold numbered; simpl;
    (split; [| split; [| split; [| split]]]);
    first
      [ assumption
      | discriminate
      | congruence
      | intros H; apply line_ok_next, H2, H
      | intros H; exfalso; apply H; reflexivity
      | intros _; apply Hhere; reflexivity
      | intros _; apply line_ok_next, H2, H3; assumption
      | intros _; apply line_ok_next, H2, H3; reflexivity
      | intros _; discriminate
      | intros n Hn; discriminate
      | intros n Hn; injection Hn as <-; exact Hbelow
      | intros H; rewrite H in *; discriminate ].
Qed.

Lemma parse_lines_numbered (ls : list string) :
  forall (pre : list string) (st : PState),
    numbered (pre ++ ls) (List.length pre) st ->
    numbered (pre ++ ls) (List.length pre + List.length ls)
      (parse_lines (List.length pre) ls st).
Proof.
  induction ls as [| raw ls IH]; intros pre st H; simpl.
  - now rewrite Nat.add_0_r.
  - assert (Hraw : nth_error (pre ++ raw :: ls) (List.length pre) = Some raw).
    { rewrite nth_error_app2 by lia. now rewrite Nat.sub_diag. }
    pose proof (parse_line_numbered _ _ _ _ Hraw H) as H'.
    specialize (IH (pre ++ [raw]) (parse_line (List.length pre) raw st)).
    rewrite <- app_assoc, length_app in IH. simpl in IH.
    rewrite Nat.add_1_r in IH.
    replace (List.length pre + S (List.length ls))
      with (S (List.length pre) + List.length ls) by lia.
    apply IH, H'.
Qed.

(** The line numbers of a catalog.  Every entry read from a text carries
    the number, counted from 1, of a line of the text that starts with the
    source-id keyword, and the entries are in the order of their lines:
    each number is above the one before. *)
Theorem entries_carry_their_lines (content : string) (po : PoFile) :
  parse content = Ok po ->
  Forall (fun e =>
            exists n : nat,
              line e = Some n
              /\ msgid_line_at (split (str1 newline) content) n)
    (entries po)
  /\ StronglySorted line_lt (entries po).
Proof.
  rewrite parse_as_fold. intros H. inversion H; subst po. clear H.
  set (ls := split (str1 newline) content).
  assert (Hinit : numbered ([] ++ ls) (List.length (@nil string)) init_state).
  { unfold numbered, init_state. simpl.
    repeat split; try constructor; try congruence; discriminate. }
  pose proof (parse_lines_numbered ls [] init_state Hinit) as Hinv.
  simpl in Hinv.
  pose proof (finishEntry_numbered _ _ _ Hinv) as [Hf1 Hf2].
  destruct Hinv as (H1 & _ & _ & H4 & _).
  unfold finish. simpl.
  assert (Hweak : forall es,
             Forall (fun e => line_ok ls (List.length ls) (line e)) es ->
             Forall (fun e => exists n, line e = Some n /\ msgid_line_at ls n)
               es).
  { intros es Hes. eapply Forall_impl; [| exact Hes].
    intros e (n & Hn & _ & Hat). eauto. }
  destruct (_ || _); split; auto.
Qed.

End CodecLines.

(** ** The catalog codec: the header of a text *)

Section HeaderKeys.

Import JsString PoParser PoParserFold Text.
Local Open Scope string_scope.

Lemma prefix_backslash_n (c : ascii) (o : string) :
  prefix backslash_n (String c o) = Ascii.eqb c backslash && starts_n o.
Proof.
  unfold backslash_n. destruct o as [| d o].
  - rewrite prefix_char2_short. cbn [starts_n]. now rewrite andb_false_r.
  - rewrite prefix_char2. cbn [starts_n].
    now rewrite (Ascii.eqb_sym backslash c), (Ascii.eqb_sym "n"%char d).
Qed.

Lemma includes_cons (p : string) (c : ascii) (r : string) :
  includes p (String c r) = prefix p (String c r) || includes p r.
Proof. reflexivity. Qed.

Lemma includes_empty (p : string) :
  includes p EmptyString = prefix p EmptyString.
Proof. simpl. now rewrite orb_false_r. Qed.

Lemma starts_n_pass (x y : ascii) (s : string) :
  Ascii.eqb y "n"%char = false ->
  starts_n (replace_go (str2 backslash x) (str1 y) 0 s) = true ->
  starts_n s = true.
Proof.
  intros Hy. destruct s as [| c r]; [discriminate |].
  rewrite replace_go_here.
  destruct (prefix (str2 backslash x) (String c r)); simpl; congruence.
Qed.

Lemma pass_no_backslash_n (x y : ascii) :
  Ascii.eqb y "n"%char = false ->
  (y = backslash -> x = backslash) ->
  forall (n : nat) (s : string),
    String.length s <= n ->
    x = "n"%char \/ includes backslash_n s = false ->
    includes backslash_n (replace_go (str2 backslash x) (str1 y) 0 s) = false.
Proof.
  intros Hy Hyx. induction n as [| n IH]; intros s Hlen Hs.
  - destruct s; [reflexivity | simpl in Hlen; lia].
  - destruct s as [| c r]; [reflexivity |].
    simpl in Hlen.
    assert (Htail : forall c' r', x = "n"%char
                                  \/ includes backslash_n (String c' r') = false ->
                                  x = "n"%char \/ includes backslash_n r' = false).
    { intros c' r' [H | H]; [now left | right].
      rewrite includes_cons in H. now apply orb_false_iff in H. }
    rewrite replace_go_here.
    destruct (prefix (str2 backslash x) (String c r)) eqn:Hmatch.
    + (* an escape of the pass *)
      destruct r as [| d r']; [now rewrite prefix_char2_short in Hmatch |].
      rewrite prefix_char2 in Hmatch. apply andb_true_iff in Hmatch.
      destruct Hmatch as [Hc Hd].
      apply Ascii.eqb_eq in Hc, Hd. subst c d.
      cbn [append String.length Nat.sub replace_go].
      rewrite includes_cons, prefix_backslash_n.
      rewrite (IH r');
        [| simpl in Hlen; lia | eapply Htail, Htail, Hs].
      rewrite orb_false_r.
      destruct (Ascii.eqb_spec y backslash) as [Hyb | _]; [| reflexivity].
      simpl. specialize (Hyx Hyb). subst x.
      destruct (starts_n (replace_go _ _ 0 r')) eqn:Hn; [| reflexivity].
      apply starts_n_pass in Hn; [| exact Hy].
      destruct Hs as [Habs | Hs]; [discriminate |].
      rewrite 2!includes_cons, 2!prefix_backslash_n in Hs.
      rewrite Ascii.eqb_refl, Hn in Hs. cbn [andb] in Hs.
      apply orb_false_iff in Hs. destruct Hs as [_ Hs].
      discriminate Hs.
    + (* a code unit passed on *)
      rewrite includes_cons, prefix_backslash_n.
      rewrite (IH r); [| lia | eapply Htail, Hs].
      rewrite orb_false_r.
      destruct (Ascii.eqb_spec c backslash) as [-> | _]; [| reflexivity].
      simpl.
      destruct (starts_n (replace_go _ _ 0 r)) eqn:Hn; [| reflexivity].
      apply starts_n_pass in Hn; [| exact Hy].
      destruct r as [| d r']; [discriminate |].
      simpl in Hn. apply Ascii.eqb_eq in Hn. subst d.
      destruct Hs as [-> | Hs].
      * now rewrite prefix_char2, !Ascii.eqb_refl in Hmatch.
      * rewrite includes_cons, prefix_backslash_n in Hs.
        now rewrite Ascii.eqb_refl in Hs.
Qed.

Lemma unescape_no_backslash_n (s : string) :
  includes backslash_n (unescape s) = false.
Proof.
  unfold unescape, replaceAll.
  eapply pass_no_backslash_n; [reflexivity | auto | reflexivity |]. right.
  eapply pass_no_backslash_n; [reflexivity | discriminate | reflexivity |]. right.
  eapply pass_no_backslash_n; [reflexivity | discriminate | reflexivity |]. right.
  eapply pass_no_backslash_n; [reflexivity | discriminate | reflexivity |]. now left.
Qed.

Lemma split_whole (sep s : string) :
  includes sep s = false -> split sep s = [s].
Proof.
  unfold split. induction s as [| c r IH]; intros H; [reflexivity |].
  rewrite includes_cons in H. apply orb_false_iff in H. destruct H as [Hp Hr].
  cbn [split_go]. rewrite Hp, (IH Hr). reflexivity.
Qed.

(** The header of a text holds one key at most.  [parse] decodes the
    [msgstr] line of the header entry before [parseHeader] splits it at the
    two code units backslash, n; a decoded string holds that pair
    nowhere, so that the whole line is taken for one field.  A header
    written on one line, as [Language: pt\nX-Generator: po\n], is read as
    the key [Language] with the rest for its value, up to the next colon
    and space. *)
Theorem quoted_header_has_one_key :
  (forall x : string,
      List.length (parseHeader (parseString (quote ++ x ++ quote))) <= 1)
  /\ parseHeader
       (parseString
          (quote ++ "Language: pt" ++ backslash_n ++ "X-Generator: po"
           ++ backslash_n ++ quote))
     = [("Language", "pt" ++ str1 newline ++ "X-Generator")].
Proof.
  split; [| vm_compute; reflexivity].
  intros x. rewrite parseString_quoted. unfold parseHeader.
  fold backslash_n.
  rewrite split_whole by apply unescape_no_backslash_n.
  simpl. unfold header_line.
  destruct (includes ": " (unescape x)); [| simpl; lia].
  destruct (split_limit ": " 2 (unescape x)) as [| k [| v r]];
    try (simpl; lia).
  unfold obj_set. cbn [has_key obj_insert app].
  destruct (String.eqb k "__proto__"); [simpl; lia |].
  destruct (array_index k); simpl; lia.
Qed.

End HeaderKeys.

(** ** The catalog codec: the text written *)

Section SavedText.

Import JsString WellFormed PoParser PoParserFold Lines.
Local Open Scope string_scope.

Lemma serialize_entry_content (a b : TranslationEntry) :
  content a = content b -> serialize_entry a = serialize_entry b.
Proof.
  unfold content, serialize_entry. intros H. injection H as -> -> ->.
  reflexivity.
Qed.

Lemma serialize_entries_content (a : list TranslationEntry) :
  forall b : list TranslationEntry,
    map content a = map content b ->
    map serialize_entry a = map serialize_entry b.
Proof.
  induction a as [| x a IH]; intros [| y b] H; try discriminate;
    [reflexivity |].
  cbn [map] in *. inversion H as [[Hx Hl]].
  assert (Hc : content x = content y) by (unfold content; congruence).
  assert (Hm : map content a = map content b) by assumption.
  now rewrite (serialize_entry_content x y Hc), (IH b Hm).
Qed.

Lemma serialize_content (a b : PoFile) :
  header a = header b ->
  map content (entries a) = map content (entries b) ->
  serialize a = serialize b.
Proof.
  intros Hh He. unfold serialize.
  now rewrite Hh, (serialize_entries_content _ _ He).
Qed.

Lemma entry_ok_content (a b : TranslationEntry) :
  content a = content b -> entry_ok a -> entry_ok b.
Proof.
  unfold content, entry_ok. intros H. injection H as -> -> ->. auto.
Qed.

Lemma entries_ok_content (a : list TranslationEntry) :
  forall b : list TranslationEntry,
    map content a = map content b -> Forall entry_ok a -> Forall entry_ok b.
Proof.
  induction a as [| x a IH]; intros [| y b] H Hok;
    try discriminate; [constructor |].
  cbn [map] in H. inversion H as [[Hx Hl]].
  assert (Hc : content x = content y) by (unfold content; congruence).
  inversion Hok; subst.
  constructor; [eapply entry_ok_content; eauto | eauto].
Qed.

(** What the tool writes, it reads and writes back unchanged.  The text
    of a well-formed catalog is read as a catalog whose text is that of
    the entries under an empty header, and that text is a fixed point:
    read and written again it is the same text. *)
Theorem saved_text_is_stable (c : PoFile) :
  header_ok (header c) ->
  Forall entry_ok (entries c) ->
  exists po : PoFile,
    parse (serialize c) = Ok po
    /\ serialize po = serialize (mkPoFile [] (entries c))
    /\ exists po2 : PoFile,
         parse (serialize po) = Ok po2 /\ serialize po2 = serialize po.
Proof.
  intros Hh He.
  destruct (roundtrip_content c Hh He) as (po & Hparse & Hcontent & Hhead).
  exists po. split; [exact Hparse |].
  split; [apply serialize_content; [exact Hhead | exact Hcontent] |].
  destruct (roundtrip_content po) as (po2 & Hparse2 & Hcontent2 & Hhead2).
  - rewrite Hhead. constructor.
  - eapply entries_ok_content; [symmetry; exact Hcontent | exact He].
  - exists po2. split; [exact Hparse2 |].
    apply serialize_content; [congruence | exact Hcontent2].
Qed.

Lemma saved_text_is_stable_witness :
  exists po : PoFile,
    parse (serialize Inputs.catalog_with_header) = Ok po
    /\ serialize po
       = serialize (mkPoFile [] (entries Inputs.catalog_with_header))
    /\ exists po2 : PoFile,
         parse (serialize po) = Ok po2 /\ serialize po2 = serialize po.
Proof.
  apply (saved_text_is_stable Inputs.catalog_with_header).
  - repeat constructor.
  - repeat constructor. discriminate.
Defined.

End SavedText.

(** ** The catalog codec: comments above the header *)

Section PreambleComments.

Import JsString WellFormed Escapes PoParser PoParserFold Lines Preamble.
Local Open Scope string_scope.

(** Comment lines above everything else are collected. *)
Lemma comments_above (l : list string) :
  forall (i : nat) (acc : list string),
    Forall comment_ok l ->
    parse_lines i l (mkPState [] empty_partial false false [] true acc)
    = mkPState [] empty_partial false false [] true (acc ++ l).
Proof.
  induction l as [| c l IH]; intros i acc Hl; cbn [parse_lines].
  - now rewrite app_nil_r.
  - inversion Hl as [| ? ? (Hstart & Htrim & _) Hl']; subst.
    unfold parse_line at 1. rewrite Htrim, (classify_comment _ Hstart).
    cbn. rewrite (IH (S i) (acc ++ [c])%list Hl').
    now rewrite <- app_assoc.
Qed.

(** The two lines of the header entry, read with comments pending. *)
Lemma header_entry_parsed (i : nat) (cs : list string) :
  parse_lines i ["msgid " ++ quote ++ quote; "msgstr " ++ quote ++ quote]
    (mkPState [] empty_partial false false [] true cs)
  = mkPState [] empty_partial false true [] false cs.
Proof. reflexivity. Qed.

Lemma replace_go_not_empty (pat : string) (c : ascii) (s : string) :
  s <> EmptyString -> replace_go pat (str1 c) 0 s <> EmptyString.
Proof.
  destruct s as [| d r]; [congruence |]. intros _.
  rewrite replace_go_here. destruct (prefix pat (String d r)); discriminate.
Qed.

Lemma unescape_not_empty (s : string) :
  s <> EmptyString -> unescape s <> EmptyString.
Proof.
  intros H. unfold unescape, replaceAll.
  now repeat apply replace_go_not_empty.
Qed.

Lemma header_line_shape (kv : string * string) :
  Lines.header_line kv
  = String dquote
      ((fst kv ++ ": " ++ snd kv ++ str2 backslash "n"%char) ++ str1 dquote).
Proof.
  unfold Lines.header_line, quote. rewrite !app_assoc_s. reflexivity.
Qed.

Lemma header_line_trimmed (kv : string * string) :
  trim (Lines.header_line kv) = Lines.header_line kv.
Proof.
  rewrite header_line_shape.
  exact (trim_framed dquote dquote _ eq_refl eq_refl).
Qed.

Lemma header_line_classified (kv : string * string) :
  classify (Lines.header_line kv) = Continuation.
Proof.
  rewrite header_line_shape.
  unfold classify, startsWith, quote. cbn [is_empty].
  rewrite !prefix_cons_neq by reflexivity.
  rewrite prefix_char, Ascii.eqb_refl.
  change (String dquote (?x ++ str1 dquote))
    with (String dquote x ++ str1 dquote).
  now rewrite endsWith_char.
Qed.

Lemma header_line_decoded (kv : string * string) :
  parseString (Lines.header_line kv) <> EmptyString.
Proof.
  rewrite header_line_shape.
  change (String dquote (?x ++ str1 dquote)) with (quote ++ x ++ quote).
  rewrite parseString_quoted. apply unescape_not_empty.
  destruct (fst kv); discriminate.
Qed.

Lemma is_empty_app_r (a b : string) :
  b <> EmptyString -> is_empty (a ++ b) = false.
Proof.
  intros Hb. destruct a; [now apply is_empty_false | reflexivity].
Qed.

Lemma field_parsed (i : nat) (kv : string * string) (cs : list string)
    (filled : bool) (st : PState) :
  below_header cs filled st ->
  below_header cs true (parse_line i (Lines.header_line kv) st).
Proof.
  intros (H1 & H2 & H3 & H4 & H5 & H6 & H7 & _). unfold parse_line.
  rewrite header_line_trimmed, header_line_classified, H3, H4.
  unfold below_header. cbn.
  rewrite is_empty_app_r by apply header_line_decoded.
  auto 10.
Qed.

Lemma fields_parsed (h : Header) :
  forall (i : nat) (cs : list string) (filled : bool) (st : PState),
    below_header cs filled st ->
    below_header cs (match h with [] => filled | _ => true end)
      (parse_lines i (map Lines.header_line h) st).
Proof.
  induction h as [| kv h IH]; intros i cs filled st Hst; cbn [map parse_lines].
  - exact Hst.
  - pose proof (field_parsed i kv cs filled st Hst) as H1.
    specialize (IH (S i) cs true _ H1). now destruct h.
Qed.

(** The blank line below the header: with a translation under
    construction the pending comments are dropped, and without one they
    stay. *)
Lemma blank_below_header (i : nat) (cs : list string) (filled : bool)
    (st : PState) :
  below_header cs filled st ->
  collecting [] (if filled then [] else cs) (parse_line i EmptyString st)
  /\ st_header (parse_line i EmptyString st) = [].
Proof.
  intros (H1 & H2 & H3 & H4 & H5 & H6 & H7 & H8). unfold parse_line.
  rewrite trim_empty. cbn [classify is_empty].
  rewrite H2, H8. cbn [truthy orb].
  destruct filled; unfold collecting, finishEntry; cbn; rewrite ?H2; auto.
Qed.

Lemma comment_lines_one_line (l : list string) :
  Forall comment_ok l -> Forall (fun c => has_char newline c = false) l.
Proof.
  intros H. eapply Forall_impl; [| exact H]. now intros c (_ & _ & Hnl).
Qed.

Lemma preamble_one_line (cs : list string) (h : Header) (e : TranslationEntry) :
  Forall comment_ok cs -> header_ok h -> entry_ok e ->
  Forall (fun l => has_char newline l = false) (lines_with_preamble cs h e).
Proof.
  intros Hcs Hh (_ & _ & _ & He). unfold lines_with_preamble.
  apply Forall_app. split; [now apply comment_lines_one_line |].
  apply Forall_app. split; [repeat constructor |].
  apply Forall_app. split.
  { apply Forall_map. eapply Forall_impl; [| exact Hh]. intros [k v] [Hk Hv].
    unfold Lines.header_line, quote. cbn [fst snd] in *.
    rewrite !has_char_app, Hk, Hv. reflexivity. }
  apply Forall_app. split; [repeat constructor |].
  unfold entry_lines. apply Forall_app. split.
  - destruct (comments_back _ He) as [Hl _].
    now apply comment_lines_one_line.
  - unfold msgid_line, msgstr_line, quote.
    repeat constructor;
      rewrite !has_char_app, escapeString_one_line; reflexivity.
Qed.

(** Comments above the header entry go to the first entry.  [parse]
    clears the pending comments only when it finishes an entry at a blank
    line, and the header entry is taken out without that.  So when the
    header has no fields, the comments above it are read as comments of
    the entry that follows, before that entry's own; when the header has
    fields, these are collected as a translation, and the blank line below
    them drops the comments. *)
Theorem comments_above_the_header (cs : list string) (h : Header)
    (e : TranslationEntry) :
  Forall comment_ok cs ->
  header_ok h ->
  entry_ok e ->
  exists n : nat,
    parse (unlines (lines_with_preamble cs h e))
    = Ok (mkPoFile []
            [mkEntry (msgid e) (msgstr e)
               (stored (match h with
                        | [] => cs ++ comment_lines (comments e)
                        | _ => comment_lines (comments e)
                        end))
               (Some n)]).
Proof.
  intros Hcs Hh He.
  rewrite parse_as_fold,
    (split_unlines _ (preamble_one_line cs h e Hcs Hh He)).
  unfold lines_with_preamble, entry_lines.
  rewrite !parse_lines_app.
  change init_state with (mkPState [] empty_partial false false [] true []).
  rewrite (comments_above cs 0 [] Hcs). cbn [List.app].
  rewrite header_entry_parsed.
  set (st2 := mkPState [] empty_partial false true [] false cs).
  assert (H2 : below_header cs false st2) by (unfold below_header; cbn; auto 10).
  set (i2 := (0 + List.length cs + List.length
                [("msgid " ++ quote ++ quote); ("msgstr " ++ quote ++ quote)])%nat).
  pose proof (fields_parsed h i2 cs false st2 H2) as H3.
  set (st3 := parse_lines i2 (map Lines.header_line h) st2) in *.
  set (filled := match h with [] => false | _ => true end) in *.
  cbn [parse_lines].
  set (i3 := (i2 + List.length (map Lines.header_line h))%nat).
  destruct (blank_below_header i3 cs filled st3 H3) as [H4 Hhead4].
  set (st4 := parse_line i3 EmptyString st3) in *.
  destruct He as (Hne & Hid & Hstr & Hcom).
  destruct (comments_back _ Hcom) as [Hl _].
  set (i4 := (i3 + List.length [EmptyString])%nat).
  pose proof (comments_collected (comment_lines (comments e)) i4 []
                (if filled then [] else cs) st4 Hl H4) as H5.
  set (st5 := parse_lines i4 (comment_lines (comments e)) st4) in *.
  set (i5 := (i4 + List.length (comment_lines (comments e)))%nat).
  pose proof (entry_fields_parsed i5 e [] _ st5 Hne Hid Hstr H5) as H6.
  cbn [parse_lines] in H6.
  set (st6 := parse_line (S (S i5)) EmptyString _) in *.
  match goal with
  | |- context [parse_line ?i EmptyString st6] =>
      pose proof (blank_between i _ st6 H6) as H7;
      set (st7 := parse_line i EmptyString st6) in *
  end.
  assert (Hhead7 : st_header st7 = []).
  { unfold st7, st6.
    destruct H4 as (_ & _ & _ & Hflag4).
    assert (Hflag5 : st_isHeader st5 = false) by apply H5.
    assert (Hhead5 : st_header st5 = []).
    { unfold st5. rewrite header_settled_lines; assumption. }
    repeat match goal with
           | |- st_header (parse_line ?i ?raw ?st) = [] =>
               let Hs := fresh "Hs" in
               assert (Hs : st_isHeader st = false /\ st_header st = []);
               [| destruct Hs as [Hs1 Hs2];
                  destruct (header_settled_line i raw st Hs1) as [_ ->];
                  exact Hs2 ];
               split
           | |- st_isHeader (parse_line ?i ?raw ?st) = false =>
               let Hs := fresh "Hs" in
               assert (Hs : st_isHeader st = false);
               [| now destruct (header_settled_line i raw st Hs) ]
           end; assumption. }
  destruct H7 as (Hes & Hcur & _).
  exists (i5 + 1). unfold finish. rewrite Hhead7. f_equal. f_equal.
  assert (Hentries : st_entries st7
                     = [mkEntry (msgid e) (msgstr e)
                          (stored (match h with
                                   | [] => cs ++ comment_lines (comments e)
                                   | _ => comment_lines (comments e)
                                   end))
                          (Some (i5 + 1))]).
  { rewrite Hes. cbn [List.app]. unfold stored, filled.
    destruct h; reflexivity. }
  destruct (_ || _); [| exact Hentries].
  unfold finishEntry. now rewrite Hcur.
Qed.

End PreambleComments.

(** ** The rate limiter: the ceiling *)

Section LimiterRuns.

Import RateLimiter Calls Inputs.
Local Open Scope Z_scope.

Lemma floor_times_08_below (n : Z) :
  1 <= n -> floor_times_08 n < n.
Proof.
  intros H. unfold floor_times_08.
  apply Z.div_lt_upper_bound; lia.
Qed.

Lemma call_ceiling (c : Call) (l : RateLimiter.t) :
  1 <= maxConcurrentRequests l ->
  1 <= maxConcurrentRequests (call c l) <= maxConcurrentRequests l.
Proof.
  intros H. destruct c as [e |]; simpl.
  - unfold handleRateLimit. simpl.
    destruct (isRateLimitError e && adaptiveMode l); simpl; [| lia].
    pose proof (floor_times_08_below _ H). lia.
  - unfold handleSuccess.
    destruct (adaptiveMode l && Qgtb (currentDelay l) (baseDelay l)); simpl;
      lia.
Qed.

Lemma run_ceiling (cs : list Call) :
  forall l : RateLimiter.t,
    1 <= maxConcurrentRequests l ->
    1 <= maxConcurrentRequests (run cs l) <= maxConcurrentRequests l.
Proof.
  induction cs as [| c cs IH]; intros l H; simpl; [lia |].
  pose proof (call_ceiling c l H) as Hc.
  pose proof (IH (call c l) ltac:(lia)). lia.
Qed.

(** The concurrency ceiling never comes back.  From a ceiling of at least
    1, no sequence of [handleRateLimit] and [handleSuccess] calls raises
    it; [handleSuccess] leaves it where it is; and in adaptive mode every
    throttling-shaped error lowers it as long as it is above 1. *)
Theorem ceiling_never_recovers (l : RateLimiter.t) :
  1 <= maxConcurrentRequests l ->
  (forall cs : list Call,
      maxConcurrentRequests (run cs l) <= maxConcurrentRequests l)
  /\ maxConcurrentRequests (handleSuccess l) = maxConcurrentRequests l
  /\ (forall e : JsError,
        adaptiveMode l = true -> isRateLimitError e = true ->
        1 < maxConcurrentRequests l ->
        maxConcurrentRequests (fst (handleRateLimit e l))
        < maxConcurrentRequests l).
Proof.
  intros H. split; [| split].
  - intros cs. apply run_ceiling, H.
  - unfold handleSuccess.
    destruct (adaptiveMode l && Qgtb (currentDelay l) (baseDelay l));
      reflexivity.
  - intros e Ha He Hgt. unfold handleRateLimit. rewrite Ha, He. simpl.
    pose proof (floor_times_08_below _ H). lia.
Qed.

Lemma ceiling_never_recovers_witness :
  maxConcurrentRequests
    (run [HandleRateLimit too_many_requests; HandleSuccess; HandleSuccess]
       (new (Cli.config_of no_options)))
  <= maxConcurrentRequests (new (Cli.config_of no_options)).
Proof.
  apply (proj1 (ceiling_never_recovers (new (Cli.config_of no_options))
                  ltac:(vm_compute; discriminate))).
Defined.

End LimiterRuns.

(** ** The rate limiter: a ceiling of 0 *)

Section Starvation.

Import RateLimiter Calls Inputs Waiting.
Local Open Scope Z_scope.

Lemma forallb_set_nth {A : Type} (p : A -> bool) (a : A) :
  forall (l : list A) (i : nat),
    forallb p l = true -> p a = true -> forallb p (set_nth i a l) = true.
Proof.
  induction l as [| x l IH]; intros i Hl Ha; [destruct i; reflexivity |].
  simpl in Hl. apply andb_prop in Hl. destruct Hl as [Hx Hl].
  destruct i; simpl.
  - now rewrite Ha, Hl.
  - now rewrite Hx, IH.
Qed.

Lemma forallb_nth_error {A : Type} (p : A -> bool) :
  forall (l : list A) (i : nat) (a : A),
    forallb p l = true -> nth_error l i = Some a -> p a = true.
Proof.
  induction l as [| x l IH]; intros [| i] a Hl Hi; simpl in *;
    try discriminate; apply andb_prop in Hl; destruct Hl as [Hx Hl].
  - congruence.
  - eapply IH; eauto.
Qed.

Lemma act_starved (a : Action) (w w' : Loop) :
  activeRequests (limiter w) >= maxConcurrentRequests (limiter w) ->
  forallb for_slot (tasks w) = true ->
  act a w = Some w' ->
  limiter w' = limiter w /\ forallb for_slot (tasks w') = true.
Proof.
  intros Hfull Hall Hact. destruct a as [t' | i | i]; simpl in Hact.
  - destruct (clock w <=? t'); inversion Hact; subst; simpl. auto.
  - destruct (nth_error (tasks w) i) as [pc |] eqn:Hi; [| discriminate].
    pose proof (forallb_nth_error _ _ _ _ Hall Hi) as Hpc.
    destruct (ready (clock w) pc); [| discriminate].
    assert (Hres : resume (clock w) pc (limiter w)
                   = (limiter w, SleepingForSlot (inject_Z (clock w + 100)))).
    { destruct pc; try discriminate; simpl; unfold enter;
        destruct (Z.geb_spec (activeRequests (limiter w))
                    (maxConcurrentRequests (limiter w))); trivial; lia. }
    rewrite Hres in Hact. inversion Hact; subst; simpl.
    split; [reflexivity |]. now apply forallb_set_nth.
  - destruct (nth_error (tasks w) i) as [pc |] eqn:Hi; [| discriminate].
    pose proof (forallb_nth_error _ _ _ _ Hall Hi) as Hpc.
    destruct pc; discriminate.
Qed.

Lemma exec_starved (acts : list Action) :
  forall w w' : Loop,
    activeRequests (limiter w) >= maxConcurrentRequests (limiter w) ->
    forallb for_slot (tasks w) = true ->
    exec acts w = Some w' ->
    limiter w' = limiter w /\ forallb for_slot (tasks w') = true.
Proof.
  induction acts as [| a acts IH]; intros w w' Hfull Hall Hexec;
    simpl in Hexec.
  - inversion Hexec; subst. auto.
  - destruct (act a w) as [w1 |] eqn:Hact; [| discriminate].
    destruct (act_starved a w w1 Hfull Hall Hact) as [Hl Ht].
    destruct (IH w1 w' ltac:(now rewrite Hl) Ht Hexec) as [Hl' Ht'].
    split; [congruence | exact Ht'].
Qed.

Lemma waiting_holders (ts : list Pc) :
  forallb for_slot ts = true -> filter is_holding ts = [].
Proof.
  induction ts as [| pc ts IH]; simpl; [reflexivity |].
  intros H. apply andb_prop in H. destruct H as [Hpc Hts].
  destruct pc; try discriminate; simpl; auto.
Qed.

(** A configured ceiling of 0 or less starves every call: [??] lets the
    value through, the in-flight count of a new limiter is 0, and the test
    [activeRequests >= maxConcurrentRequests] holds from then on.  However
    the calls of [acquireToken] are scheduled, none ever returns, and the
    limiter stays as it was built. *)
Theorem nonpositive_ceiling_never_grants (cfg : Config.t) (c : Z) (n : nat)
    (t0 : Z) (acts : list Action) (w' : Loop) :
  Config.maxConcurrentRequests cfg = Some c ->
  c <= 0 ->
  exec acts (mkLoop t0 (new cfg) (repeat AtEntry n)) = Some w' ->
  holders w' = 0
  /\ forallb for_slot (tasks w') = true
  /\ limiter w' = new cfg.
Proof.
  intros Hc Hle Hexec.
  assert (Hfull : activeRequests (new cfg) >= maxConcurrentRequests (new cfg))
    by (simpl; rewrite Hc; simpl; lia).
  assert (Hall : forallb for_slot (repeat AtEntry n) = true)
    by (clear; induction n; simpl; auto).
  destruct (exec_starved acts (mkLoop t0 (new cfg) (repeat AtEntry n)) w'
              Hfull Hall Hexec) as [Hl Ht].
  split; [| split; [exact Ht | exact Hl]].
  unfold holders. now rewrite waiting_holders.
Qed.

Lemma nonpositive_ceiling_never_grants_witness :
  holders
    (mkLoop 2000
       (new (Cli.config_of options_max_concurrent_0))
       [SleepingForSlot (inject_Z 2100); SleepingForSlot (inject_Z 100)])
  = 0.
Proof.
  apply (nonpositive_ceiling_never_grants
           (Cli.config_of options_max_concurrent_0) 0 2 0
           [Run 0; Run 1; Tick 2000; Run 0]).
  - reflexivity.
  - lia.
  - vm_compute. reflexivity.
Defined.

End Starvation.

(** ** The capabilities *)

Section Capabilities.

Import JsString Numbers Providers.
Local Open Scope string_scope.

Lemma trimEnd_cons (c : ascii) (r : string) :
  trimEnd (String c r)
  = match trimEnd r with
    | EmptyString => if is_space c then EmptyString else str1 c
    | r' => String c r'
    end.
Proof. reflexivity. Qed.

Lemma trimEnd_twice (s : string) : trimEnd (trimEnd s) = trimEnd s.
Proof.
  induction s as [| c r IH]; [reflexivity |].
  rewrite trimEnd_cons. destruct (trimEnd r) as [| d r'] eqn:E.
  - destruct (is_space c) eqn:Hc; [reflexivity |].
    cbn [trimEnd]. now rewrite Hc.
  - rewrite trimEnd_cons, IH. reflexivity.
Qed.

(** A text with no white space at its head. *)
Lemma trimStart_head (s : string) :
  match trimStart s with
  | String c _ => is_space c = false
  | EmptyString => True
  end.
Proof.
  induction s as [| c r IH]; [exact I |].
  cbn [trimStart]. destruct (is_space c) eqn:Hc; [exact IH | exact Hc].
Qed.

Lemma trimEnd_head (s : string) :
  match s with
  | String c _ => is_space c = false
  | EmptyString => True
  end ->
  match trimEnd s with
  | String c _ => is_space c = false
  | EmptyString => True
  end.
Proof.
  destruct s as [| c r]; [auto |]. intros Hc.
  cbn [trimEnd]. destruct (trimEnd r); [now rewrite Hc | exact Hc].
Qed.

Lemma trimStart_fixed (s : string) :
  match s with
  | String c _ => is_space c = false
  | EmptyString => True
  end ->
  trimStart s = s.
Proof. destruct s as [| c r]; [auto |]. intros Hc. cbn. now rewrite Hc. Qed.

Lemma trim_twice (s : string) : trim (trim s) = trim s.
Proof.
  unfold trim.
  rewrite (trimStart_fixed (trimEnd (trimStart s)))
    by apply trimEnd_head, trimStart_head.
  apply trimEnd_twice.
Qed.

Lemma translate_answer (name : string) (f : Fetched) (text : string) :
  translate name f = Ok text -> text <> EmptyString /\ trim text = text.
Proof.
  unfold translate, try_translate.
  destruct f as [e | r]; [discriminate |].
  destruct (negb (ok r)); [destruct (_ =? _)%Z; discriminate |].
  destruct (body r) as [[t |] | e]; try discriminate.
  destruct (is_empty (trim t)) eqn:Hempty; [discriminate |].
  intros H. injection H as <-.
  split; [now apply is_empty_false | apply trim_twice].
Qed.

Lemma openai_answer (c : Completed) (text : string) :
  openai c = Ok text -> text <> EmptyString /\ trim text = text.
Proof.
  unfold openai. destruct c as [e | [t |]]; try discriminate.
  destruct (is_empty (trim t)) eqn:Hempty; [discriminate |].
  intros H. injection H as <-.
  split; [now apply is_empty_false | apply trim_twice].
Qed.

(** What a capability answers is never empty and has no white space
    around it; so [needsTranslation], applied to an entry as the task has
    it once the answer is stored in it, holds exactly when the answer is
    the source id of the entry. *)
Theorem answers_are_trimmed (f : Fetched) (c : Completed) (text : string) :
  anthropic f = Ok text \/ gemini f = Ok text \/ openai c = Ok text ->
  text <> EmptyString
  /\ trim text = text
  /\ forall e : TranslationEntry,
       msgid e <> EmptyString ->
       Translator.needsTranslation (Translator.set_msgstr_entry text e)
       = String.eqb text (msgid e).
Proof.
  intros H.
  assert (Hans : text <> EmptyString /\ trim text = text).
  { destruct H as [H | [H | H]];
      [eapply translate_answer | eapply translate_answer | eapply openai_answer];
      exact H. }
  destruct Hans as [Hne Htrim]. split; [exact Hne |]. split; [exact Htrim |].
  intros e He. unfold Translator.needsTranslation. simpl.
  apply is_empty_false in Hne, He. rewrite Hne, He. simpl.
  now destruct (String.eqb text (msgid e)).
Qed.





End Capabilities.

(** ** The capabilities: the retry-after header *)

Section RetryAfter.

Import JsString Numbers Providers.
Local Open Scope Z_scope.
Local Arguments Z.of_nat : simpl never.
Local Arguments Z.mul : simpl never.
Local Arguments Z.pow : simpl never.

(** A header that starts with a letter, as an HTTP date does, is no
    number. *)
Lemma parseInt_not_a_number (c : ascii) (rest : string) :
  is_space c = false ->
  c <> "-"%char -> c <> "+"%char ->
  digit_value 10 c = None ->
  parseInt (String c rest) = NaN.
Proof.
  intros Hsp Hminus Hplus Hdigit. unfold parseInt.
  cbn [trimStart]. rewrite Hsp.
  assert (Hzero : c <> "0"%char) by (intros ->; discriminate).
  destruct c as [[] [] [] [] [] [] [] []];
    try (exfalso; congruence);
    cbn [digits]; rewrite Hdigit; reflexivity.
Qed.

(** The wait after a 429, for numbers that a double holds exactly: a
    header whose milliseconds do not exceed [2 ^ 53] and a retry number of
    1011 at most, where [5000 * 2 ^ retries] is still finite.  The
    Anthropic and Gemini capabilities turn the [retry-after] header into
    milliseconds with [parseInt]; the orchestrator waits that long when it
    is a number other than 0, and [5000 * 2 ^ retries] ms when the header
    is missing, empty, 0 or no number. *)
Theorem retry_after_sets_the_wait (name : string) (r : Response)
    (retries : nat) :
  ok r = false ->
  status r = 429 ->
  (forall (header : string) (z : Z),
      retry_after r = Some header -> parseInt header = Num z ->
      Z.abs z * 1000 <= 2 ^ 53) ->
  (retries <= 1011)%nat ->
  exists e : ProviderError,
    translate name (Responded r) = Throw e
    /\ pe_isRateLimit e = true
    /\ Translator.waitTime (to_JsError e) retries
       = match retry_after r with
         | Some header =>
             match parseInt header with
             | Num z => if z =? 0 then 5000 * 2 ^ Z.of_nat retries else z * 1000
             | NaN => 5000 * 2 ^ Z.of_nat retries
             end
         | None => 5000 * 2 ^ Z.of_nat retries
         end.
Proof.
  intros Hok Hstatus _ _. unfold translate, try_translate.
  rewrite Hok, Hstatus. simpl. eexists. split; [reflexivity |].
  split; [reflexivity |].
  unfold Translator.waitTime, to_JsError, retryAfter_of. simpl.
  destruct (retry_after r) as [header |]; [| reflexivity].
  destruct header as [| c rest]; [reflexivity |].
  cbn [is_empty].
  destruct (parseInt (String c rest)) as [| z]; simpl; [reflexivity |].
  destruct (Z.eqb_spec z 0) as [-> | Hz]; simpl; [reflexivity |].
  destruct (Z.eqb_spec (z * 1000) 0); [lia | reflexivity].
Qed.

End RetryAfter.

(** ** The orchestrator: runs of one task *)

Section TaskRuns.

Import Translator Runs Inputs Slots Siblings Events Cases.
Local Open Scope Z_scope.
Local Arguments Z.of_nat : simpl never.
Local Arguments Z.mul : simpl never.
Local Arguments Z.pow : simpl never.

(** The slots of one attempt of a task that runs alone.  When the
    capability answers and the bar can be drawn with the new count, the
    attempt takes one slot and gives it back.  Otherwise the [catch]
    block releases a slot which the [finally] block has released already,
    or which was never taken: when the capability throws, when the
    second [printProgress] throws after the answer, and when the first
    one throws before [acquireToken] is called, the in-flight count ends
    one below what it was before the attempt, unless that was 0. *)
Theorem attempt_slot_accounting (env : Env) (k : nat) (maxRetries : Z)
    (retries : nat) (w : World) :
  quiet env ->
  (3 <= patience env)%nat ->
  0 <= active w ->
  (bar_fails (progress (self w)) = true ->
   active (fst (attempt env k maxRetries retries w)) = Z.max 0 (active w - 1))
  /\ (bar_fails (progress (self w)) = false ->
      active w < ceiling w ->
      (forall text : string,
          outcome env retries = Ok text ->
          bar_fails (incr_completed (progress (self w))) = false ->
          active (fst (attempt env k maxRetries retries w)) = active w)
      /\ (forall text : string,
            outcome env retries = Ok text ->
            bar_fails (incr_completed (progress (self w))) = true ->
            active (fst (attempt env k maxRetries retries w))
            = Z.max 0 (active w - 1))
      /\ (forall error : JsError,
            outcome env retries = Throw error ->
            active (fst (attempt env k maxRetries retries w))
            = Z.max 0 (active w - 1))).
Proof.
  intros Hq Hfuel Hpos. unfold attempt, try_catch. split.
  - intros Hbar.
    destruct (try_block_no_bar env k retries w Hbar)
      as (w1 & -> & _ & _ & _ & Hl & _).
    destruct (catch_block_alone env k maxRetries retries range_error w1 Hq)
      as (w' & f & -> & _ & Ha & _).
    cbn [fst]. rewrite Ha. unfold active. now rewrite Hl.
  - intros Hbar Hfree. split; [| split].
    + intros text Hout Hbar'.
      destruct (try_block_answers env k retries w text Hq Hfuel Hbar Hbar'
                  Hfree Hout)
        as (w1 & -> & _ & _ & _ & _ & _ & _ & Ha & _).
      cbn [fst]. lia.
    + intros text Hout Hbar'.
      destruct (try_block_answer_lost env k retries w text Hq Hfuel Hbar
                  Hbar' Hfree Hout)
        as (w1 & -> & _ & _ & _ & _ & _ & _ & Ha1 & _).
      destruct (catch_block_alone env k maxRetries retries range_error w1 Hq)
        as (w' & f & -> & _ & Ha & _).
      cbn [fst]. lia.
    + intros error Hout.
      destruct (try_block_throws env k retries w error Hq Hfuel Hbar Hfree
                  Hout)
        as (w1 & -> & _ & _ & _ & _ & _ & _ & Ha1 & _).
      destruct (catch_block_alone env k maxRetries retries error w1 Hq)
        as (w' & f & -> & _ & Ha & _).
      cbn [fst]. lia.
Qed.

Lemma attempt_slot_accounting_witness :
  active (fst (attempt always_failing 0 3 0 one_slot_taken))
  = Z.max 0 (active one_slot_taken - 1).
Proof.
  destruct (attempt_slot_accounting always_failing 0 3 0 one_slot_taken
              ltac:(intros n p s; reflexivity)
              ltac:(vm_compute; lia)
              ltac:(vm_compute; discriminate)) as [_ H].
  destruct (H ltac:(vm_compute; reflexivity) ltac:(vm_compute; reflexivity))
    as (_ & _ & H3).
  apply (H3 empty_response). reflexivity.
Defined.

Lemma nth_update_nth {A : Type} (f : A -> A) (d : A) (l : list A) :
  forall k i : nat,
    nth i (update_nth k f l) d
    = if (i =? k)%nat && (k <? List.length l)%nat then f (nth i l d)
      else nth i l d.
Proof.
  induction l as [| x r IH]; intros k i; simpl.
  - destruct i, k; simpl; rewrite ?andb_false_r; reflexivity.
  - destruct k, i; simpl; try reflexivity.
    rewrite IH. reflexivity.
Qed.

Lemma length_update_nth {A : Type} (f : A -> A) (l : list A) :
  forall k : nat, List.length (update_nth k f l) = List.length l.
Proof.
  induction l as [| x r IH]; intros k; simpl; [destruct k; reflexivity |].
  destruct k; simpl; [reflexivity |]. now rewrite IH.
Qed.

Lemma calls_app (a b : list Event) :
  calls (a ++ b) = (calls a + calls b)%nat.
Proof. unfold calls. now rewrite filter_app, length_app. Qed.

Lemma set_msgstr_poFile (k : nat) (text : string) (s s' : t) :
  poFile s' = poFile s ->
  poFile (set_msgstr k text s') = poFile (set_msgstr k text s).
Proof. unfold set_msgstr. simpl. intros ->. reflexivity. Qed.

Lemma loop_solo (env : Env) (k : nat) (maxRetries : Z) (text : string)
    (j : nat) :
  quiet env ->
  (3 <= patience env)%nat ->
  answers_after j text env ->
  Z.of_nat j < maxRetries ->
  forall (fuel retries : nat) (w : World),
    (retries <= j)%nat ->
    maxRetries - Z.of_nat retries <= Z.of_nat fuel ->
    active w <= 0 -> 1 <= ceiling w ->
    bar_fails (progress (self w)) = false ->
    bar_fails (incr_completed (progress (self w))) = false ->
    exists w' : World,
      loop env k maxRetries fuel retries w = (w', Fulfilled)
      /\ config (self w') = config (self w)
      /\ poFile (self w') = poFile (set_msgstr k text (self w))
      /\ outputPath (self w') = outputPath (self w)
      /\ total (progress (self w')) = total (progress (self w))
      /\ completed (progress (self w')) = completed (progress (self w)) + 1
      /\ failed (progress (self w')) = failed (progress (self w))
      /\ active w' = 0
      /\ 1 <= ceiling w'
      /\ exists evs,
           events w' = events w ++ evs ++ [written env (self w')]
           /\ calls evs = (j - retries + 1)%nat
           /\ forallb (fun ev => negb (is_write ev)) evs = true.
Proof.
  intros Hq Hpat [Hfail Hok] Hj.
  induction fuel as [| fuel IH];
    intros retries w Hle Hfuel Ha Hc Hbar Hbar'; [lia |].
  simpl. destruct (Z.ltb_spec (Z.of_nat retries) maxRetries); [| lia].
  destruct (Nat.eq_dec retries j) as [-> | Hne].
  - unfold attempt, try_catch.
    destruct (try_block_answers env k j w text Hq Hpat Hbar Hbar'
                ltac:(lia) Hok)
      as (w1 & -> & T1 & T2 & T3 & T4 & T5 & T6 & T7 & T8 & T9).
    exists w1. split; [reflexivity |].
    repeat split; trivial; try lia.
    eexists [_]. split; [exact T9 |].
    replace (j - j + 1)%nat with 1%nat by lia. split; reflexivity.
  - destruct (Hfail retries ltac:(lia)) as [e He].
    assert (Hmore : Z.of_nat retries + 1 < maxRetries) by lia.
    destruct (attempt_retries env k maxRetries retries w e Hq Hpat Hbar Ha Hc
                He (or_intror Hmore))
      as (w1 & -> & A1 & A2 & A3 & A4 & A5 & A6 & A7 & A8
          & call & wait & Hev & Hc1 & Hw1 & Hc2 & Hw2).
    assert (Hbar1 : bar_fails (progress (self w1)) = false)
      by (rewrite <- Hbar; now apply bar_fails_counts).
    assert (Hbar1' : bar_fails (incr_completed (progress (self w1))) = false).
    { rewrite <- Hbar'. apply bar_fails_counts; simpl; congruence. }
    destruct (IH (S retries) w1 ltac:(lia) ltac:(lia) A7 A8 Hbar1 Hbar1')
      as (w' & -> & L1 & L2 & L3 & L4 & L5 & L6 & L7 & L8
          & evs & Hevs & Hcalls & Hnw).
    exists w'. split; [reflexivity |].
    repeat split; trivial; try congruence; try lia.
    + rewrite L2. now apply set_msgstr_poFile.
    + exists ([call; wait] ++ evs). rewrite Hevs, Hev, <- !app_assoc.
      split; [reflexivity |]. split.
      * rewrite calls_app, Hcalls. unfold calls. simpl.
        rewrite Hc1, Hc2. simpl. lia.
      * apply forallb_no_write_app; trivial. simpl. now rewrite Hw1, Hw2.
Qed.

(** The account of a task that runs alone and is answered after [j] failed
    attempts, [j] below the budget, with no request in flight, a ceiling
    of 1 at least, and counts for which the progress bar can be drawn,
    before the entry is counted and after: the catalog differs from the
    one it started in by the translation of its entry; one entry more is
    completed and none more failed; the capability was called [j + 1]
    times; the only file write is the last event, and it writes the
    catalog as it then is; and no request is in flight. *)
Theorem solo_run_account (env : Env) (k : nat) (w : World) (text : string)
    (j : nat) :
  quiet env ->
  (3 <= patience env)%nat ->
  answers_after j text env ->
  Z.of_nat j < maxRetries_of (config (self w)) ->
  active w <= 0 ->
  1 <= ceiling w ->
  bar_fails (progress (self w)) = false ->
  bar_fails (incr_completed (progress (self w))) = false ->
  exists w' : World,
    translateEntry env k w = (w', Fulfilled)
    /\ poFile (self w') = poFile (set_msgstr k text (self w))
    /\ completed (progress (self w')) = completed (progress (self w)) + 1
    /\ failed (progress (self w')) = failed (progress (self w))
    /\ active w' = 0
    /\ exists evs,
         events w' = events w ++ evs ++ [written env (self w')]
         /\ calls evs = (j + 1)%nat
         /\ forallb (fun ev => negb (is_write ev)) evs = true.
Proof.
  intros Hq Hpat Hans Hj Ha Hc Hbar Hbar'. unfold translateEntry.
  destruct (loop_solo env k _ text j Hq Hpat Hans Hj
              (Z.to_nat (maxRetries_of (config (self w)))) 0 w
              ltac:(lia) ltac:(lia) Ha Hc Hbar Hbar')
    as (w' & H & _ & H2 & _ & _ & H5 & H6 & H7 & _ & H9).
  exists w'. rewrite Nat.sub_0_r in H9. auto 10.
Qed.

Lemma solo_run_account_witness :
  exists w' : World,
    translateEntry third_time_lucky 0 (started no_options one_pending_entry)
    = (w', Fulfilled)
    /\ poFile (self w')
       = poFile (set_msgstr 0 "Ola"
                   (self (started no_options one_pending_entry)))
    /\ completed (progress (self w'))
       = completed (progress (self (started no_options one_pending_entry)))
         + 1
    /\ failed (progress (self w'))
       = failed (progress (self (started no_options one_pending_entry)))
    /\ active w' = 0
    /\ exists evs,
         events w'
         = events (started no_options one_pending_entry) ++ evs
           ++ [written third_time_lucky (self w')]
         /\ calls evs = (2 + 1)%nat
         /\ forallb (fun ev => negb (is_write ev)) evs = true.
Proof.
  apply (solo_run_account third_time_lucky 0
           (started no_options one_pending_entry) "Ola"%string 2).
  - intros n p s. reflexivity.
  - vm_compute. lia.
  - split; [| reflexivity].
    intros n Hn. destruct n as [| [| n]]; [eexists; reflexivity .. | lia].
  - reflexivity.
  - vm_compute. discriminate.
  - vm_compute. discriminate.
  - vm_compute. reflexivity.
  - vm_compute. reflexivity.
Defined.

End TaskRuns.

(** ** The orchestrator: the batches of a file *)

Section Batching.

Import Translator Files.
Local Open Scope Z_scope.

Lemma slice_forward {A : Type} (i b : Z) (l : list A) :
  0 <= i -> 0 < b ->
  slice i (i + b) l = firstn (Z.to_nat b) (skipn (Z.to_nat i) l).
Proof.
  intros Hi Hb. unfold slice.
  destruct (Z.ltb_spec i 0); [lia |].
  destruct (Z.ltb_spec (i + b) 0); [lia |].
  destruct (Z.le_gt_cases i (Z.of_nat (List.length l))) as [Hle | Hgt].
  - rewrite (Z.min_l i) by lia.
    destruct (Z.le_gt_cases (i + b) (Z.of_nat (List.length l))) as [Hle' | Hgt'].
    + rewrite Z.min_l by lia. f_equal. lia.
    + rewrite Z.min_r by lia.
      rewrite !firstn_all2; trivial; rewrite length_skipn; lia.
  - rewrite !Z.min_r by lia. rewrite Z.sub_diag. simpl.
    rewrite skipn_all2 by lia. now rewrite firstn_nil.
Qed.

Lemma batches_forward {A : Type} (b : Z) (l : list A) :
  0 < b ->
  forall (fuel : nat) (i : Z),
    0 <= i ->
    Z.of_nat (List.length l) - i <= Z.of_nat fuel ->
    exists bs : list (list A),
      batches b l fuel i = Some bs
      /\ List.concat bs = skipn (Z.to_nat i) l
      /\ Forall (fun x => Z.of_nat (List.length x) = b) (removelast bs)
      /\ Forall (fun x => 0 < Z.of_nat (List.length x) <= b) bs.
Proof.
  intros Hb. induction fuel as [| fuel IH]; intros i Hi Hfuel; simpl.
  - destruct (Z.ltb_spec i (Z.of_nat (List.length l))); [lia |].
    exists []. repeat split; try constructor.
    simpl. rewrite skipn_all2 by lia. reflexivity.
  - destruct (Z.ltb_spec i (Z.of_nat (List.length l))) as [Hlt | Hge].
    + destruct (IH (i + b) ltac:(lia) ltac:(lia)) as (bs & -> & Hcat & Hfull & Hall).
      eexists. split; [reflexivity |].
      rewrite slice_forward by lia.
      assert (Hlen : List.length (firstn (Z.to_nat b) (skipn (Z.to_nat i) l))
                     = Nat.min (Z.to_nat b) (List.length l - Z.to_nat i)).
      { rewrite length_firstn, length_skipn. reflexivity. }
      split; [| split].
      * simpl. rewrite Hcat.
        replace (Z.to_nat (i + b)) with (Z.to_nat b + Z.to_nat i)%nat by lia.
        rewrite <- skipn_skipn. apply firstn_skipn.
      * destruct bs as [| b1 bs']; [constructor |].
        change (removelast (?x :: b1 :: bs')) with (x :: removelast (b1 :: bs')).
        constructor; [| exact Hfull].
        rewrite Hlen.
        (* a batch follows: the loop test held at [i + b] *)
        assert (i + b < Z.of_nat (List.length l)).
        { destruct (Z.lt_ge_cases (i + b) (Z.of_nat (List.length l)));
            [assumption |].
          assert (Hnil : List.concat (b1 :: bs') = []).
          { rewrite Hcat. apply skipn_all2. lia. }
          inversion Hall as [| ? ? Hb1 _]; subst.
          simpl in Hnil. apply app_eq_nil in Hnil. destruct Hnil as [-> _].
          simpl in Hb1. lia. }
        lia.
      * constructor; [rewrite Hlen; lia | exact Hall].
    + exists []. repeat split; try constructor.
      simpl. rewrite skipn_all2 by lia. reflexivity.
Qed.

Lemma batches_backward {A : Type} (b : Z) (l : list A) :
  b < 0 -> l <> [] ->
  forall (fuel : nat) (i : Z), i <= 0 -> batches b l fuel i = None.
Proof.
  intros Hb Hl.
  assert (0 < Z.of_nat (List.length l)) by (destruct l; [congruence | simpl; lia]).
  induction fuel as [| fuel IH]; intros i Hi; simpl;
    destruct (Z.ltb_spec i (Z.of_nat (List.length l))); try lia.
  - reflexivity.
  - rewrite IH by lia. reflexivity.
Qed.

(** The batches of [translateFile].  With a positive batch size the loop
    ends, and its batches are the selected entries in their order, cut
    into runs of [batchSize] entries, the last one of at least one entry.
    With a negative batch size, which the [||] of the source lets through,
    the index moves away from the length and the loop never ends. *)
Theorem batches_partition {A : Type} (cfg : Config.t) (l : list A) :
  (0 < batchSize_of cfg ->
   exists bs : list (list A),
     batches (batchSize_of cfg) l (List.length l) 0 = Some bs
     /\ List.concat bs = l
     /\ Forall (fun x => Z.of_nat (List.length x) = batchSize_of cfg)
          (removelast bs)
     /\ Forall (fun x => 0 < Z.of_nat (List.length x) <= batchSize_of cfg) bs)
  /\ (batchSize_of cfg < 0 -> l <> [] ->
      forall fuel : nat, batches (batchSize_of cfg) l fuel 0 = None).
Proof.
  split.
  - intros Hb.
    destruct (batches_forward (batchSize_of cfg) l Hb (List.length l) 0)
      as (bs & H1 & H2 & H3 & H4); [lia | lia |].
    exists bs. auto.
  - intros Hb Hl fuel. apply batches_backward; trivial. lia.
Qed.

End Batching.

(** ** The orchestrator: [translateFile] *)

Section FileRuns.

Import Translator Runs Inputs Slots Siblings Events Files.
Local Open Scope Z_scope.
Local Arguments Z.of_nat : simpl never.
Local Arguments Z.mul : simpl never.
Local Arguments Z.pow : simpl never.

Lemma in_firstn_add {A : Type} (x : A) :
  forall (n m : nat) (l : list A),
    In x (firstn (n + m) l) ->
    In x (firstn n l) \/ In x (firstn m (skipn n l)).
Proof.
  induction n as [| n IH]; intros m l H; simpl in *.
  - now right.
  - destruct l as [| a l]; simpl in *; [contradiction |].
    destruct H as [-> | H]; [now left; left |].
    destruct (IH m l H); auto.
Qed.

Lemma in_firstn {A : Type} (x : A) :
  forall (n : nat) (l : list A), In x (firstn n l) -> In x l.
Proof.
  induction n as [| n IH]; intros [| a l] H; simpl in *; try contradiction.
  destruct H as [-> | H]; auto.
Qed.

Lemma in_firstn_skipn {A : Type} (x : A) (n m : nat) (l : list A) :
  In x (firstn m (skipn n l)) -> In x l.
Proof.
  intros H. apply in_firstn in H.
  rewrite <- (firstn_skipn n l). apply in_or_app. now right.
Qed.

Lemma filter_by_index {A : Type} (p : A -> bool) (d : A) (l : list A) :
  forall pre : list A,
    map (fun k => nth k (pre ++ l) d)
      (filter (fun k => p (nth k (pre ++ l) d))
         (seq (List.length pre) (List.length l)))
    = filter p l.
Proof.
  induction l as [| a l IH]; intros pre; simpl; [reflexivity |].
  rewrite app_nth2 by lia. rewrite Nat.sub_diag. simpl.
  specialize (IH (pre ++ [a])).
  rewrite <- app_assoc, length_app in IH. simpl in IH.
  rewrite Nat.add_1_r in IH.
  destruct (p a); simpl.
  - rewrite app_nth2 by lia. rewrite Nat.sub_diag. simpl. now rewrite IH.
  - exact IH.
Qed.

Lemma indices_entries (po : PoFile) :
  map (fun k => nth k (entries po) no_entry) (indicesToTranslate po)
  = entriesToTranslate po.
Proof. apply (filter_by_index needsTranslation no_entry (entries po) []). Qed.

Lemma in_indices (po : PoFile) (k : nat) :
  In k (indicesToTranslate po)
  <-> (k < List.length (entries po))%nat
      /\ needsTranslation (nth k (entries po) no_entry) = true.
Proof.
  unfold indicesToTranslate. rewrite filter_In, in_seq.
  split; intros [H1 H2]; split; trivial; lia.
Qed.

Lemma indices_nil (po : PoFile) :
  indicesToTranslate po = [] <-> entriesToTranslate po = [].
Proof.
  rewrite <- indices_entries. split; [intros ->; reflexivity |].
  destruct (indicesToTranslate po); [reflexivity | discriminate].
Qed.

Lemma entry_at_set_msgstr (k i : nat) (v : string) (s : t) :
  entry_at i (set_msgstr k v s)
  = if (i =? k)%nat && (k <? List.length (entries (poFile s)))%nat
    then set_msgstr_entry v (entry_at i s)
    else entry_at i s.
Proof. unfold entry_at, set_msgstr. simpl. apply nth_update_nth. Qed.

Lemma progressed_set (ks : list nat) (answer : nat -> string) (s0 : t)
    (k : nat) (done : list nat) (s : t) :
  In k ks ->
  (k < List.length (entries (poFile s0)))%nat ->
  progressed ks answer s0 done s ->
  progressed ks answer s0 (k :: done) (set_msgstr k (answer k) s).
Proof.
  intros Hin Hlen (H1 & H1' & H1'' & H2 & H3 & H4).
  unfold progressed, answered in *.
  split; [exact H1 |]. split; [exact H1' |]. split; [exact H1'' |].
  split; [unfold set_msgstr; simpl; now rewrite length_update_nth |].
  assert (Hk : entry_at k (set_msgstr k (answer k) s)
               = set_msgstr_entry (answer k) (entry_at k s0)).
  { rewrite entry_at_set_msgstr, Nat.eqb_refl, H2.
    apply Nat.ltb_lt in Hlen. rewrite Hlen. simpl.
    destruct (H3 k) as [-> | [_ ->]]; reflexivity. }
  assert (Hother : forall i, i <> k ->
             entry_at i (set_msgstr k (answer k) s) = entry_at i s).
  { intros i Hi. rewrite entry_at_set_msgstr.
    apply Nat.eqb_neq in Hi. rewrite Hi. reflexivity. }
  split.
  - intros i. destruct (Nat.eq_dec i k) as [-> | Hne].
    + right. split; assumption.
    + rewrite (Hother i Hne). apply H3.
  - intros i [<- | Hi]; [exact Hk |].
    destruct (Nat.eq_dec i k) as [-> | Hne]; [exact Hk |].
    rewrite (Hother i Hne). now apply H4.
Qed.

Lemma progressed_same (ks : list nat) (answer : nat -> string) (s0 : t)
    (done : list nat) (s s' : t) :
  config s' = config s -> outputPath s' = outputPath s ->
  poFile s' = poFile s ->
  progressed ks answer s0 done s -> progressed ks answer s0 done s'.
Proof.
  intros C P F (H1 & H2 & H3 & H4 & H5 & H6).
  unfold progressed, answered, entry_at in *. rewrite C, P, F.
  repeat split; assumption.
Qed.

Lemma allSettled_fulfilled {A : Type} (l : list A) :
  allSettled (map (fun _ => Fulfilled) l) = Fulfilled.
Proof.
  unfold allSettled.
  replace (existsb is_pending (map (fun _ => Fulfilled) l)) with false;
    [reflexivity |].
  induction l; simpl; trivial.
Qed.

(** A task that runs alone and is answered within the budget, with all
    that it leaves. *)
Lemma translateEntry_alone (env : Env) (k : nat) (w : World) (text : string)
    (j : nat) :
  quiet env ->
  (3 <= patience env)%nat ->
  answers_after j text env ->
  Z.of_nat j < maxRetries_of (config (self w)) ->
  active w <= 0 ->
  1 <= ceiling w ->
  bar_fails (progress (self w)) = false ->
  bar_fails (incr_completed (progress (self w))) = false ->
  exists w' : World,
    translateEntry env k w = (w', Fulfilled)
    /\ config (self w') = config (self w)
    /\ poFile (self w') = poFile (set_msgstr k text (self w))
    /\ outputPath (self w') = outputPath (self w)
    /\ total (progress (self w')) = total (progress (self w))
    /\ completed (progress (self w')) = completed (progress (self w)) + 1
    /\ failed (progress (self w')) = failed (progress (self w))
    /\ active w' = 0
    /\ 1 <= ceiling w'
    /\ exists evs, events w' = events w ++ evs.
Proof.
  intros Hq Hpat Hans Hj Ha Hc Hbar Hbar'. unfold translateEntry.
  destruct (loop_solo env k _ text j Hq Hpat Hans Hj
              (Z.to_nat (maxRetries_of (config (self w)))) 0 w
              ltac:(lia) ltac:(lia) Ha Hc Hbar Hbar')
    as (w' & H & H1 & H2 & H3 & H4 & H5 & H6 & H7 & H8 & evs & H9 & _).
  exists w'. repeat split; trivial.
  eexists. rewrite H9. reflexivity.
Qed.

(** The tasks of a batch that run one after the other. *)
Lemma run_tasks_alone (envs : nat -> Env) (tries : nat -> nat)
    (ks : list nat) (answer : nat -> string) (s0 : t) (n : nat) :
  (forall k, In k ks -> answered_alone answer s0 envs tries k) ->
  drawable (completed (progress s0)) n ->
  forall (batch done : list nat) (w : World),
    (forall k, In k batch -> In k ks) ->
    (List.length done + List.length batch <= n)%nat ->
    progressed ks answer s0 done (self w) ->
    on_course n s0 done (self w) ->
    exists w' : World,
      run_tasks envs batch w = (w', map (fun _ => Fulfilled) batch)
      /\ progressed ks answer s0 (List.rev batch ++ done) (self w')
      /\ on_course n s0 (List.rev batch ++ done) (self w')
      /\ exists evs, events w' = events w ++ evs.
Proof.
  intros Hall Hdraw.
  induction batch as [| k r IH]; intros done w Hin Hlen Hpro Hon.
  - exists w. split; [reflexivity |]. split; [exact Hpro |].
    split; [exact Hon |]. exists []. now rewrite app_nil_r.
  - cbn [run_tasks List.length] in *.
    destruct (Hall k (Hin k (or_introl eq_refl)))
      as (Hk & Hq & Hpat & Hans & Hbudget).
    pose proof Hpro as (P1 & P2 & P3 & P4 & P5 & P6).
    destruct Hon as (O1 & O2 & O3 & O4 & O5).
    assert (Hbar : bar_fails (progress (self w)) = false).
    { unfold bar_fails. rewrite O1, O2. apply Hdraw. lia. }
    assert (Hbar' : bar_fails (incr_completed (progress (self w))) = false).
    { unfold bar_fails. cbn [incr_completed completed total].
      rewrite O1, O2.
      replace (completed (progress s0) + Z.of_nat (List.length done) + 1)
        with (completed (progress s0) + Z.of_nat (S (List.length done)))
        by lia.
      apply Hdraw. lia. }
    destruct (translateEntry_alone (envs k) k w (answer k) (tries k) Hq Hpat
                Hans ltac:(now rewrite P1) O4 O5 Hbar Hbar')
      as (w1 & -> & T1 & T2 & T3 & T4 & T5 & T6 & T7 & T8 & evs1 & Hev1).
    destruct (IH (k :: done) w1) as (w' & Hrun & Hpro' & Hon' & evs & Hev).
    + intros i Hi. apply Hin. now right.
    + cbn [List.length]. lia.
    + apply (progressed_same ks answer s0 (k :: done)
               (set_msgstr k (answer k) (self w))); trivial.
      apply progressed_set; trivial. apply Hin. now left.
    + unfold on_course. cbn [List.length].
      unfold active, ceiling in *. rewrite T4, T5, T6, O1, O2, O3.
      repeat split; trivial; lia.
    + rewrite Hrun. exists w'. cbn [map rev]. rewrite <- app_assoc.
      split; [reflexivity |]. split; [exact Hpro' |]. split; [exact Hon' |].
      exists (evs1 ++ evs). rewrite Hev, Hev1, app_assoc. reflexivity.
Qed.

(** The loop of [translateFile] over batches whose tasks run one after
    the other. *)
Lemma batch_loop_alone (envs : nat -> Env) (tries : nat -> nat)
    (ks : list nat) (answer : nat -> string) (s0 : t) (b : Z) :
  0 < b ->
  (forall k, In k ks -> answered_alone answer s0 envs tries k) ->
  drawable (completed (progress s0)) (List.length ks) ->
  forall (fuel : nat) (i : Z) (w : World) (done : list nat),
    0 <= i ->
    Z.of_nat (List.length ks) - i <= Z.of_nat fuel ->
    progressed ks answer s0 done (self w) ->
    on_course (List.length ks) s0 done (self w) ->
    Z.of_nat (List.length done) = Z.min i (Z.of_nat (List.length ks)) ->
    (forall k, In k (firstn (Z.to_nat i) ks) -> In k done) ->
    exists (w' : World) (done' : list nat),
      batch_loop envs b ks fuel i w = (w', Fulfilled)
      /\ progressed ks answer s0 done' (self w')
      /\ on_course (List.length ks) s0 done' (self w')
      /\ List.length done' = List.length ks
      /\ (forall k, In k ks -> In k done')
      /\ exists evs, events w' = events w ++ evs.
Proof.
  intros Hb Hall Hdraw.
  induction fuel as [| fuel IH];
    intros i w done Hi Hfuel Hpro Hon Hcount Hdone; simpl.
  - destruct (Z.ltb_spec i (Z.of_nat (List.length ks))); [lia |].
    exists w, done. repeat split; trivial; try apply Hpro; try apply Hon.
    + lia.
    + intros k Hk. apply Hdone. rewrite firstn_all2 by lia. exact Hk.
    + exists []. now rewrite app_nil_r.
  - destruct (Z.ltb_spec i (Z.of_nat (List.length ks))) as [Hlt | Hge].
    + rewrite slice_forward by lia. unfold translateBatch.
      set (batch := firstn (Z.to_nat b) (skipn (Z.to_nat i) ks)).
      assert (Hblen : List.length batch
                      = Nat.min (Z.to_nat b) (List.length ks - Z.to_nat i))
        by (unfold batch; now rewrite length_firstn, length_skipn).
      destruct (run_tasks_alone envs tries ks answer s0 (List.length ks)
                  Hall Hdraw batch done w)
        as (w1 & -> & Hpro1 & Hon1 & evs & Hevs); trivial.
      { intros k Hk. eapply in_firstn_skipn, Hk. }
      { lia. }
      rewrite allSettled_fulfilled.
      destruct (IH (i + b) w1 (List.rev batch ++ done) ltac:(lia) ltac:(lia)
                  Hpro1 Hon1)
        as (w' & done' & Hloop & Hpro' & Hon' & Hlen' & Hdone' & evs' & Hevs').
      { rewrite length_app, length_rev. lia. }
      { intros k Hk.
        replace (Z.to_nat (i + b)) with (Z.to_nat i + Z.to_nat b)%nat in Hk
          by lia.
        apply in_firstn_add in Hk. apply in_or_app.
        destruct Hk as [Hk | Hk]; [right; auto | left; now apply in_rev in Hk]. }
      exists w', done'. repeat split; trivial; try apply Hpro'; try apply Hon'.
      exists (evs ++ evs'). rewrite Hevs', Hevs, app_assoc. reflexivity.
    + exists w, done. repeat split; trivial; try apply Hpro; try apply Hon.
      * lia.
      * intros k Hk. apply Hdone. rewrite firstn_all2 by lia. exact Hk.
      * exists []. now rewrite app_nil_r.
Qed.

(** A batch is fulfilled or pending. *)
Lemma translateBatch_settles (envs : nat -> Env) (ks : list nat) (w : World) :
  snd (translateBatch envs ks w) = Fulfilled
  \/ snd (translateBatch envs ks w) = Pending.
Proof.
  unfold translateBatch. destruct (run_tasks envs ks w) as [w' rs].
  apply allSettled_settles.
Qed.

Lemma batch_loop_backward (envs : nat -> Env) (b : Z) (ks : list nat) :
  b < 0 -> ks <> [] ->
  forall (fuel : nat) (i : Z) (w : World),
    i <= 0 -> snd (batch_loop envs b ks fuel i w) = Pending.
Proof.
  intros Hb Hks.
  assert (Hlen : 0 < Z.of_nat (List.length ks))
    by (destruct ks; [contradiction | simpl; lia]).
  induction fuel as [| fuel IH]; intros i w Hi; simpl;
    destruct (Z.ltb_spec i (Z.of_nat (List.length ks))); try lia;
    [reflexivity |].
  destruct (translateBatch_settles envs (slice i (i + b) ks) w) as [H1 | H1];
    destruct (translateBatch envs (slice i (i + b) ks) w) as [w' r];
    simpl in H1; subst r; [apply IH; lia | reflexivity].
Qed.

End FileRuns.

Section Files.

Import Translator Runs Inputs Slots Siblings Events Files.
Local Open Scope Z_scope.

(** When no entry of the catalog read is selected, [translateFile]
    returns before its loop: the catalog is loaded and nothing is
    written, so that the output file is not made. *)
Theorem nothing_selected_writes_nothing (content : string) (po : PoFile)
    (envs : nat -> Env) (write_error : option JsError) (output : string)
    (fuel : nat) (w : World) :
  PoParser.parse content = Ok po ->
  entriesToTranslate po = [] ->
  exists w' : World,
    translateFile (Ok content) envs write_error output fuel w
    = (w', Fulfilled)
    /\ poFile (self w') = po
    /\ total (progress (self w')) = 0
    /\ events w' = events w.
Proof.
  intros Hparse Hnone. unfold translateFile. rewrite Hparse.
  apply indices_nil in Hnone. rewrite Hnone. simpl.
  eexists. repeat split.
Qed.

(** A negative batch size, which [config.batchSize || 10] lets through,
    keeps [translateFile] in its loop for ever: with something to
    translate, the promise is pending whatever the number of iterations
    run. *)
Theorem negative_batch_size_never_ends (content : string) (po : PoFile)
    (envs : nat -> Env) (write_error : option JsError) (output : string)
    (w : World) :
  PoParser.parse content = Ok po ->
  entriesToTranslate po <> [] ->
  batchSize_of (config (self w)) < 0 ->
  forall fuel : nat,
    snd (translateFile (Ok content) envs write_error output fuel w) = Pending.
Proof.
  intros Hparse Hsome Hb fuel. unfold translateFile. rewrite Hparse.
  assert (Hks : indicesToTranslate po <> [])
    by (intros H; apply indices_nil in H; contradiction).
  destruct (Z.eqb_spec (Z.of_nat (List.length (indicesToTranslate po))) 0)
    as [H0 | _].
  { destruct (indicesToTranslate po); [congruence | simpl in H0; lia]. }
  pose proof (batch_loop_backward envs (batchSize_of (config (self w)))
                (indicesToTranslate po) Hb Hks fuel 0
                (mkWorld
                   (with_progress
                      (set_total (Z.of_nat (List.length (indicesToTranslate po))))
                      (load po output (self w)))
                   (events w)) ltac:(lia)) as Hloop.
  cbn [self config with_progress load] in *.
  destruct (batch_loop _ _ _ _ _ _) as [w2 r]. simpl in Hloop. subst r.
  reflexivity.
Qed.

(** [translateFile], end to end, for tasks that do not overlap, as the
    tasks of batches of one entry do not.  With a positive batch size, no
    request in flight, a ceiling of 1 at least, counts for which the
    progress bar can be drawn and a capability that answers the task of
    every selected entry within the retry budget, the promise is
    fulfilled; the catalog ends as the one read, header and entries, with
    the answer as the translation of each selected entry and every other
    entry as read; every selected entry is counted as completed and none
    as failed; and the last event is the write of that catalog to the
    output path. *)
Theorem translateFile_translates_selected (content : string) (po : PoFile)
    (envs : nat -> Env) (answer : nat -> string) (tries : nat -> nat)
    (output : string) (w : World) :
  PoParser.parse content = Ok po ->
  entriesToTranslate po <> [] ->
  0 < batchSize_of (config (self w)) ->
  active w <= 0 ->
  1 <= ceiling w ->
  drawable (completed (progress (self w)))
    (List.length (indicesToTranslate po)) ->
  (forall k : nat,
      In k (indicesToTranslate po) ->
      quiet (envs k)
      /\ (3 <= patience (envs k))%nat
      /\ answers_after (tries k) (answer k) (envs k)
      /\ Z.of_nat (tries k) < maxRetries_of (config (self w))) ->
  exists w' : World,
    translateFile (Ok content) envs None output
      (List.length (indicesToTranslate po)) w
    = (w', Fulfilled)
    /\ header (poFile (self w')) = header po
    /\ List.length (entries (poFile (self w'))) = List.length (entries po)
    /\ (forall k : nat,
          entry_at k (self w')
          = if needsTranslation (nth k (entries po) no_entry)
            then set_msgstr_entry (answer k) (nth k (entries po) no_entry)
            else nth k (entries po) no_entry)
    /\ completed (progress (self w'))
       = completed (progress (self w))
         + Z.of_nat (List.length (entriesToTranslate po))
    /\ failed (progress (self w')) = failed (progress (self w))
    /\ exists evs,
         events w'
         = events w ++ evs
           ++ [WriteFile output (PoParser.serialize (poFile (self w')))].
Proof.
  intros Hparse Hsome Hb Ha Hc Hdraw Hall. unfold translateFile.
  rewrite Hparse.
  rewrite <- (indices_entries po), length_map.
  set (ks := indicesToTranslate po) in *.
  assert (Hks : ks <> [])
    by (intros H; apply indices_nil in H; contradiction).
  destruct (Z.eqb_spec (Z.of_nat (List.length ks)) 0) as [H0 | _].
  { destruct ks; [congruence | simpl in H0; lia]. }
  set (w1 := mkWorld
               (with_progress (set_total (Z.of_nat (List.length ks)))
                  (load po output (self w)))
               (events w)).
  destruct (batch_loop_alone envs tries ks answer (self w1)
              (batchSize_of (config (self w1))) Hb)
    with (fuel := List.length ks) (i := 0) (w := w1) (done := @nil nat)
    as (w2 & done & Hloop & (H1 & H2 & H3 & H4 & H5 & H6)
        & (O1 & O2 & O3 & O4 & O5) & Hlen & Hdone & evs & Hevs).
  - intros k Hk. destruct (Hall k Hk) as (Hq & Hpat & Hans & Hbudget).
    apply in_indices in Hk. destruct Hk as [Hk _].
    repeat split; trivial; apply Hans.
  - exact Hdraw.
  - lia.
  - lia.
  - repeat split; auto. intros i [].
  - repeat split; trivial. simpl. lia.
  - simpl. lia.
  - intros k Hk. simpl in Hk. contradiction.
  - subst w1. cbn [self config with_progress load] in *. rewrite Hloop.
    unfold final_write. eexists. split; [reflexivity |].
    cbn [self events] in *. cbn [poFile outputPath] in *.
    split; [exact H3 |]. split; [exact H4 |]. split; [| split; [| split]].
    + intros k. unfold answered in *.
      destruct (needsTranslation (nth k (entries po) no_entry)) eqn:Hn.
      * destruct (Nat.lt_ge_cases k (List.length (entries po))) as [Hlt | Hge].
        -- apply H6, Hdone, in_indices. split; assumption.
        -- rewrite nth_overflow in Hn by exact Hge. discriminate.
      * destruct (H5 k) as [-> | [Hin _]]; [reflexivity |].
        apply in_indices in Hin. destruct Hin as [_ Hin]. congruence.
    + rewrite O2, Hlen. reflexivity.
    + exact O3.
    + exists evs. rewrite Hevs, H2. now rewrite <- app_assoc.
Qed.

End Files.

(** ** The catalog codec: what the string codec gives back *)

Section DecodingPasses.

Import JsString WellFormed Escapes PoParser Decoding.
Local Open Scope string_scope.

Ltac eqb_cases :=
  repeat match goal with
         | |- context [Ascii.eqb ?c ?k] =>
             let E := fresh "E" in
             destruct (Ascii.eqb_spec c k) as [E | E];
             [ first [ discriminate E | subst c | idtac ]
             | first [ now (exfalso; apply E) | idtac ] ]
         end.

Lemma layer_escaped (s : string) :
  forall after : bool,
    layer false false false after s = pending after ++ flat img0 s.
Proof.
  induction s as [| c r IH]; intros after; cbn [layer flat].
  - now rewrite app_empty_r.
  - rewrite !andb_false_r. cbn [andb]. rewrite IH.
    f_equal. rewrite <- app_assoc_s. f_equal.
    unfold body, img0, pending.
    destruct (Ascii.eqb c backslash); [reflexivity |].
    destruct (Ascii.eqb c dquote); [reflexivity |].
    destruct (Ascii.eqb c newline); [reflexivity |].
    destruct (Ascii.eqb c tab); reflexivity.
Qed.

(** The head of a layer that starts with a pending backslash. *)
Lemma layer_pending_head (dn dt dq : bool) (s : string) :
  exists (h : ascii) (rest : string),
    layer dn dt dq true s = String h rest
    /\ (h = backslash \/ h = newline \/ h = tab).
Proof.
  destruct s as [| c r]; cbn [layer pending andb append].
  - eauto.
  - destruct (dn && Ascii.eqb c "n"%char); [eauto 6 |].
    destruct (dt && Ascii.eqb c "t"%char); eauto 6.
Qed.

Lemma no_escape_at_pending (dn dt dq : bool) (x : ascii) (s : string) :
  x <> backslash -> x <> newline -> x <> tab ->
  prefix (str2 backslash x) (String backslash (layer dn dt dq true s)) = false.
Proof.
  intros H1 H2 H3.
  destruct (layer_pending_head dn dt dq s) as (h & rest & -> & Hh).
  rewrite prefix_char2, Ascii.eqb_refl. cbn [andb].
  apply Ascii.eqb_neq. intuition congruence.
Qed.

Lemma replace2_skip (x y : ascii) (rep r : string) :
  Ascii.eqb x y = false ->
  replace_go (str2 backslash x) rep 0 (String backslash (String y r))
  = String backslash (replace_go (str2 backslash x) rep 0 (String y r)).
Proof.
  intros H. apply replace2_miss.
  now rewrite prefix_char2, Ascii.eqb_refl, H.
Qed.

Ltac differ := first [ reflexivity | apply Ascii.eqb_neq; congruence ].

Ltac scan :=
  repeat first
    [ rewrite replace2_hit
    | rewrite replace2_skip by differ
    | rewrite replace2_pass by differ
    | rewrite replace2_miss by (apply no_escape_at_pending; discriminate) ].

Ltac pass_case IHf IHt :=
  cbn [layer andb pending append]; unfold body; eqb_cases;
  cbn [append]; scan;
  first [ rewrite IHf | rewrite IHt | idtac ]; try reflexivity.

Lemma pass_n (s : string) :
  forall after : bool,
    replaceAll (str2 backslash "n"%char) (str1 newline)
      (layer false false false after s)
    = layer true false false after s.
Proof.
  unfold replaceAll.
  enough (H : (replace_go (str2 backslash "n"%char) (str1 newline) 0
                 (layer false false false false s)
               = layer true false false false s)
              /\ (replace_go (str2 backslash "n"%char) (str1 newline) 0
                    (layer false false false true s)
                  = layer true false false true s))
    by (intros [|]; apply H).
  induction s as [| c r [IHf IHt]]; [split; reflexivity |].
  assert (Hf : replace_go (str2 backslash "n"%char) (str1 newline) 0
                 (layer false false false false (String c r))
               = layer true false false false (String c r))
    by pass_case IHf IHt.
  split; [exact Hf |].
  cbn [layer andb pending append] in *.
  destruct (Ascii.eqb_spec c "n"%char) as [-> | Hc].
  - change (body false false false "n"%char) with (str1 "n"%char).
    change (Ascii.eqb "n"%char backslash) with false.
    cbn [append]. rewrite replace2_hit, IHf. reflexivity.
  - rewrite <- Hf. unfold body. eqb_cases; cbn [append]; scan;
      reflexivity.
Qed.

Lemma pass_t (s : string) :
  forall after : bool,
    replaceAll (str2 backslash "t"%char) (str1 tab)
      (layer true false false after s)
    = layer true true false after s.
Proof.
  unfold replaceAll.
  enough (H : (replace_go (str2 backslash "t"%char) (str1 tab) 0
                 (layer true false false false s)
               = layer true true false false s)
              /\ (replace_go (str2 backslash "t"%char) (str1 tab) 0
                    (layer true false false true s)
                  = layer true true false true s))
    by (intros [|]; apply H).
  induction s as [| c r [IHf IHt]]; [split; reflexivity |].
  assert (Hf : replace_go (str2 backslash "t"%char) (str1 tab) 0
                 (layer true false false false (String c r))
               = layer true true false false (String c r))
    by pass_case IHf IHt.
  split; [exact Hf |].
  cbn [layer andb pending append] in *.
  destruct (Ascii.eqb_spec c "n"%char) as [-> | Hn].
  - scan. rewrite IHf. reflexivity.
  - destruct (Ascii.eqb_spec c "t"%char) as [-> | Hc].
    + change (body true false false "t"%char) with (str1 "t"%char).
      change (Ascii.eqb "t"%char backslash) with false.
      cbn [append]. rewrite replace2_hit, IHf. reflexivity.
    + rewrite <- Hf. unfold body. eqb_cases; cbn [append]; scan;
        reflexivity.
Qed.

Lemma pass_quote (s : string) :
  forall after : bool,
    replaceAll (str2 backslash dquote) (str1 dquote)
      (layer true true false after s)
    = layer true true true after s.
Proof.
  unfold replaceAll.
  enough (H : (replace_go (str2 backslash dquote) (str1 dquote) 0
                 (layer true true false false s)
               = layer true true true false s)
              /\ (replace_go (str2 backslash dquote) (str1 dquote) 0
                    (layer true true false true s)
                  = layer true true true true s))
    by (intros [|]; apply H).
  induction s as [| c r [IHf IHt]]; [split; reflexivity |].
  assert (Hf : replace_go (str2 backslash dquote) (str1 dquote) 0
                 (layer true true false false (String c r))
               = layer true true true false (String c r))
    by pass_case IHf IHt.
  split; [exact Hf |].
  cbn [layer andb pending append] in *.
  destruct (Ascii.eqb_spec c "n"%char) as [-> | Hn].
  - scan. rewrite IHf. reflexivity.
  - destruct (Ascii.eqb_spec c "t"%char) as [-> | Hc].
    + scan. rewrite IHf. reflexivity.
    + rewrite <- Hf. unfold body. eqb_cases; cbn [append]; scan;
        reflexivity.
Qed.

(** The last pass joins each backslash with the one that was pending, and
    leaves alone a backslash whose second one an earlier pass took. *)
Lemma pass_backslash (s : string) :
  replace_go (str2 backslash backslash) (str1 backslash) 0
    (layer true true true false s)
  = decoded false s
  /\ replace_go (str2 backslash backslash) (str1 backslash) 0
       (String backslash (layer true true true true s))
     = String backslash (decoded true s).
Proof.
  induction s as [| c r [IHf IHt]]; [split; reflexivity |].
  assert (Hf : replace_go (str2 backslash backslash) (str1 backslash) 0
                 (layer true true true false (String c r))
               = decoded false (String c r)).
  { cbn [layer decoded andb pending append]. unfold body.
    eqb_cases; cbn [append]; first [ rewrite IHt | scan; rewrite IHf ];
      reflexivity. }
  split; [exact Hf |].
  cbn [layer decoded andb pending append] in *.
  destruct (Ascii.eqb_spec c "n"%char) as [-> | Hn].
  - scan. rewrite IHf. reflexivity.
  - destruct (Ascii.eqb_spec c "t"%char) as [-> | Hc].
    + scan. rewrite IHf. reflexivity.
    + rewrite replace2_hit, Hf. reflexivity.
Qed.

(** The four passes on an escaped string. *)
Lemma unescape_decoded (s : string) :
  unescape (flat img0 s) = decoded false s.
Proof.
  unfold unescape.
  replace (flat img0 s) with (layer false false false false s)
    by apply layer_escaped.
  rewrite pass_n, pass_t, pass_quote. apply pass_backslash.
Qed.

(** [decoded] changes nothing exactly when no backslash is followed by the
    letter n or the letter t. *)
Lemma decoded_same (s : string) :
  forall after : bool,
    decoded after s = s
    <-> (after = true -> next_ok s = true) /\ plain_backslashes s = true.
Proof.
  induction s as [| c r IH]; intros after.
  - cbn. tauto.
  - cbn [decoded plain_backslashes next_ok].
    destruct after; cbn [andb].
    + destruct (Ascii.eqb_spec c "n"%char) as [-> | Hn].
      { cbn. split; [discriminate | intros [H _]; now specialize (H eq_refl)]. }
      destruct (Ascii.eqb_spec c "t"%char) as [-> | Hc].
      { cbn. split; [discriminate | intros [H _]; now specialize (H eq_refl)]. }
      cbn [orb negb]. split.
      * intros H. injection H as H. apply IH in H. destruct H as [H1 H2].
        split; [reflexivity |]. apply andb_true_iff. split; [| exact H2].
        destruct (Ascii.eqb c backslash); [now apply H1 | reflexivity].
      * intros [_ H]. apply andb_true_iff in H. destruct H as [H1 H2].
        f_equal. apply IH. split; [| exact H2].
        intros E. now rewrite E in H1.
    + split.
      * intros H. injection H as H. apply IH in H. destruct H as [H1 H2].
        split; [discriminate |]. apply andb_true_iff. split; [| exact H2].
        destruct (Ascii.eqb c backslash); [now apply H1 | reflexivity].
      * intros [_ H]. apply andb_true_iff in H. destruct H as [H1 H2].
        f_equal. apply IH. split; [| exact H2].
        intros E. now rewrite E in H1.
Qed.

End DecodingPasses.

Section DecodedStrings.

Import JsString WellFormed Escapes PoParser Decoding.
Local Open Scope string_scope.

(** [PoParser.parseString] after [PoParser.escapeString], for every
    string: a backslash followed by the letter n or the letter t comes back
    as a backslash followed by a line feed or a tab, and nothing else
    changes.  The string comes back as it was exactly when no backslash in
    it is followed by the letter n or the letter t. *)
Theorem codec_gives_back (s : string) :
  parseString (quote ++ escapeString s ++ quote) = decoded false s
  /\ (parseString (quote ++ escapeString s ++ quote) = s
      <-> plain_backslashes s = true).
Proof.
  rewrite parseString_quoted, escape_flat, unescape_decoded.
  split; [reflexivity |].
  rewrite decoded_same. intuition discriminate.
Qed.

End DecodedStrings.

(** ** The orchestrator: a negative retry budget *)

Section IdleRuns.

Import Translator Runs Inputs Events Files Cases.
Local Open Scope Z_scope.

Lemma run_tasks_idle (envs : nat -> Env) (ks : list nat) (w : World) :
  maxRetries_of (config (self w)) < 0 ->
  run_tasks envs ks w = (w, map (fun _ => Fulfilled) ks).
Proof.
  intros H. induction ks as [| k r IH]; [reflexivity |].
  cbn [run_tasks map]. unfold translateEntry.
  destruct (Z.to_nat (maxRetries_of (config (self w)))); cbn [loop];
    (destruct (Z.ltb_spec (Z.of_nat 0) (maxRetries_of (config (self w))));
     [lia |]); now rewrite IH.
Qed.

Lemma batch_loop_idle (envs : nat -> Env) (b : Z) (ks : list nat) (w : World) :
  0 < b ->
  maxRetries_of (config (self w)) < 0 ->
  forall (fuel : nat) (i : Z),
    Z.of_nat (List.length ks) - i <= Z.of_nat fuel ->
    batch_loop envs b ks fuel i w = (w, Fulfilled).
Proof.
  intros Hb Hm.
  induction fuel as [| fuel IH]; intros i Hfuel; cbn [batch_loop].
  - destruct (Z.ltb_spec i (Z.of_nat (List.length ks))); [lia | reflexivity].
  - destruct (Z.ltb_spec i (Z.of_nat (List.length ks))); [| reflexivity].
    unfold translateBatch. rewrite run_tasks_idle by exact Hm.
    rewrite allSettled_fulfilled. apply IH. lia.
Qed.

(** A negative [maxRetries], which [config.maxRetries || 3] lets through,
    makes [translateEntry] return before its first attempt.
    [translateFile] then asks the capability for nothing and counts no
    entry as completed or failed, and still fulfils its promise after one
    write: the catalog as read, untranslated, to the output path. *)
Theorem negative_retries_translate_nothing (content : string) (po : PoFile)
    (envs : nat -> Env) (output : string) (w : World) :
  PoParser.parse content = Ok po ->
  entriesToTranslate po <> [] ->
  0 < batchSize_of (config (self w)) ->
  maxRetries_of (config (self w)) < 0 ->
  exists w' : World,
    translateFile (Ok content) envs None output
      (List.length (indicesToTranslate po)) w
    = (w', Fulfilled)
    /\ poFile (self w') = po
    /\ total (progress (self w')) = Z.of_nat (List.length (entriesToTranslate po))
    /\ completed (progress (self w')) = completed (progress (self w))
    /\ failed (progress (self w')) = failed (progress (self w))
    /\ events w' = events w ++ [WriteFile output (PoParser.serialize po)].
Proof.
  intros Hparse Hsome Hb Hm. unfold translateFile. rewrite Hparse.
  rewrite <- indices_entries in *. rewrite length_map.
  set (ks := indicesToTranslate po) in *.
  destruct (Z.eqb_spec (Z.of_nat (List.length ks)) 0) as [H0 | _].
  { destruct ks; [now contradiction Hsome | simpl in H0; lia]. }
  rewrite batch_loop_idle; [| exact Hb | exact Hm | lia].
  eexists. split; [reflexivity |]. cbn. repeat split.
Qed.

Lemma negative_retries_translate_nothing_witness :
  exists w' : World,
    translateFile (Ok (PoParser.serialize one_pending_entry)) answered_at_once None
      "out.po" 1 (fresh options_max_retries_minus_1)
    = (w', Fulfilled)
    /\ poFile (self w')
       = mkPoFile [] [mkEntry "Hello" EmptyString None (Some 4%nat)]
    /\ total (progress (self w')) = 1
    /\ completed (progress (self w')) = 0
    /\ failed (progress (self w')) = 0
    /\ events w'
       = [WriteFile "out.po"
            (PoParser.serialize
               (mkPoFile [] [mkEntry "Hello" EmptyString None (Some 4%nat)]))].
Proof.
  apply (negative_retries_translate_nothing (PoParser.serialize one_pending_entry)
           (mkPoFile [] [mkEntry "Hello" EmptyString None (Some 4%nat)])
           answered_at_once "out.po" (fresh options_max_retries_minus_1)).
  - vm_compute. reflexivity.
  - discriminate.
  - reflexivity.
  - reflexivity.
Defined.

End IdleRuns.

(** ** The rate limiter: calls that run one at a time *)

Section SoloLists.

Import RateLimiter Solo.
Local Open Scope Z_scope.

Lemma filter_suffix (now window : Z) (l : list Z) :
  StronglySorted Z.le l ->
  exists gone : list Z,
    l = gone ++ filter (within now window) l
    /\ Forall (fun x => x + window <= now) gone
    /\ Forall (fun x => now - x < window) (filter (within now window) l).
Proof.
  induction 1 as [| x r Hr IH Hx].
  - exists []. repeat split; constructor.
  - destruct IH as (gone & Hl & Hgone & Hin).
    cbn [filter].
    destruct (within now window x) eqn:Hw; unfold within in Hw;
      [apply Z.ltb_lt in Hw | apply Z.ltb_ge in Hw].
    + exists []. split; [| split; [constructor |]].
      * cbn [app]. f_equal. symmetry. apply forallb_filter_id.
        apply forallb_forall. intros y Hy. unfold within.
        apply Z.ltb_lt. rewrite Forall_forall in Hx.
        specialize (Hx y Hy). lia.
      * constructor; [exact Hw | exact Hin].
    + exists (x :: gone). split; [| split].
      * cbn [app]. now f_equal.
      * constructor; [lia | exact Hgone].
      * exact Hin.
Qed.

Lemma sorted_grants_snoc (h : list Z) (t : Z) :
  StronglySorted Z.le h -> Forall (fun x => x <= t) h ->
  StronglySorted Z.le (h ++ [t]).
Proof.
  induction 1 as [| x r Hr IH Hx]; intros Ht; cbn [app].
  - repeat constructor.
  - inversion Ht as [| ? ? Hxt Hrt]; subst. constructor; [now apply IH |].
    apply Forall_app. split; [exact Hx | now constructor].
Qed.

Lemma sorted_neighbours (h : list Z) :
  StronglySorted Z.le h ->
  forall (i : nat) (a b : Z),
    nth_error h i = Some a -> nth_error h (S i) = Some b -> a <= b.
Proof.
  induction 1 as [| x r Hr IH Hx]; intros i a b Ha Hb.
  - destruct i; discriminate.
  - destruct i as [| i]; cbn [nth_error] in Ha, Hb.
    + injection Ha as <-. rewrite Forall_forall in Hx. apply Hx.
      destruct r; [discriminate | injection Hb as <-; now left].
    + now apply (IH i).
Qed.

Lemma sorted_tail (a b : list Z) :
  StronglySorted Z.le (a ++ b) -> StronglySorted Z.le b.
Proof.
  induction a as [| x a IH]; cbn [app]; [trivial |].
  intros H. inversion H; subst. now apply IH.
Qed.

Lemma spaced_snoc (n : nat) (window : Q) (h : list Z) (t : Z) :
  (1 <= n)%nat ->
  spaced n window h ->
  (forall a : Z,
      nth_error (rev h) (n - 1) = Some a ->
      (inject_Z a + window <= inject_Z t)%Q) ->
  spaced n window (h ++ [t]).
Proof.
  intros Hn Hs Hlast i a b Ha Hb.
  destruct (Nat.lt_ge_cases (i + n) (List.length h)) as [Hlt | Hge].
  - rewrite nth_error_app1 in Ha, Hb by lia. now apply (Hs i).
  - assert (Hlen : (i + n < List.length (h ++ [t]))%nat)
      by (apply nth_error_Some; congruence).
    rewrite length_app in Hlen. cbn [List.length] in Hlen.
    rewrite nth_error_app2 in Hb by lia.
    replace (i + n - List.length h)%nat with 0%nat in Hb by lia.
    injection Hb as <-.
    rewrite nth_error_app1 in Ha by lia.
    apply Hlast. rewrite nth_error_rev.
    destruct (Nat.ltb_spec (n - 1) (List.length h)); [| lia].
    rewrite <- Ha. f_equal. lia.
Qed.

(** A window holds no more grants than the limit. *)
Lemma window_count (n : nat) (window now : Z) (h pre F : list Z) :
  (1 <= n)%nat ->
  spaced n (inject_Z window) h ->
  h = pre ++ F ->
  Forall (fun x => now - x < window) F ->
  Forall (fun x => x <= now) h ->
  (List.length F <= n)%nat.
Proof.
  intros Hn Hs -> HF Hh.
  destruct (Nat.le_gt_cases (List.length F) n) as [| Hgt]; [trivial |].
  exfalso.
  destruct (nth_error F 0) as [f0 |] eqn:H0;
    [| apply nth_error_None in H0; lia].
  destruct (nth_error F n) as [fn |] eqn:H1;
    [| apply nth_error_None in H1; lia].
  specialize (Hs (List.length pre) f0 fn).
  rewrite !nth_error_app2 in Hs by lia.
  replace (List.length pre - List.length pre)%nat with 0%nat in Hs by lia.
  replace (List.length pre + n - List.length pre)%nat with n in Hs by lia.
  specialize (Hs H0 H1).
  rewrite <- inject_Z_plus, <- Zle_Qle in Hs.
  rewrite Forall_forall in HF, Hh.
  assert (now - f0 < window) by (apply HF; eapply nth_error_In; eauto).
  assert (fn <= now).
  { apply Hh, in_or_app. right. eapply nth_error_In; eauto. }
  lia.
Qed.

Lemma clear_later (n : Z) (window : Q) (h : list Z) (T T' : Q) :
  (T <= T')%Q -> clear n window h T -> clear n window h T'.
Proof.
  intros HT H Hn a Ha. eapply Qle_trans; [now apply H | exact HT].
Qed.

Lemma clear_short (n : Z) (window : Q) (h pre F : list Z) (T : Q) :
  h = pre ++ F ->
  Z.of_nat (List.length F) < n ->
  Forall (fun x => (inject_Z x + window <= T)%Q) pre ->
  clear n window h T.
Proof.
  intros -> Hlen Hpre Hn a Ha.
  rewrite rev_app_distr, nth_error_app2 in Ha by (rewrite length_rev; lia).
  apply nth_error_In, in_rev in Ha.
  rewrite Forall_forall in Hpre. now apply Hpre.
Qed.

Lemma clear_full (n : Z) (window : Q) (h pre F : list Z) (f0 : Z) :
  h = pre ++ F ->
  List.length F = Z.to_nat n ->
  hd_error F = Some f0 ->
  clear n window h (inject_Z f0 + window).
Proof.
  intros -> Hlen Hhd Hn a Ha.
  rewrite rev_app_distr, nth_error_app1 in Ha by (rewrite length_rev; lia).
  rewrite nth_error_rev in Ha.
  destruct (Nat.ltb_spec (Z.to_nat n - 1) (List.length F)); [| lia].
  replace (List.length F - S (Z.to_nat n - 1))%nat with 0%nat in Ha by lia.
  rewrite nth_error_0, Hhd in Ha. injection Ha as <-. apply Qle_refl.
Qed.

End SoloLists.

Section SoloSteps.

Import RateLimiter Solo.
Local Open Scope Z_scope.

Lemma last_grant_passed (c : Z) (l : t) (h : list Z) (a : Z) :
  kept c l h -> nth_error (rev h) 0 = Some a -> a <= c.
Proof.
  intros (_ & Hc & _) Ha. apply nth_error_In, in_rev in Ha.
  rewrite Forall_forall in Hc. now apply Hc.
Qed.

Lemma commit_kept (t0 : Z) (l : t) (h : list Z) :
  kept t0 l h ->
  clear (requestsPerMinute l) 60000 h (inject_Z t0) ->
  clear (requestsPerSecond l) 1000 h (inject_Z t0) ->
  clear 1 (currentDelay l) h (inject_Z t0) ->
  stepped t0 l h (commit t0 l).
Proof.
  intros (Hs & Hc & (old & Hold & Hgone) & Hm & Hsec & Hd) Cm Cs Cd.
  unfold stepped, commit. cbn [fst snd is_holding phase_ok].
  split; [| split; [exact I | repeat split]].
  repeat split; cbn [requestTimes requestsPerMinute requestsPerSecond
                       currentDelay].
  - now apply sorted_grants_snoc.
  - apply Forall_app. split; [exact Hc | constructor; [lia | constructor]].
  - exists old. split; [| exact Hgone]. rewrite Hold at 1.
    now rewrite <- app_assoc.
  - intros Hn. apply spaced_snoc; [lia | now apply Hm | now apply Cm].
  - intros Hn. apply spaced_snoc; [lia | now apply Hsec | now apply Cs].
  - intros Hn. apply spaced_snoc; [lia | now apply Hd | now apply Cd].
Qed.

Lemma apply_delay_stepped (t0 : Z) (l : t) (h : list Z) :
  kept t0 l h ->
  clear (requestsPerMinute l) 60000 h (inject_Z t0) ->
  clear (requestsPerSecond l) 1000 h (inject_Z t0) ->
  stepped t0 l h (apply_delay t0 l).
Proof.
  intros Hk Cm Cs. unfold apply_delay, Qgtb.
  destruct (Qle_bool (currentDelay l) 0) eqn:Hd; cbn [negb].
  - apply Qle_bool_iff in Hd. apply commit_kept; trivial.
    intros _ a Ha. change (Z.to_nat 1 - 1)%nat with 0%nat in Ha.
    pose proof (last_grant_passed _ _ _ _ Hk Ha) as Hle.
    rewrite Zle_Qle in Hle. lra.
  - unfold stepped. cbn [fst snd is_holding phase_ok]. rewrite app_nil_r.
    split; [exact Hk |]. split; [| repeat split].
    split; [exact Cm |]. split; [exact Cs |].
    intros _ a Ha. change (Z.to_nat 1 - 1)%nat with 0%nat in Ha.
    pose proof (last_grant_passed _ _ _ _ Hk Ha) as Hle.
    rewrite Zle_Qle in Hle. lra.
Qed.

Lemma expired_weaker (window window' now now' : Z) (l : list Z) :
  window' <= window -> now <= now' ->
  Forall (fun x => x + window <= now) l ->
  Forall (fun x => (inject_Z x + inject_Z window' <= inject_Z now')%Q) l.
Proof.
  intros Hw Hn. apply Forall_impl. intros x Hx.
  rewrite <- inject_Z_plus, <- Zle_Qle. lia.
Qed.

(** The test of a window: [F] holds the recorded grants in the window at
    [now], and the call sleeps until the first of them leaves it when
    they are as many as the limit. *)
Lemma window_checked (n window now t0 : Z) (h pre F : list Z) :
  limit_ok n (inject_Z window) h ->
  Forall (fun x => x <= now) h ->
  now <= t0 ->
  h = pre ++ F ->
  Forall (fun x => x + window <= now) pre ->
  Forall (fun x => now - x < window) F ->
  if Z.of_nat (List.length F) >=? n
  then clear n (inject_Z window) h
         (inject_Z (t0 + wait_for now window (hd_error F)))
  else clear n (inject_Z window) h (inject_Z t0).
Proof.
  intros Hl Hh Hnow Hsplit Hpre HF.
  destruct (Z.geb_spec (Z.of_nat (List.length F)) n) as [Hge | Hlt].
  - intros Hn.
    assert (Hlen : (List.length F <= Z.to_nat n)%nat).
    { apply (window_count (Z.to_nat n) window now h pre F); trivial;
        [lia | now apply Hl]. }
    destruct F as [| f0 F']; [simpl in Hge; lia |].
    cbn [hd_error wait_for].
    apply (clear_later n _ h (inject_Z f0 + inject_Z window));
      [| eapply clear_full; eauto; lia | exact Hn].
    rewrite <- inject_Z_plus, <- Zle_Qle. lia.
  - apply (clear_short n _ h pre F); trivial.
    now apply (expired_weaker window window now t0); try lia.
Qed.

Lemma check_second_stepped (now t0 : Z) (l : t) (h : list Z) :
  kept t0 l h ->
  now <= t0 ->
  Forall (fun x => x <= now) h ->
  recorded now l h ->
  clear (requestsPerMinute l) 60000 h (inject_Z t0) ->
  stepped t0 l h (check_second now t0 l).
Proof.
  intros Hk Hnow Hh (old & Hold & Hgone) Cm. unfold check_second.
  pose proof Hk as (Hs & _ & _ & _ & Hsec & _).
  assert (Hts : StronglySorted Z.le (requestTimes l))
    by (apply (sorted_tail old); now rewrite <- Hold).
  destruct (filter_suffix now 1000 _ Hts) as (gone & Hsplit & Hexp & Hin).
  set (recent := filter (within now 1000) (requestTimes l)) in *.
  pose proof (window_checked (requestsPerSecond l) 1000 now t0 h
                (old ++ gone) recent Hsec Hh Hnow) as Hw.
  destruct (Z.of_nat (List.length recent) >=? requestsPerSecond l).
  - unfold stepped. cbn [fst snd is_holding phase_ok]. rewrite app_nil_r.
    split; [exact Hk |]. split; [| repeat split].
    split; [exact Cm |]. apply Hw; trivial.
    + rewrite Hold, Hsplit at 1. now rewrite app_assoc.
    + apply Forall_app. split; [| exact Hexp].
      revert Hgone. apply Forall_impl. intros x Hx. lia.
  - apply apply_delay_stepped; trivial. apply Hw; trivial.
    + rewrite Hold, Hsplit at 1. now rewrite app_assoc.
    + apply Forall_app. split; [| exact Hexp].
      revert Hgone. apply Forall_impl. intros x Hx. lia.
Qed.

Lemma stepped_from (c : Z) (l l1 : t) (h : list Z) (r : t * Pc) :
  same_limits l l1 -> stepped c l1 h r -> stepped c l h r.
Proof.
  intros (H1 & H2 & H3) (Hk & Hp & H4 & H5 & H6).
  split; [exact Hk |]. split; [exact Hp |].
  repeat split; congruence.
Qed.

Lemma check_minute_stepped (t0 : Z) (l : t) (h : list Z) :
  kept t0 l h -> stepped t0 l h (check_minute t0 l).
Proof.
  intros Hk. unfold check_minute. cbv zeta.
  pose proof Hk as (Hs & Hc & (old & Hold & Hgone) & Hm & Hsec & Hd).
  assert (Hts : StronglySorted Z.le (requestTimes l))
    by (apply (sorted_tail old); now rewrite <- Hold).
  destruct (filter_suffix t0 60000 _ Hts) as (gone & Hsplit & Hexp & Hin).
  set (F := filter (within t0 60000) (requestTimes l)) in *.
  set (l1 := set_requestTimes F l).
  assert (Hh : h = (old ++ gone) ++ F)
    by (rewrite Hold, Hsplit at 1; now rewrite app_assoc).
  assert (Hpre : Forall (fun x => x + 60000 <= t0) (old ++ gone))
    by (apply Forall_app; now split).
  assert (Hrec : recorded t0 l1 h) by now exists (old ++ gone).
  assert (Hk1 : kept t0 l1 h) by (repeat split; trivial).
  assert (Hsame : same_limits l l1) by (repeat split).
  pose proof (window_checked (requestsPerMinute l) 60000 t0 t0 h
                (old ++ gone) F Hm Hc (Z.le_refl _) Hh Hpre Hin) as Hw.
  change (requestTimes l1) with F.
  change (requestsPerMinute l1) with (requestsPerMinute l).
  destruct (Z.of_nat (List.length F) >=? requestsPerMinute l).
  - unfold stepped. cbn [fst snd is_holding phase_ok]. rewrite app_nil_r.
    split; [exact Hk1 |]. split; [| exact Hsame].
    split; [lia |]. split; [exact Hc |]. split; [exact Hrec | exact Hw].
  - apply (stepped_from _ _ l1); [exact Hsame |].
    now apply check_second_stepped.
Qed.

Lemma enter_stepped (t0 : Z) (l : t) (h : list Z) :
  kept t0 l h -> stepped t0 l h (enter t0 l).
Proof.
  intros Hk. unfold enter.
  destruct (activeRequests l >=? maxConcurrentRequests l).
  - unfold stepped. cbn [fst snd is_holding phase_ok]. rewrite app_nil_r.
    repeat split; trivial; apply Hk.
  - now apply check_minute_stepped.
Qed.

Lemma woken (t0 : Z) (wake : Q) (n : Z) (window : Q) (h : list Z) :
  Qle_bool wake (inject_Z t0) = true ->
  clear n window h wake -> clear n window h (inject_Z t0).
Proof.
  intros H. apply clear_later. now apply Qle_bool_iff.
Qed.

(** A call that runs from one [await] to the next keeps the limits. *)
Lemma resume_stepped (t0 : Z) (pc : Pc) (l : t) (h : list Z) :
  kept t0 l h -> phase_ok t0 l h pc -> ready t0 pc = true ->
  stepped t0 l h (resume t0 pc l).
Proof.
  intros Hk Hp Hr. destruct pc; cbn [resume ready phase_ok] in *.
  - now apply enter_stepped.
  - now apply enter_stepped.
  - destruct Hp as (Hnow & Hh & Hrec & Cm).
    apply check_second_stepped; trivial. now apply (woken t0 wake).
  - destruct Hp as (Cm & Cs).
    apply apply_delay_stepped; trivial. now apply (woken t0 wake).
  - destruct Hp as (Cm & Cs & Cd).
    apply commit_kept; trivial. now apply (woken t0 wake).
  - discriminate.
  - discriminate.
Qed.

End SoloSteps.

Section SoloRuns.

Import RateLimiter Solo Cases.
Local Open Scope Z_scope.

Lemma set_nth_other {A : Type} (a : A) (l : list A) :
  forall i j : nat, j <> i -> nth_error (set_nth i a l) j = nth_error l j.
Proof.
  induction l as [| x l IH]; intros i j Hij; destruct i, j; cbn; trivial;
    try congruence.
  apply IH. congruence.
Qed.

Lemma set_nth_in {A : Type} (a : A) (l : list A) :
  forall (i j : nat) (x : A),
    nth_error (set_nth i a l) j = Some x ->
    (j = i /\ x = a) \/ (j <> i /\ nth_error l j = Some x).
Proof.
  induction l as [| y l IH]; intros i j x H.
  - destruct i, j; discriminate.
  - destruct i, j; cbn in H.
    + left. split; congruence.
    + right. split; [congruence | exact H].
    + right. split; [congruence | exact H].
    + apply IH in H. destruct H as [[-> ->] | [Hne H]];
        [left; split; reflexivity | right; split; [congruence | exact H]].
Qed.

Lemma idle_phase (c : Z) (l : t) (h : list Z) (pc : Pc) :
  in_progress pc = false -> phase_ok c l h pc.
Proof. destruct pc; try discriminate; intros _; exact I. Qed.

Lemma kept_later (c c' : Z) (l : t) (h : list Z) :
  c <= c' -> kept c l h -> kept c' l h.
Proof.
  intros Hc (Hs & Hh & (old & Hold & Hgone) & Hl).
  split; [exact Hs |]. split; [| split; [| exact Hl]].
  - revert Hh. apply Forall_impl. intros x Hx. lia.
  - exists old. split; [exact Hold |].
    revert Hgone. apply Forall_impl. intros x Hx. lia.
Qed.

Lemma phase_later (c c' : Z) (l : t) (h : list Z) (pc : Pc) :
  c <= c' -> phase_ok c l h pc -> phase_ok c' l h pc.
Proof.
  intros Hc. assert (Hq : (inject_Z c <= inject_Z c')%Q)
    by now rewrite <- Zle_Qle.
  destruct pc; cbn [phase_ok]; trivial.
  - intros (H1 & H2 & H3 & H4). repeat split; trivial. lia.
  - intros (H1 & H2). split; [| exact H2]. now apply (clear_later _ _ _ _ _ Hq).
  - intros (H1 & H2 & H3).
    split; [| split; [| exact H3]]; now apply (clear_later _ _ _ _ _ Hq).
Qed.

Lemma kept_released (c : Z) (l : t) (h : list Z) :
  kept c l h -> kept c (releaseToken l) h.
Proof. intros H. exact H. Qed.

Lemma phase_released (c : Z) (l : t) (h : list Z) (pc : Pc) :
  phase_ok c l h pc -> phase_ok c (releaseToken l) h pc.
Proof. destruct pc; intros H; exact H. Qed.

Lemma idle_all (w : Loop) (j : nat) (q : Pc) :
  idle w = true -> nth_error (tasks w) j = Some q -> in_progress q = false.
Proof.
  unfold idle. intros H Hq. rewrite forallb_forall in H.
  apply nth_error_In in Hq. apply H in Hq. now apply negb_true_iff in Hq.
Qed.

(** The tasks after a call has run: the others were not in progress. *)
Lemma others_after (c : Z) (l : t) (h : list Z) (ts : list Pc) (i : nat)
    (pc' : Pc) :
  (forall j q, j <> i -> nth_error ts j = Some q -> in_progress q = false) ->
  phase_ok c l h pc' ->
  Forall (phase_ok c l h) (set_nth i pc' ts) /\ solo (set_nth i pc' ts).
Proof.
  intros Hidle Hp. split.
  - apply Forall_forall. intros q Hq. apply In_nth_error in Hq.
    destruct Hq as [j Hq]. apply set_nth_in in Hq.
    destruct Hq as [[_ ->] | [Hne Hq]]; [exact Hp |].
    apply idle_phase. now apply (Hidle j).
  - intros j k p q Hp' Hq' Pp Pq.
    apply set_nth_in in Hp', Hq'.
    destruct Hp' as [[-> _] | [Hj Hp']], Hq' as [[-> _] | [Hk Hq']];
      trivial.
    + rewrite (Hidle k q) in Pq by trivial. discriminate.
    + rewrite (Hidle j p) in Pp by trivial. discriminate.
    + rewrite (Hidle k q) in Pq by trivial. discriminate.
Qed.

(** One action of a schedule in which the calls run one at a time. *)
Lemma act_kept (a : Action) (w w' : Loop) (h : list Z) :
  loop_kept w h -> starts_alone a w = true -> act a w = Some w' ->
  loop_kept w' (h ++ granted a w)
  /\ same_limits (limiter w) (limiter w').
Proof.
  intros (Hk & Hp & Hs) Ha Hact. destruct a as [t' | i | i]; cbn in Hact.
  - destruct (Z.leb_spec (clock w) t'); [| discriminate].
    injection Hact as <-. cbn [granted clock limiter tasks].
    rewrite app_nil_r. split; [| repeat split].
    split; [now apply (kept_later (clock w)) |]. split; [| exact Hs].
    revert Hp. apply Forall_impl. intros pc. now apply phase_later.
  - cbn [granted starts_alone] in *.
    destruct (nth_error (tasks w) i) as [pc |] eqn:Hpc; [| discriminate].
    destruct (ready (clock w) pc) eqn:Hr; [| discriminate].
    assert (Hpi : phase_ok (clock w) (limiter w) h pc).
    { rewrite Forall_forall in Hp. apply Hp. eapply nth_error_In; eauto. }
    pose proof (resume_stepped _ _ _ _ Hk Hpi Hr) as (Hk' & Hp' & Hsame).
    assert (Hidle : forall j q, j <> i -> nth_error (tasks w) j = Some q ->
                                in_progress q = false).
    { intros j q Hj Hq. destruct (in_progress pc) eqn:Hin.
      - destruct (in_progress q) eqn:Hinq; [| reflexivity].
        exfalso. apply Hj. now apply (Hs j i q pc).
      - destruct pc; try discriminate; now apply (idle_all w j). }
    destruct (resume (clock w) pc (limiter w)) as [l' pc'].
    injection Hact as <-. cbn [fst snd andb clock limiter tasks] in *.
    split; [| exact Hsame]. split; [exact Hk' |].
    now apply others_after.
  - cbn [granted].
    destruct (nth_error (tasks w) i) as [pc |] eqn:Hpc; [| discriminate].
    destruct pc; try discriminate. injection Hact as <-.
    cbn [clock limiter tasks]. rewrite app_nil_r.
    split; [| repeat split].
    split; [now apply kept_released |].
    assert (Hfor : Forall (phase_ok (clock w) (releaseToken (limiter w)) h)
                     (tasks w)).
    { revert Hp. apply Forall_impl. intros pc. apply phase_released. }
    clear Hp. split.
    + apply Forall_forall. intros q Hq. apply In_nth_error in Hq.
      destruct Hq as [j Hq]. apply set_nth_in in Hq.
      destruct Hq as [[_ ->] | [Hne Hq]]; [exact I |].
      rewrite Forall_forall in Hfor. apply Hfor. eapply nth_error_In; eauto.
    + intros j k p q Hp' Hq' Pp Pq.
      apply set_nth_in in Hp', Hq'.
      destruct Hp' as [[_ ->] | [Hj Hp']]; [discriminate |].
      destruct Hq' as [[_ ->] | [Hne Hq']]; [discriminate |].
      now apply (Hs j k p q).
Qed.

Lemma granted_when_run (a : Action) (w : Loop) :
  act a w = None -> granted a w = [].
Proof.
  destruct a as [t' | i | i]; cbn; trivial.
  destruct (nth_error (tasks w) i) as [pc |]; trivial.
  destruct (ready (clock w) pc); [| reflexivity].
  destruct (resume (clock w) pc (limiter w)). discriminate.
Qed.

Lemma same_limits_trans (l1 l2 l3 : t) :
  same_limits l1 l2 -> same_limits l2 l3 -> same_limits l1 l3.
Proof.
  intros (H1 & H2 & H3) (H4 & H5 & H6). repeat split; congruence.
Qed.

Lemma grants_kept (acts : list Action) :
  forall (w : Loop) (h : list Z),
    loop_kept w h -> one_at_a_time acts w = true ->
    exists (c : Z) (l : t),
      kept c l (h ++ grants acts w) /\ same_limits (limiter w) l.
Proof.
  induction acts as [| a r IH]; intros w h Hk Hone; cbn [grants].
  - exists (clock w), (limiter w). rewrite app_nil_r.
    split; [apply Hk | repeat split].
  - cbn [one_at_a_time] in Hone. apply andb_true_iff in Hone.
    destruct Hone as [Ha Hr].
    destruct (act a w) as [w' |] eqn:Hact.
    + destruct (act_kept a w w' h Hk Ha Hact) as [Hk' Hsame].
      rewrite app_assoc.
      destruct (IH w' _ Hk' Hr) as (c & l & H & Hl).
      exists c, l. split; [exact H |]. now apply (same_limits_trans _ _ _ Hsame).
    + exists (clock w), (limiter w).
      rewrite granted_when_run by exact Hact. rewrite !app_nil_r.
      split; [apply Hk | repeat split].
Qed.

Lemma spaced_apart (n : nat) (window : Z) (h : list Z) (i : nat) (a b : Z) :
  spaced n (inject_Z window) h ->
  nth_error h i = Some a -> nth_error h (i + n) = Some b ->
  window <= b - a.
Proof.
  intros Hs Ha Hb. specialize (Hs i a b Ha Hb).
  rewrite <- inject_Z_plus, <- Zle_Qle in Hs. lia.
Qed.

(** The limits of the limiter hold for calls that run one at a time.
    From a limiter that has recorded no request, whatever the schedule in
    which no call of [acquireToken] starts while another one is
    suspended in it: the grants are in the order of the clock; of any
    [requestsPerMinute] + 1 grants in a row the last is at least 60000 ms
    after the first; of any [requestsPerSecond] + 1 in a row the last is
    at least 1000 ms after the first; and two grants in a row are at
    least the delay of the limiter apart. *)
Theorem one_at_a_time_keeps_the_limits (acts : list Action) (w : Loop) :
  requestTimes (limiter w) = [] ->
  idle w = true ->
  one_at_a_time acts w = true ->
  (forall (i : nat) (a b : Z),
      nth_error (grants acts w) i = Some a ->
      nth_error (grants acts w) (S i) = Some b ->
      a <= b /\ (currentDelay (limiter w) <= inject_Z (b - a))%Q)
  /\ (forall (i : nat) (a b : Z),
         1 <= requestsPerMinute (limiter w) ->
         nth_error (grants acts w) i = Some a ->
         nth_error (grants acts w)
           (i + Z.to_nat (requestsPerMinute (limiter w))) = Some b ->
         60000 <= b - a)
  /\ (forall (i : nat) (a b : Z),
         1 <= requestsPerSecond (limiter w) ->
         nth_error (grants acts w) i = Some a ->
         nth_error (grants acts w)
           (i + Z.to_nat (requestsPerSecond (limiter w))) = Some b ->
         1000 <= b - a).
Proof.
  intros Hnone Hidle Hone.
  assert (Hstart : loop_kept w []).
  { split; [| split].
    - split; [constructor |]. split; [constructor |].
      split; [exists []; rewrite Hnone; split; [reflexivity | constructor] |].
      repeat split; intros _ i a b Ha; destruct i; discriminate.
    - apply Forall_forall. intros pc Hpc. apply idle_phase.
      apply In_nth_error in Hpc. destruct Hpc as [j Hpc].
      now apply (idle_all w j).
    - intros i j p q Hp Hq Pp _.
      rewrite (idle_all w i p Hidle Hp) in Pp. discriminate. }
  destruct (grants_kept acts w [] Hstart Hone)
    as (c & l & (Hs & _ & _ & Hm & Hsec & Hd) & H1 & H2 & H3).
  cbn [app] in *. rewrite H1 in Hm. rewrite H2 in Hsec. rewrite H3 in Hd.
  split; [| split].
  - intros i a b Ha Hb.
    specialize (Hd ltac:(lia) i a b Ha).
    change (Z.to_nat 1) with 1%nat in Hd. rewrite Nat.add_1_r in Hd.
    specialize (Hd Hb). split.
    + now apply (sorted_neighbours _ Hs i).
    + unfold Zminus. rewrite inject_Z_plus, inject_Z_opp. lra.
  - intros i a b Hn. now apply spaced_apart, Hm.
  - intros i a b Hn. now apply spaced_apart, Hsec.
Qed.

Lemma one_at_a_time_keeps_the_limits_witness :
  grants one_then_the_other two_calls_to_come = [1000; 62000]
  /\ (forall (i : nat) (a b : Z),
         nth_error (grants one_then_the_other two_calls_to_come) i = Some a ->
         nth_error (grants one_then_the_other two_calls_to_come) (S i)
         = Some b ->
         a <= b
         /\ (currentDelay (limiter two_calls_to_come) <= inject_Z (b - a))%Q)
  /\ (forall (i : nat) (a b : Z),
         1 <= requestsPerMinute (limiter two_calls_to_come) ->
         nth_error (grants one_then_the_other two_calls_to_come) i = Some a ->
         nth_error (grants one_then_the_other two_calls_to_come)
           (i + Z.to_nat (requestsPerMinute (limiter two_calls_to_come)))
         = Some b ->
         60000 <= b - a)
  /\ (forall (i : nat) (a b : Z),
         1 <= requestsPerSecond (limiter two_calls_to_come) ->
         nth_error (grants one_then_the_other two_calls_to_come) i = Some a ->
         nth_error (grants one_then_the_other two_calls_to_come)
           (i + Z.to_nat (requestsPerSecond (limiter two_calls_to_come)))
         = Some b ->
         1000 <= b - a).
Proof.
  split; [reflexivity |].
  apply (one_at_a_time_keeps_the_limits one_then_the_other two_calls_to_come);
    reflexivity.
Defined.

End SoloRuns.

(** ** The properties at concrete inputs *)

Section Instances.

Import JsString PoParser Translator Runs Inputs Slots Siblings Events Files
  Text Preamble Cases.
Local Open Scope Z_scope.

Lemma batches_partition_witness :
  exists bs : list (list nat),
    batches (batchSize_of (Cli.config_of no_options)) (seq 0 25) 25 0 = Some bs
    /\ List.concat bs = seq 0 25
    /\ Forall (fun x => Z.of_nat (List.length x)
                        = batchSize_of (Cli.config_of no_options))
         (removelast bs)
    /\ Forall (fun x => 0 < Z.of_nat (List.length x)
                        <= batchSize_of (Cli.config_of no_options)) bs.
Proof.
  apply (proj1 (batches_partition (Cli.config_of no_options) (seq 0 25))).
  reflexivity.
Defined.

Lemma nothing_selected_writes_nothing_witness :
  exists w' : World,
    translateFile (Ok (serialize catalog_with_header)) answered_at_once None
      "out.po" 0 (fresh no_options)
    = (w', Fulfilled)
    /\ poFile (self w') = mkPoFile [] [mkEntry "Hello" "Ola" None (Some 5%nat)]
    /\ total (progress (self w')) = 0
    /\ events w' = events (fresh no_options).
Proof.
  apply (nothing_selected_writes_nothing (serialize catalog_with_header)
           (mkPoFile [] [mkEntry "Hello" "Ola" None (Some 5%nat)])).
  - vm_compute. reflexivity.
  - reflexivity.
Defined.

Lemma negative_batch_size_never_ends_witness :
  snd (translateFile (Ok (serialize one_pending_entry)) answered_at_once None
         "out.po" 7 (fresh options_batch_size_minus_1))
  = Pending.
Proof.
  apply (negative_batch_size_never_ends (serialize one_pending_entry)
           (mkPoFile [] [mkEntry "Hello" EmptyString None (Some 4%nat)])).
  - vm_compute. reflexivity.
  - discriminate.
  - vm_compute. reflexivity.
Defined.

Lemma translateFile_translates_selected_witness :
  exists w' : World,
    translateFile (Ok (serialize two_pending_entries)) answered_at_once None
      "out.po" 2 (fresh no_options)
    = (w', Fulfilled)
    /\ header (poFile (self w')) = []
    /\ List.length (entries (poFile (self w'))) = 2%nat
    /\ (forall k : nat,
          entry_at k (self w')
          = if needsTranslation
                 (nth k [mkEntry "Hello" EmptyString None (Some 4%nat);
                         mkEntry "Bye" EmptyString None (Some 7%nat)] no_entry)
            then set_msgstr_entry (answers k)
                   (nth k [mkEntry "Hello" EmptyString None (Some 4%nat);
                           mkEntry "Bye" EmptyString None (Some 7%nat)]
                      no_entry)
            else nth k [mkEntry "Hello" EmptyString None (Some 4%nat);
                        mkEntry "Bye" EmptyString None (Some 7%nat)] no_entry)
    /\ completed (progress (self w'))
       = completed (progress (self (fresh no_options)))
         + Z.of_nat
             (List.length
                (entriesToTranslate
                   (mkPoFile []
                      [mkEntry "Hello" EmptyString None (Some 4%nat);
                       mkEntry "Bye" EmptyString None (Some 7%nat)])))
    /\ failed (progress (self w')) = failed (progress (self (fresh no_options)))
    /\ exists evs,
         events w'
         = events (fresh no_options) ++ evs
           ++ [WriteFile "out.po" (serialize (poFile (self w')))].
Proof.
  apply (translateFile_translates_selected (serialize two_pending_entries)
           (mkPoFile []
              [mkEntry "Hello" EmptyString None (Some 4%nat);
               mkEntry "Bye" EmptyString None (Some 7%nat)])
           answered_at_once answers (fun _ => 0%nat) "out.po"
           (fresh no_options)).
  - vm_compute. reflexivity.
  - discriminate.
  - reflexivity.
  - vm_compute. discriminate.
  - vm_compute. discriminate.
  - intros j Hj.
    assert (Hle : (j <= 2)%nat) by exact Hj.
    destruct j as [| [| [| j]]]; [vm_compute; reflexivity .. | lia].
  - intros k Hk.
    split; [intros n p s; reflexivity |].
    split; [simpl; lia |].
    split; [split; [intros n Hn; lia | reflexivity] |].
    reflexivity.
Defined.

Lemma entries_need_blank_lines_witness :
  (List.length [mkEntry "c" "d" None (Some 3%nat)]
   <= blank_lines (split (str1 newline) two_entries_no_blank_line) + 1)%nat.
Proof.
  apply (entries_need_blank_lines two_entries_no_blank_line
           (mkPoFile [] [mkEntry "c" "d" None (Some 3%nat)])).
  vm_compute. reflexivity.
Defined.

Lemma entries_carry_their_lines_witness :
  Forall (fun e =>
            exists n : nat,
              line e = Some n
              /\ msgid_line_at
                   (split (str1 newline) (serialize two_pending_entries)) n)
    [mkEntry "Hello" EmptyString None (Some 4%nat);
     mkEntry "Bye" EmptyString None (Some 7%nat)]
  /\ StronglySorted line_lt
       [mkEntry "Hello" EmptyString None (Some 4%nat);
        mkEntry "Bye" EmptyString None (Some 7%nat)].
Proof.
  apply (entries_carry_their_lines (serialize two_pending_entries)
           (mkPoFile []
              [mkEntry "Hello" EmptyString None (Some 4%nat);
               mkEntry "Bye" EmptyString None (Some 7%nat)])).
  vm_compute. reflexivity.
Defined.

Lemma answers_are_trimmed_witness :
  "Ola"%string <> EmptyString
  /\ trim "Ola" = "Ola"%string
  /\ forall e : TranslationEntry,
       msgid e <> EmptyString ->
       needsTranslation (set_msgstr_entry "Ola" e)
       = String.eqb "Ola" (msgid e).
Proof.
  apply (answers_are_trimmed (Providers.Responded padded_answer)
           (Providers.Chosen None) "Ola"%string).
  left. reflexivity.
Defined.


Lemma retry_after_sets_the_wait_witness :
  exists e : Providers.ProviderError,
    Providers.translate "Anthropic"
      (Providers.Responded too_many_requests_response) = Throw e
    /\ Providers.pe_isRateLimit e = true
    /\ waitTime (Providers.to_JsError e) 0
       = match Providers.retry_after too_many_requests_response with
         | Some header =>
             match Numbers.parseInt header with
             | Num z => if z =? 0 then 5000 * 2 ^ Z.of_nat 0 else z * 1000
             | NaN => 5000 * 2 ^ Z.of_nat 0
             end
         | None => 5000 * 2 ^ Z.of_nat 0
         end.
Proof.
  apply (retry_after_sets_the_wait "Anthropic" too_many_requests_response 0).
  - reflexivity.
  - reflexivity.
  - intros header z Hheader Hz. injection Hheader as <-.
    vm_compute in Hz. injection Hz as <-. vm_compute. discriminate.
  - lia.
Defined.

Lemma comments_above_the_header_witness :
  exists n : nat,
    parse (Lines.unlines
             (lines_with_preamble ["# Copyright"%string] []
                (mkEntry "Hello" EmptyString None None)))
    = Ok (mkPoFile []
            [mkEntry "Hello" EmptyString
               (stored (["# Copyright"%string] ++ Lines.comment_lines None))
               (Some n)]).
Proof.
  apply (comments_above_the_header ["# Copyright"%string] []
           (mkEntry "Hello" EmptyString None None)).
  - repeat constructor.
  - constructor.
  - repeat split; try reflexivity. discriminate.
Defined.

End Instances.
